(** * The recursive tree-to-code compiler of treelite (src/compiler/recursive.cc)

    A shallow embedding of the recursive compiler: the split condition, the
    tree walker, the two quantization policies, the [quantize] helper that the
    [Quantize] policy emits into the generated C file, the cut-point
    extraction and [Export].  The second half of the file states and proves
    the properties of the specification over these definitions. *)

From Stdlib Require Import String Ascii ZArith QArith List Bool Lia Sorted Permutation.
From Stdlib Require DecimalString.
Import ListNotations.

Local Open Scope Z_scope.

(* ===================================================================== *)
(** * Results of fallible code *)
(* ===================================================================== *)

(** What stops a run: a failed [CHECK] (dmlc's fatal assertion), an access
    outside a [std::vector] or a C array (undefined behaviour in the source),
    a failed allocation ([resize] with a negative [int]), an unreadable
    annotation stream, a read of a union member that was not the one written
    with a value the model does not track, and a loop or recursion that did
    not finish within the fuel it was given. *)
Inductive error : Type :=
| CheckFailed
| OutOfRange
| BadAlloc
| StreamError
| Unspecified
| OutOfFuel.

Inductive result (A : Type) : Type :=
| Ok (a : A)
| Err (e : error).
Arguments Ok {A} a.
Arguments Err {A} e.

Definition bind {A B : Type} (r : result A) (k : A -> result B) : result B :=
  match r with
  | Ok a => k a
  | Err e => Err e
  end.

Notation "x <- r ;; k" := (bind r (fun x => k))
  (at level 61, r at next level, right associativity).

(** [v[i]] for a vector or array indexed by an [int] or a [size_t]. *)
Definition index {A : Type} (l : list A) (i : Z) : result A :=
  if i <? 0 then Err OutOfRange
  else match nth_error l (Z.to_nat i) with
       | Some a => Ok a
       | None => Err OutOfRange
       end.

(* ===================================================================== *)
(** * Numbers *)
(* ===================================================================== *)

(** [tl_float] is C's [float].  Its comparisons and the text it is printed
    as matter here, so a value is kept as what it denotes: a NaN, an
    infinity or a finite number (every finite float is a rational; the two
    zeros and all representations of one rational compare equal, as [==]
    has it). *)
Inductive tl_float : Type :=
| NaN
| NegInf
| Finite (q : Q)
| PosInf.

(** The IEEE comparison: [None] when one side is a NaN. *)
Definition fcompare (a b : tl_float) : option comparison :=
  match a, b with
  | NaN, _ => None
  | _, NaN => None
  | NegInf, NegInf => Some Eq
  | NegInf, _ => Some Lt
  | _, NegInf => Some Gt
  | PosInf, PosInf => Some Eq
  | PosInf, _ => Some Gt
  | _, PosInf => Some Lt
  | Finite p, Finite q => Some (Qcompare p q)
  end.

(** C's [a < b], [a == b], [a <= b], [a > b], [a >= b] on floats. *)
Definition flt (a b : tl_float) : bool :=
  match fcompare a b with Some Lt => true | _ => false end.
Definition feq (a b : tl_float) : bool :=
  match fcompare a b with Some Eq => true | _ => false end.
Definition fle (a b : tl_float) : bool :=
  match fcompare a b with Some Lt | Some Eq => true | _ => false end.
Definition fgt (a b : tl_float) : bool :=
  match fcompare a b with Some Gt => true | _ => false end.
Definition fge (a b : tl_float) : bool :=
  match fcompare a b with Some Gt | Some Eq => true | _ => false end.

(** C's [int]: 32 bits, two's complement. *)
Definition INT_MAX : Z := 2 ^ 31 - 1.
Definition wrap_int (z : Z) : Z := (z + 2 ^ 31) mod 2 ^ 32 - 2 ^ 31.
Definition int_add (a b : Z) : Z := wrap_int (a + b).
Definition int_mul (a b : Z) : Z := wrap_int (a * b).
Definition int_div (a b : Z) : Z := wrap_int (Z.quot a b).

(** [size_t]: 64 bits, unsigned. *)
Definition wrap_size (z : Z) : Z := z mod 2 ^ 64.

(** [Tree::Operator].
    Modelled from the spec: the enumeration is declared in treelite/tree.h,
    which is not part of the sources; the specification names "less-than,
    less-or-equal, etc." and the four order comparisons, to which the
    equality test of the same enumeration is added. *)
Inductive Operator : Type := kEQ | kLT | kLE | kGT | kGE.

(** [semantic::OpName].
    Modelled from the spec: declared in treelite/semantic.h (absent); each
    operator is printed as the C operator it denotes. *)
Definition OpName (op : Operator) : string :=
  match op with
  | kEQ => "=="
  | kLT => "<"
  | kLE => "<="
  | kGT => ">"
  | kGE => ">="
  end.

(** What [a op b] evaluates to, on floats and on ints. *)
Definition float_cmp (op : Operator) (a b : tl_float) : bool :=
  match op with
  | kEQ => feq a b
  | kLT => flt a b
  | kLE => fle a b
  | kGT => fgt a b
  | kGE => fge a b
  end.

Definition int_cmp (op : Operator) (a b : Z) : bool :=
  match op with
  | kEQ => a =? b
  | kLT => a <? b
  | kLE => a <=? b
  | kGT => a >? b
  | kGE => a >=? b
  end.

(** Sorted and duplicate-free, as the elements of a [std::set<tl_float>] come
    out: each element is [<] the next. *)
Fixpoint strictly_sorted (l : list tl_float) : bool :=
  match l with
  | [] => true
  | a :: l' =>
      match l' with
      | [] => true
      | b :: _ => flt a b && strictly_sorted l'
      end
  end.

(* ===================================================================== *)
(** * The lookup tables and the [quantize] helper of the generated file *)
(* ===================================================================== *)

(** The three tables [Quantize::Preamble] lays out, over lists [cut_pts] in
    feature order: [threshold] holds every feature's list one after the
    other, [th_begin] where each feature's segment starts ([accum] in the
    source), [th_len] how long it is.  The last two are arrays of [int].
    The entries of [threshold] reach the generated file as [<<] prints them:
    the tables of the file are those of [generated_cut_pts] below, the cut
    points as printed and read back, not those of [Metadata::cut_pts]. *)
Definition threshold_table (cut_pts : list (list tl_float)) : list tl_float :=
  concat cut_pts.

(** The value of [accum] before each feature, in the loop that prints
    [th_begin]. *)
Fixpoint accum_from (accum : nat) (cut_pts : list (list tl_float)) : list nat :=
  match cut_pts with
  | [] => []
  | e :: rest => accum :: accum_from (accum + length e) rest
  end.

Definition th_begin_table (cut_pts : list (list tl_float)) : list Z :=
  map (fun accum => wrap_int (Z.of_nat accum)) (accum_from 0 cut_pts).

Definition th_len_table (cut_pts : list (list tl_float)) : list Z :=
  map (fun e => wrap_int (Z.of_nat (length e))) cut_pts.

(** The [while (low + 1 < high)] loop of [quantize] and the three returns
    that follow it.  [array] reads [array[i]]. *)
Fixpoint quantize_while (fuel : nat) (array : Z -> result tl_float)
         (val : tl_float) (len low high : Z) : result Z :=
  if int_add low 1 <? high then
    match fuel with
    | O => Err OutOfFuel
    | S fuel' =>
        let mid := int_div (int_add low high) 2 in
        mval <- array mid ;;
        if feq val mval then Ok (int_mul mid 2)
        else if flt val mval then quantize_while fuel' array val len low mid
        else quantize_while fuel' array val len mid high
    end
  else
    alow <- array low ;;
    if feq alow val then Ok (int_mul low 2)
    else if high =? len then Ok (int_mul len 2)
    else Ok (int_add (int_mul low 2) 1).

(** [static inline int quantize(float val, unsigned fid)].  Every turn of the
    loop brings [low] and [high] closer, so [len] turns are enough. *)
Definition quantize (threshold : list tl_float) (th_begin th_len : list Z)
           (val : tl_float) (fid : nat) : result Z :=
  base <- index th_begin (Z.of_nat fid) ;;
  len <- index th_len (Z.of_nat fid) ;;
  let array := fun i : Z => index threshold (base + i) in
  a0 <- array 0 ;;
  if flt val a0 then Ok (-10)
  else quantize_while (Z.to_nat len) array val len 0 len.

(** [quantize] over the tables of [cut_pts]. *)
Definition quantize_with (cut_pts : list (list tl_float))
           (val : tl_float) (fid : nat) : result Z :=
  quantize (threshold_table cut_pts) (th_begin_table cut_pts)
           (th_len_table cut_pts) val fid.

(* ===================================================================== *)
(** * The ensemble *)
(* ===================================================================== *)

(** [Tree::Node], read through its accessors: [is_leaf] tells the two
    variants apart, [leaf_value] reads a leaf, [split_index], [default_left],
    [comparison_op], [threshold], [cleft] and [cright] read a split.
    Modelled from the spec: the class is declared in treelite/tree.h, which
    is not part of the sources; the specification gives a node as one of two
    variants, a leaf with its value or a split with its feature id, missing
    value disposition, operator, threshold and the ids of its children. *)
Inductive Node : Type :=
| Leaf (leaf_value : tl_float)
| Split (split_index : nat) (default_left : bool) (comparison_op : Operator)
        (threshold : tl_float) (cleft cright : Z).

(** A tree is its nodes, [tree[nid]] the node of id [nid]; the root is 0. *)
Definition Tree : Type := list Node.

Record Model : Type := {
  trees : list Tree;
  num_features : Z
}.

(** [Annotation = std::vector<std::vector<size_t>>]. *)
Definition Annotation : Type := list (list N).

(** The two options of [CompilerParam] the compiler reads: [annotate_in] and
    [quantize] (here [quantize_level], the helper of the generated file
    having the name). *)
Record CompilerParam : Type := {
  annotate_in : string;
  quantize_level : Z
}.

(* ===================================================================== *)
(** * Code blocks *)
(* ===================================================================== *)

Inductive LikelyDirection : Type := kNone | kLeft | kRight.

(** The anonymous namespace's [SplitCondition]. *)
Record SplitCondition : Type := {
  sc_split_index : nat;
  sc_default_left : bool;
  sc_op : Operator;
  sc_threshold : tl_float;
  sc_numeric_adapter : Operator -> nat -> tl_float -> result string
}.

(** [std::to_string] of an [unsigned] or [int], and [<<] of a [size_t]. *)
Definition nat_to_string (n : nat) : string :=
  DecimalString.NilZero.string_of_uint (Nat.to_uint n).
Definition Z_to_string (z : Z) : string :=
  DecimalString.NilZero.string_of_int (Z.to_int z).

(** [SplitCondition::Compile]. *)
Definition Compile (c : SplitCondition) : result string :=
  let bitmap :=
    ("data[" ++ nat_to_string (sc_split_index c) ++ "].missing != -1")%string in
  numeric <- sc_numeric_adapter c (sc_op c) (sc_split_index c) (sc_threshold c) ;;
  Ok ((if sc_default_left c
       then "!(" ++ bitmap ++ ") || "
       else " (" ++ bitmap ++ ") && ") ++ numeric)%string.

(** The block vocabulary of [treelite::semantic].
    Modelled from the spec: the classes are declared in treelite/semantic.h,
    which is not part of the sources; the specification lists them as
    plain-text block, function block, sequence of blocks and conditional
    block with an optional likelihood hint.  The arguments of [IfElseBlock]
    are in the order of the constructor call in [WalkTree_]: the condition,
    the block run when it holds, the block run when it does not, the hint. *)
#[warnings="-register-all"]
Inductive CodeBlock : Type :=
| PlainBlock (inner_text : list string)
| FunctionBlock (prototype : string) (body : CodeBlock)
| SequenceBlock (sequence : list CodeBlock)
| IfElseBlock (condition : SplitCondition) (if_block else_block : CodeBlock)
              (likely_direction : LikelyDirection).

(** The parts of the code-emission library the compiler calls and the sources
    do not hold: [common::FloatToString], [<<] of a [float] into a stream,
    [common::WrapText] (it appends to the stream and moves the line length,
    both passed and returned here) and [FunctionBlock::Compile] on a function
    whose body is a plain block. *)
Record Renderer : Type := {
  FloatToString : tl_float -> string;
  stream_float : tl_float -> string;
  WrapText : string -> nat -> string -> nat -> string * nat;
  FunctionBlock_Compile : string -> list string -> list string
}.

(** The C implementation that compiles the generated file, as far as the
    numbers in it go: the value of the floating constant of a given text in
    an expression, where it is a [double], and in the initializer of a
    [float] array, where it is converted to [float].  A text that is not a
    constant ([nan], [inf]) has no value. *)
Record CTarget : Type := {
  double_constant : string -> result tl_float;
  float_constant : string -> result tl_float
}.

(* ===================================================================== *)
(** * Cut-point extraction *)
(* ===================================================================== *)

(** A [std::set<tl_float>], kept as its elements in iteration order. *)
Abbreviation float_set := (list tl_float).

(** [std::set::insert]: [x] goes in unless an element equivalent to it under
    [<] is there already. *)
Fixpoint set_insert (x : tl_float) (s : float_set) : float_set :=
  match s with
  | [] => [x]
  | y :: s' =>
      if flt x y then x :: s
      else if flt y x then y :: set_insert x s'
      else s
  end.

(** The elements of a set from [begin()] to [end()]. *)
Definition set_elements (s : float_set) : list tl_float := s.

(** [thresh_[split_index].insert(threshold)]. *)
Fixpoint insert_at (i : nat) (x : tl_float) (thresh_ : list float_set)
  : result (list float_set) :=
  match thresh_, i with
  | [], _ => Err OutOfRange
  | s :: rest, O => Ok (set_insert x s :: rest)
  | s :: rest, S i' => rest' <- insert_at i' x rest ;; Ok (s :: rest')
  end.

(** The [while (!Q.empty())] loop over one tree: [Q] is the queue, its front
    first. *)
Fixpoint scan_queue (fuel : nat) (tree : Tree) (Q : list Z)
         (thresh_ : list float_set) : result (list float_set) :=
  match Q with
  | [] => Ok thresh_
  | nid :: Q' =>
      match fuel with
      | O => Err OutOfFuel
      | S fuel' =>
          node <- index tree nid ;;
          match node with
          | Leaf _ => scan_queue fuel' tree Q' thresh_
          | Split split_index _ _ threshold cleft cright =>
              thresh_' <- insert_at split_index threshold thresh_ ;;
              scan_queue fuel' tree (Q' ++ [cleft; cright]) thresh_'
          end
      end
  end.

(** The loop over [model.trees]. *)
Fixpoint scan_trees (fuel : nat) (ts : list Tree) (thresh_ : list float_set)
  : result (list float_set) :=
  match ts with
  | [] => Ok thresh_
  | tree :: rest =>
      thresh_' <- scan_queue fuel tree [0] thresh_ ;;
      scan_trees fuel rest thresh_'
  end.

(** [ExtractCutPoints]; [fuel] bounds the nodes taken off the queue per tree.
    The final loop copies each set, in order, into [cut_pts[i]]. *)
Definition ExtractCutPoints (fuel : nat) (model : Model)
  : result (list (list tl_float)) :=
  if num_features model <? 0 then Err BadAlloc
  else
    let thresh_ := repeat ([] : float_set) (Z.to_nat (num_features model)) in
    thresh_' <- scan_trees fuel (trees model) thresh_ ;;
    Ok (map set_elements thresh_').

Record Metadata : Type := {
  info_num_features : Z;
  cut_pts : list (list tl_float)
}.

(** [Metadata::Init]. *)
Definition Metadata_Init (fuel : nat) (model : Model) (extract_cut_pts : bool)
  : result Metadata :=
  if extract_cut_pts then
    cp <- ExtractCutPoints fuel model ;;
    Ok {| info_num_features := num_features model; cut_pts := cp |}
  else Ok {| info_num_features := num_features model; cut_pts := [] |}.

(* ===================================================================== *)
(** * The quantization policies *)
(* ===================================================================== *)

(** [common::binary_search(begin, end, val)]: the position of [val], or
    [None] for the [end] iterator.
    Modelled from the spec: the helper is defined in treelite/common.h, which
    is not part of the sources; the specification has it as an exact-match
    binary search over the sorted, deduplicated list, and the caller tests
    its result against [end]. *)
Fixpoint binary_search_from (fuel : nat) (v : list tl_float) (val : tl_float)
         (low high : nat) : option nat :=
  match fuel with
  | O => None
  | S fuel' =>
      if (low <? high)%nat then
        let mid := (low + (high - low) / 2)%nat in
        match nth_error v mid with
        | None => None
        | Some mval =>
            if feq mval val then Some mid
            else if flt mval val then binary_search_from fuel' v val (S mid) high
            else binary_search_from fuel' v val low mid
        end
      else None
  end.

Definition binary_search (v : list tl_float) (val : tl_float) : option nat :=
  binary_search_from (S (length v)) v val 0 (length v).

(** What a policy class gives [RecursiveCompiler]; each member reads the
    [Metadata] the policy was initialised with. *)
Record QuantizePolicy : Type := {
  NumericAdapter : Metadata -> Operator -> nat -> tl_float -> result string;
  Preamble : Metadata -> list string;
  Preprocessing : Metadata -> list string;
  QuantizeFlag : bool
}.

(** The literal [Quantize::NumericAdapter] prints for a threshold found at
    position [loc]: [static_cast<size_t>(loc - v.begin()) * 2]. *)
Definition quantized_literal (loc : nat) : Z := wrap_size (Z.of_nat loc * 2).

(** The body of the generated [quantize], line by line as in the source. *)
Definition quantize_text : list string :=
  [ "const float* array = &threshold[th_begin[fid]];";
    "int len = th_len[fid];";
    "int low = 0;";
    "int high = len;";
    "int mid;";
    "float mval;";
    "if (val < array[0]) {";
    "  return -10;";
    "}";
    "while (low + 1 < high) {";
    "  mid = (low + high) / 2;";
    "  mval = array[mid];";
    "  if (val == mval) {";
    "    return mid * 2;";
    "  } else if (val < mval) {";
    "    high = mid;";
    "  } else {";
    "    low = mid;";
    "  }";
    "}";
    "if (array[low] == val) {";
    "  return low * 2;";
    "} else if (high == len) {";
    "  return len * 2;";
    "} else {";
    "  return low * 2 + 1;";
    "}" ]%string.

(** The hint of a split: [likely_direction] as [WalkTree_] sets it from the
    counts of the two children. *)
Definition likely_direction_of (counts : list N) (cleft cright : Z)
  : result LikelyDirection :=
  match counts with
  | [] => Ok kNone
  | _ :: _ =>
      left_count <- index counts cleft ;;
      right_count <- index counts cright ;;
      Ok (if (right_count <? left_count)%N then kLeft else kRight)
  end.

(** The two lines [Export] adds to the preamble when [annotate] is set. *)
Definition LIKELY_macro : string :=
  "#define LIKELY(x)     __builtin_expect(!!(x), 1)".
Definition UNLIKELY_macro : string :=
  "#define UNLIKELY(x)   __builtin_expect(!!(x), 0)".

(** The start of [Export]: the annotation and the [annotate] flag. *)
Definition load_annotation (param : CompilerParam)
           (read_annotation : string -> result Annotation)
  : result (Annotation * bool) :=
  if String.eqb (annotate_in param) "NULL" then Ok ([], false)
  else annotation <- read_annotation (annotate_in param) ;;
       Ok (annotation, true).

(** The counts [Export] hands to [WalkTree] for the tree [tree_id]:
    [annotation[tree_id]] when the annotation is not empty, no counts
    otherwise. *)
Definition counts_of (annotation : Annotation) (tree_id : nat) : result (list N) :=
  match annotation with
  | _ :: _ => index annotation (Z.of_nat tree_id)
  | [] => Ok []
  end.

Section Policies.

Variable R : Renderer.

(** [class NoQuantize]. *)
Definition NoQuantize : QuantizePolicy := {|
  NumericAdapter := fun _ op split_index threshold =>
    Ok ("data[" ++ nat_to_string split_index ++ "].fvalue "
        ++ OpName op ++ " " ++ stream_float R threshold)%string;
  Preamble := fun _ =>
    [ "union Entry {"; "  int missing;"; "  float fvalue;"; "};" ]%string;
  Preprocessing := fun _ => [];
  QuantizeFlag := false
|}.

(** One table body of [Quantize::Preamble]: the entries wrapped at 80
    columns after two spaces. *)
Definition wrap_entries (entries : list string) : string :=
  fst (fold_left (fun st text => WrapText R (fst st) (snd st) text 80)
                 entries ("  "%string, 2%nat)).

(** [class Quantize]. *)
Definition Quantize : QuantizePolicy := {|
  NumericAdapter := fun info op split_index threshold =>
    v <- index (cut_pts info) (Z.of_nat split_index) ;;
    match binary_search v threshold with
    | None => Err CheckFailed
    | Some loc =>
        Ok ("data[" ++ nat_to_string split_index ++ "].qvalue "
            ++ OpName op ++ " " ++ Z_to_string (quantized_literal loc))%string
    end;
  Preamble := fun info =>
    [ "union Entry {"%string; "  int missing;"%string;
      "  float fvalue;"%string; "  int qvalue;"%string; "};"%string ]
    ++ [ "static const float threshold[] = {"%string;
         wrap_entries (map (stream_float R) (concat (cut_pts info)));
         "};"%string ]
    ++ [ "static const int th_begin[] = {"%string;
         wrap_entries (map nat_to_string (accum_from 0 (cut_pts info)));
         "};"%string ]
    ++ [ "static const int th_len[] = {"%string;
         wrap_entries (map (fun e => nat_to_string (length e)) (cut_pts info));
         "};"%string ]
    ++ FunctionBlock_Compile R
         "static inline int quantize(float val, unsigned fid)"
         quantize_text;
  Preprocessing := fun info =>
    [ ("for (int i = 0; i < " ++ Z_to_string (info_num_features info)
       ++ "; ++i) {")%string;
      "  if (data[i].missing != -1) {"%string;
      "    data[i].qvalue = quantize(data[i].fvalue, i);"%string;
      "  }"%string;
      "}"%string ];
  QuantizeFlag := true
|}.

(** The body of [TREELITE_REGISTER_COMPILER]: which policy compiles. *)
Definition select_policy (param : CompilerParam) : QuantizePolicy :=
  if quantize_level param >? 0 then Quantize else NoQuantize.

(* =================================================================== *)
(** * The recursive compiler *)
(* =================================================================== *)

Variable policy : QuantizePolicy.

(** [RecursiveCompiler::WalkTree_]; [fuel] bounds the depth of the
    recursion. *)
Fixpoint WalkTree_ (fuel : nat) (info : Metadata) (tree : Tree)
         (counts : list N) (nid : Z) : result CodeBlock :=
  match fuel with
  | O => Err OutOfFuel
  | S fuel' =>
      node <- index tree nid ;;
      match node with
      | Leaf leaf_value =>
          Ok (PlainBlock [("sum += " ++ FloatToString R leaf_value ++ ";")%string])
      | Split split_index default_left op threshold cleft cright =>
          likely_direction <-
            match counts with
            | [] => Ok kNone
            | _ :: _ =>
                left_count <- index counts cleft ;;
                right_count <- index counts cright ;;
                Ok (if (right_count <? left_count)%N then kLeft else kRight)
            end ;;
          left_block <- WalkTree_ fuel' info tree counts cleft ;;
          right_block <- WalkTree_ fuel' info tree counts cright ;;
          Ok (IfElseBlock
                {| sc_split_index := split_index;
                   sc_default_left := default_left;
                   sc_op := op;
                   sc_threshold := threshold;
                   sc_numeric_adapter := NumericAdapter policy info |}
                left_block right_block likely_direction)
      end
  end.

(** [RecursiveCompiler::WalkTree]. *)
Definition WalkTree (fuel : nat) (info : Metadata) (tree : Tree)
           (counts : list N) : result CodeBlock :=
  WalkTree_ fuel info tree counts 0.

(** The loop of [Export] over [model.trees], from [tree_id] on. *)
Fixpoint walk_trees (fuel : nat) (info : Metadata) (annotation : Annotation)
         (tree_id : nat) (ts : list Tree) : result (list CodeBlock) :=
  match ts with
  | [] => Ok []
  | tree :: rest =>
      counts <- counts_of annotation tree_id ;;
      block <- WalkTree fuel info tree counts ;;
      blocks <- walk_trees fuel info annotation (S tree_id) rest ;;
      Ok (block :: blocks)
  end.

(** [RecursiveCompiler::Export].  [read_annotation] is the stream of
    [param.annotate_in] read through [dmlc::JSONReader]. *)
Definition Export (param : CompilerParam)
           (read_annotation : string -> result Annotation)
           (fuel : nat) (model : Model) : result CodeBlock :=
  info <- Metadata_Init fuel model (QuantizeFlag policy) ;;
  loaded <- load_annotation param read_annotation ;;
  let annotation : Annotation := fst loaded in
  let annotate : bool := snd loaded in
  blocks <- walk_trees fuel info annotation 0 (trees model) ;;
  let sequence :=
    SequenceBlock
      ([ PlainBlock ["float sum = 0.0f;"%string];
         PlainBlock (Preprocessing policy info) ]
       ++ blocks
       ++ [ PlainBlock ["return sum;"%string] ]) in
  let function :=
    FunctionBlock "float predict_margin(union Entry* data)" sequence in
  let preamble :=
    Preamble policy info ++ [""%string]
    ++ (if annotate then [ LIKELY_macro; UNLIKELY_macro ] else []) in
  Ok (SequenceBlock [ PlainBlock preamble; function ]).

End Policies.

(** The hints of a block, outermost first: one per conditional. *)
Fixpoint hints (b : CodeBlock) : list LikelyDirection :=
  match b with
  | PlainBlock _ => []
  | FunctionBlock _ body => hints body
  | SequenceBlock sequence => flat_map hints sequence
  | IfElseBlock _ if_block else_block likely_direction =>
      likely_direction :: hints if_block ++ hints else_block
  end.

(* ===================================================================== *)
(** * What the generated conditions mean *)
(* ===================================================================== *)

(** [union Entry { int missing; float fvalue; int qvalue; }]: one slot, last
    written as an [int] (members [missing] and [qvalue]) or as a [float]
    (member [fvalue]).  A missing feature is the slot holding the [int] -1. *)
Inductive Entry : Type :=
| IntSlot (z : Z)
| FloatSlot (v : tl_float).

Definition missing_entry : Entry := IntSlot (-1).

(** [data[i].missing != -1].  A feature value written as a [float] is not
    the bit pattern of -1. *)
Definition is_present (e : Entry) : bool :=
  match e with
  | IntSlot z => negb (z =? -1)
  | FloatSlot _ => true
  end.

(** [data[i].fvalue] and [data[i].qvalue]; what an [int] reads as a [float],
    and a [float] as an [int], is left open. *)
Definition read_fvalue (e : Entry) : result tl_float :=
  match e with
  | FloatSlot v => Ok v
  | IntSlot _ => Err Unspecified
  end.

Definition read_qvalue (e : Entry) : result Z :=
  match e with
  | IntSlot z => Ok z
  | FloatSlot _ => Err Unspecified
  end.

(** The two comparisons the policies print: [data[i].fvalue op threshold] and
    [data[i].qvalue op literal]. *)
Inductive NumericExpr : Type :=
| FCompare (i : nat) (op : Operator) (threshold : tl_float)
| QCompare (i : nat) (op : Operator) (literal : Z).

(** The two conditions [SplitCondition::Compile] prints:
    [!(data[i].missing != -1) || numeric] and
    [ (data[i].missing != -1) && numeric]. *)
Inductive ConditionExpr : Type :=
| MissingOr (i : nat) (numeric : NumericExpr)
| PresentAnd (i : nat) (numeric : NumericExpr).

Definition condition_expr (default_left : bool) (i : nat) (numeric : NumericExpr)
  : ConditionExpr :=
  if default_left then MissingOr i numeric else PresentAnd i numeric.

(** The text of an expression. *)
Definition render_numeric (R : Renderer) (n : NumericExpr) : string :=
  match n with
  | FCompare i op threshold =>
      "data[" ++ nat_to_string i ++ "].fvalue " ++ OpName op ++ " "
      ++ stream_float R threshold
  | QCompare i op literal =>
      "data[" ++ nat_to_string i ++ "].qvalue " ++ OpName op ++ " "
      ++ Z_to_string literal
  end%string.

Definition render_condition (R : Renderer) (c : ConditionExpr) : string :=
  match c with
  | MissingOr i numeric =>
      ("!(" ++ ("data[" ++ nat_to_string i ++ "].missing != -1") ++ ") || ")
      ++ render_numeric R numeric
  | PresentAnd i numeric =>
      (" (" ++ ("data[" ++ nat_to_string i ++ "].missing != -1") ++ ") && ")
      ++ render_numeric R numeric
  end%string.

(** The value of an expression on the record [data], as C evaluates it:
    [||] and [&&] leave their right side alone when the left decides.  The
    threshold of a float comparison stands in the text as [<<] printed it
    ([stream_float]): [data[i].fvalue], promoted to [double], is compared
    with the constant of that text, not with the threshold of the node. *)
Definition eval_numeric (R : Renderer) (C : CTarget) (data : list Entry)
           (n : NumericExpr) : result bool :=
  match n with
  | FCompare i op threshold =>
      e <- index data (Z.of_nat i) ;;
      v <- read_fvalue e ;;
      literal <- double_constant C (stream_float R threshold) ;;
      Ok (float_cmp op v literal)
  | QCompare i op literal =>
      e <- index data (Z.of_nat i) ;;
      q <- read_qvalue e ;;
      Ok (int_cmp op q literal)
  end.

Definition eval_condition (R : Renderer) (C : CTarget) (data : list Entry)
           (c : ConditionExpr) : result bool :=
  match c with
  | MissingOr i numeric =>
      e <- index data (Z.of_nat i) ;;
      if negb (is_present e) then Ok true else eval_numeric R C data numeric
  | PresentAnd i numeric =>
      e <- index data (Z.of_nat i) ;;
      if is_present e then eval_numeric R C data numeric else Ok false
  end.

(** The constants of the initializer of a [float] array, entry by entry. *)
Fixpoint read_constants (C : CTarget) (entries : list string)
  : result (list tl_float) :=
  match entries with
  | [] => Ok []
  | text :: rest =>
      c <- float_constant C text ;;
      cs <- read_constants C rest ;;
      Ok (c :: cs)
  end.

(** The cut points as the generated file holds them.  [Quantize::Preamble]
    prints every cut point into the initializer of [threshold[]] with
    [oss2 << value], feature after feature: the table of the file is made of
    the constants of these texts, segment by segment, while [th_begin] and
    [th_len] are printed from sizes and are those of [cut_pts]. *)
Fixpoint generated_cut_pts (R : Renderer) (C : CTarget)
         (cut_pts : list (list tl_float)) : result (list (list tl_float)) :=
  match cut_pts with
  | [] => Ok []
  | e :: rest =>
      e' <- read_constants C (map (stream_float R) e) ;;
      rest' <- generated_cut_pts R C rest ;;
      Ok (e' :: rest')
  end.

(** The expression [Quantize::NumericAdapter] prints ([NoQuantize]'s is
    [FCompare split_index op threshold]). *)
Definition Quantize_expr (info : Metadata) (op : Operator) (split_index : nat)
           (threshold : tl_float) : result NumericExpr :=
  v <- index (cut_pts info) (Z.of_nat split_index) ;;
  match binary_search v threshold with
  | None => Err CheckFailed
  | Some loc => Ok (QCompare split_index op (quantized_literal loc))
  end.

(** Which block of a conditional runs.
    Modelled from the spec: [IfElseBlock::Compile] is part of
    treelite/semantic.h (absent); the conditional runs its first block when
    the condition holds and its second when it does not. *)
Definition branch_taken (holds : bool) (b : CodeBlock) : option CodeBlock :=
  match b with
  | IfElseBlock _ if_block else_block _ =>
      Some (if holds then if_block else else_block)
  | _ => None
  end.


(** The loop [Quantize::Preprocessing] prints, from feature [i] on for [n]
    features: every slot that is not missing gets the code of its value.
    [cp] is the cut points as the tables of the generated file hold them
    ([generated_cut_pts]). *)
Fixpoint preprocess_from (cp : list (list tl_float)) (i n : nat)
         (data : list Entry) : result (list Entry) :=
  match n with
  | O => Ok data
  | S n' =>
      e <- index data (Z.of_nat i) ;;
      data' <-
        (if is_present e then
           v <- read_fvalue e ;;
           q <- quantize_with cp v i ;;
           Ok (firstn i data ++ IntSlot q :: skipn (S i) data)
         else Ok data) ;;
      preprocess_from cp (S i) n' data'
  end.

(* ===================================================================== *)
(** * Well-formed ensembles *)
(* ===================================================================== *)

(** The nodes under [nid] form a finite binary tree of [size] nodes: every
    child id is a node of the tree and no path comes back to a node. *)
Inductive TreeAt (tree : Tree) : Z -> nat -> Prop :=
| TreeAt_leaf : forall nid v,
    index tree nid = Ok (Leaf v) -> TreeAt tree nid 1
| TreeAt_split : forall nid i dl op t l r a b,
    index tree nid = Ok (Split i dl op t l r) ->
    TreeAt tree l a -> TreeAt tree r b ->
    TreeAt tree nid (S (a + b)).

(** [nid] is [from] or a node under it. *)
Inductive Under (tree : Tree) (from : Z) : Z -> Prop :=
| Under_self : Under tree from from
| Under_left : forall nid i dl op t l r,
    Under tree from nid -> index tree nid = Ok (Split i dl op t l r) ->
    Under tree from l
| Under_right : forall nid i dl op t l r,
    Under tree from nid -> index tree nid = Ok (Split i dl op t l r) ->
    Under tree from r.

(** A split reads a feature of the ensemble and its threshold is a number. *)
Definition node_ok (nfeat : Z) (node : Node) : Prop :=
  match node with
  | Leaf _ => True
  | Split i _ _ t _ _ => Z.of_nat i < nfeat /\ t <> NaN
  end.

(** A tree of the ensemble: a finite binary tree from the root 0 that holds
    every node of the vector. *)
Record valid_tree (nfeat : Z) (tree : Tree) : Prop := {
  vt_shape : exists size, TreeAt tree 0 size;
  vt_rooted : forall nid node, index tree nid = Ok node -> Under tree 0 nid;
  vt_nodes : Forall (node_ok nfeat) tree
}.

Definition valid_model (model : Model) : Prop :=
  0 <= num_features model /\
  Forall (valid_tree (num_features model)) (trees model).

(** Some split of [tree] is on feature [f] with a threshold equal to [t]. *)
Definition tree_has_threshold (tree : Tree) (f : nat) (t : tl_float) : Prop :=
  exists nid dl op t' l r,
    index tree nid = Ok (Split f dl op t' l r) /\ feq t' t = true.

Definition model_has_threshold (model : Model) (f : nat) (t : tl_float) : Prop :=
  exists tree, In tree (trees model) /\ tree_has_threshold tree f t.

(** [counts] can be read at both children of every split of [tree]. *)
Definition counts_cover (tree : Tree) (counts : list N) : Prop :=
  forall nid i dl op t l r,
    index tree nid = Ok (Split i dl op t l r) ->
    (exists cl, index counts l = Ok cl) /\ (exists cr, index counts r = Ok cr).

(** The four places a value can have among the cut points [arr]: strictly
    below the first, equal to one, strictly between two neighbours, strictly
    above the last. *)
Definition below (arr : list tl_float) (v : tl_float) : Prop :=
  exists a0, nth_error arr 0 = Some a0 /\ flt v a0 = true.

Definition on_point (arr : list tl_float) (v : tl_float) (i : nat) : Prop :=
  exists ai, nth_error arr i = Some ai /\ feq v ai = true.

Definition between (arr : list tl_float) (v : tl_float) (i : nat) : Prop :=
  exists ai aj,
    nth_error arr i = Some ai /\ nth_error arr (S i) = Some aj /\
    flt ai v = true /\ flt v aj = true.

Definition above (arr : list tl_float) (v : tl_float) : Prop :=
  exists al, nth_error arr (length arr - 1) = Some al /\ flt al v = true.

Definition placed (arr : list tl_float) (v : tl_float) : Prop :=
  below arr v \/ (exists i, on_point arr v i) \/
  (exists i, between arr v i) \/ above arr v.

(** [annotation] can be read wherever [Export] and [WalkTree_] read it: it
    is empty, or it has an entry for every tree, each empty or readable at
    the children of the splits of its tree. *)
Definition annotation_fits (ts : list Tree) (annotation : Annotation) : Prop :=
  forall tree_id tree,
    nth_error ts tree_id = Some tree ->
    exists counts,
      counts_of annotation tree_id = Ok counts /\
      (counts = [] \/ counts_cover tree counts).

(** Where the ensemble sends a record at a split: [true] for the left child.
    Modelled from the spec: the evaluation of a tree is not in the sources;
    in the end-to-end scenario of the specification a split [<] 0.5 sends
    0.2 to its left leaf and 0.7 to its right leaf, and a missing value goes
    where [default_left] says. *)
Definition goes_left (default_left : bool) (op : Operator)
           (threshold : tl_float) (e : Entry) : result bool :=
  if is_present e then
    v <- read_fvalue e ;;
    Ok (float_cmp op v threshold)
  else Ok default_left.

(* ===================================================================== *)
(** * The stream output of a [float] and the constants of C *)
(* ===================================================================== *)

(** [oss << value] on a stream with its default flags prints a [float] as
    [printf]'s [%g] does with precision 6: the value is rounded to six
    significant decimal digits (to nearest, ties to even), written in fixed
    notation when its decimal exponent is at least -4 and below 6 and in
    scientific notation otherwise, without trailing zeros. *)
Definition round_half_even (n d : Z) : Z :=
  let q := n / d in
  let r := n mod d in
  if 2 * r <? d then q
  else if d <? 2 * r then q + 1
  else if Z.even q then q else q + 1.

(** The decimal exponent [X] of [n / d]: [10 ^ X <= n / d < 10 ^ (X + 1)]. *)
Fixpoint exponent10_up (fuel : nat) (n d X : Z) : Z :=
  match fuel with
  | O => X
  | S fuel' => if n <? 10 * d then X else exponent10_up fuel' n (10 * d) (X + 1)
  end.

Fixpoint exponent10_down (fuel : nat) (n d X : Z) : Z :=
  match fuel with
  | O => X
  | S fuel' => if d <=? n then X else exponent10_down fuel' (10 * n) d (X - 1)
  end.

Definition exponent10 (n d : Z) : Z :=
  let fuel := S (Z.to_nat (Z.log2 n + Z.log2 d)) in
  if d <=? n then exponent10_up fuel n d 0
  else exponent10_down fuel (10 * n) d (-1).

(** The six digits [m] and the exponent of [n / d] rounded to them. *)
Definition significand6 (n d : Z) : Z * Z :=
  let X := exponent10 n d in
  let m := if X <=? 5 then round_half_even (n * 10 ^ (5 - X)) d
           else round_half_even n (d * 10 ^ (X - 5)) in
  if m =? 1000000 then (100000, X + 1) else (m, X).

Fixpoint digits_of (k : nat) (m : Z) : string :=
  match k with
  | O => EmptyString
  | S k' => digits_of k' (m / 10)
            ++ String (ascii_of_nat (48 + Z.to_nat (m mod 10))) EmptyString
  end.

Fixpoint strip_zeros (s : string) : string :=
  match s with
  | EmptyString => EmptyString
  | String c rest =>
      match strip_zeros rest with
      | EmptyString => if Ascii.eqb c "0" then EmptyString else String c EmptyString
      | rest' => String c rest'
      end
  end.

Definition with_point (whole frac : string) : string :=
  match strip_zeros frac with
  | EmptyString => whole
  | frac' => whole ++ "." ++ frac'
  end.

Fixpoint zeros (k : nat) : string :=
  match k with
  | O => EmptyString
  | S k' => String "0" (zeros k')
  end.

Definition exponent_text (X : Z) : string :=
  (if X <? 0 then "e-" else "e+")
  ++ (if Z.abs X <? 10 then "0" else "") ++ Z_to_string (Z.abs X).

Definition general6 (n d : Z) : string :=
  let '(m, X) := significand6 n d in
  let D := digits_of 6 m in
  if (X <? -4) || (6 <=? X) then
    with_point (substring 0 1 D) (substring 1 5 D) ++ exponent_text X
  else if X <? 0 then
    with_point "0" (zeros (Z.to_nat (- X - 1)) ++ D)
  else
    with_point (substring 0 (Z.to_nat (X + 1)) D)
               (substring (Z.to_nat (X + 1)) (5 - Z.to_nat X) D).

Definition ostream_float (x : tl_float) : string :=
  match x with
  | NaN => "nan"
  | PosInf => "inf"
  | NegInf => "-inf"
  | Finite q =>
      if Qnum q =? 0 then "0"
      else (if Qnum q <? 0 then "-" else "")
           ++ general6 (Z.abs (Qnum q)) (Zpos (Qden q))
  end.

(** The number a decimal floating constant of C writes: digits, an optional
    fraction and an optional exponent, with the sign in front of it. *)
Definition digit_value (c : ascii) : option Z :=
  let n := nat_of_ascii c in
  if ((48 <=? n) && (n <=? 57))%nat then Some (Z.of_nat (n - 48)) else None.

Fixpoint read_digits (s : string) (acc : Z) (count : nat) : Z * nat * string :=
  match s with
  | EmptyString => (acc, count, s)
  | String c rest =>
      match digit_value c with
      | Some d => read_digits rest (10 * acc + d) (S count)
      | None => (acc, count, s)
      end
  end.

Definition read_sign (s : string) : bool * string :=
  match s with
  | String c rest =>
      if Ascii.eqb c "-" then (true, rest)
      else if Ascii.eqb c "+" then (false, rest)
      else (false, s)
  | EmptyString => (false, s)
  end.

Definition read_exponent (s : string) : option Z :=
  match s with
  | EmptyString => Some 0
  | String c rest =>
      if Ascii.eqb c "e" || Ascii.eqb c "E" then
        let '(negative, s1) := read_sign rest in
        match read_digits s1 0 0 with
        | (_, O, _) => None
        | (ev, _, EmptyString) => Some (if negative then - ev else ev)
        | _ => None
        end
      else None
  end.

Definition scale10 (v k : Z) : Q :=
  if 0 <=? k then inject_Z (v * 10 ^ k) else Qred (v # Z.to_pos (10 ^ (- k))).

Definition decimal_constant (s : string) : option Q :=
  let '(negative, s1) := read_sign s in
  let '(whole, nwhole, s2) := read_digits s1 0 0 in
  let '(both, nfrac, s3) :=
    match s2 with
    | String c rest => if Ascii.eqb c "." then read_digits rest whole 0
                       else (whole, O, s2)
    | EmptyString => (whole, O, s2)
    end in
  if (nwhole + nfrac =? 0)%nat then None
  else match read_exponent s3 with
       | None => None
       | Some ex =>
           let v := scale10 both (ex - Z.of_nat nfrac) in
           Some (if negative then Qopp v else v)
       end.

(** Rounding to the nearest number of a binary format of [prec] digits with
    exponents from [emin] to [emax], ties to even, subnormal numbers and
    overflow to infinity included. *)
Definition floor_log2 (n d : Z) : Z :=
  let e := Z.log2 n - Z.log2 d in
  if (if 0 <=? e then n <? d * 2 ^ e else n * 2 ^ (- e) <? d) then e - 1 else e.

Definition round_binary (prec emin emax : Z) (q : Q) : tl_float :=
  if Qnum q =? 0 then Finite 0
  else
    let n := Z.abs (Qnum q) in
    let d := Zpos (Qden q) in
    let k := Z.max (floor_log2 n d) emin - (prec - 1) in
    let m := if 0 <=? k then round_half_even n (d * 2 ^ k)
             else round_half_even (n * 2 ^ (- k)) d in
    if 2 ^ (emax + 1 - k) <=? m then (if Qnum q <? 0 then NegInf else PosInf)
    else
      let v := if 0 <=? k then inject_Z (m * 2 ^ k)
               else Qred (m # Z.to_pos (2 ^ (- k))) in
      Finite (if Qnum q <? 0 then Qopp v else v).

Definition to_double (q : Q) : tl_float := round_binary 53 (-1022) 1023 q.

Definition to_float (x : tl_float) : tl_float :=
  match x with
  | Finite q => round_binary 24 (-126) 127 q
  | _ => x
  end.

(** A C implementation with IEEE [double] and [float]: a constant is the
    [double] nearest to the number written, and the entry of a [float] array
    is that [double] converted to [float]. *)
Definition c_target : CTarget := {|
  double_constant := fun text =>
    match decimal_constant text with
    | Some q => Ok (to_double q)
    | None => Err Unspecified
    end;
  float_constant := fun text =>
    match decimal_constant text with
    | Some q => Ok (to_float (to_double q))
    | None => Err Unspecified
    end
|}.

(* ===================================================================== *)
(** * A concrete renderer and ensemble *)
(* ===================================================================== *)

(** A renderer to run the compiler with: a float is printed as a fraction,
    table entries are separated by commas and a function is its prototype
    around its body. *)
Definition fraction_string (x : tl_float) : string :=
  match x with
  | NaN => "nan"
  | NegInf => "-inf"
  | PosInf => "inf"
  | Finite q => Z_to_string (Qnum q) ++ "/" ++ nat_to_string (Pos.to_nat (Qden q))
  end%string.

Definition plain_renderer : Renderer := {|
  FloatToString := fraction_string;
  stream_float := fraction_string;
  WrapText := fun oss len text _ =>
    ((oss ++ text ++ ", ")%string, (len + String.length text + 2)%nat);
  FunctionBlock_Compile := fun prototype body =>
    [ (prototype ++ " {")%string ] ++ body ++ [ "}"%string ]
|}.

(** The ensemble of the end-to-end scenario of the specification: tree A is
    one split of feature 0 at 0.5 with [<] and [default_left], its left leaf
    1.0 and its right leaf -1.0; tree B is the leaf 0.5. *)
Definition tree_A : Tree :=
  [ Split 0 true kLT (Finite (1 # 2)) 1 2; Leaf (Finite 1); Leaf (Finite (-1)) ].

Definition tree_B : Tree := [ Leaf (Finite (1 # 2)) ].

Definition scenario_model : Model := {| trees := [tree_A; tree_B]; num_features := 1 |}.

(** An ensemble of one tree, the leaf 0.5, and an annotation with two entries
    for it, the first of three counts. *)
Definition leaf_model : Model := {| trees := [tree_B]; num_features := 1 |}.

Definition long_annotation : Annotation := [ [7; 8; 9]%N; [1]%N ].

(** Counts for tree A: the left leaf was reached more often than the right
    one, and as often. *)
Definition counts_left : list N := [5; 4; 1]%N.
Definition counts_tie : list N := [6; 3; 3]%N.

(** An annotation for the scenario: the counts of tree A and of tree B. *)
Definition scenario_annotation : Annotation := [ counts_left; [6]%N ].

(** Three cut points for one feature: 0.5, 1.5 and 2.5. *)
Definition three_cuts : list (list tl_float) :=
  [ [ Finite (1 # 2); Finite (3 # 2); Finite (5 # 2) ] ].

(** A renderer that prints thresholds as the stream does.  What
    [common::FloatToString] prints for a leaf is not in the sources: here it
    prints as the stream does too. *)
Definition stream_renderer : Renderer := {|
  FloatToString := ostream_float;
  stream_float := ostream_float;
  WrapText := WrapText plain_renderer;
  FunctionBlock_Compile := FunctionBlock_Compile plain_renderer
|}.

(** An ensemble of one tree with one split, [feature 0 < 1234567], whose
    threshold has seven significant digits. *)
Definition seven_digit_tree : Tree :=
  [ Split 0 true kLT (Finite 1234567) 1 2; Leaf (Finite 1); Leaf (Finite (-1)) ].

Definition seven_digit_model : Model :=
  {| trees := [seven_digit_tree]; num_features := 1 |}.

(* ===================================================================== *)
(** * Notions the proofs use *)
(* ===================================================================== *)

(** The result every place of [val] shares: [i] is the last index whose cut
    point is not above [val]. *)
Definition code_at (arr : list tl_float) (i : nat) (exact : bool) : Z :=
  if exact then Z.of_nat i * 2
  else if Z.of_nat i + 1 =? Z.of_nat (length arr)
       then Z.of_nat (length arr) * 2
       else Z.of_nat i * 2 + 1.

(** [val] sits at index [i] of [arr]: above every cut point before [i],
    below every one after it, and equal to [arr[i]] ([exact]) or strictly
    above it. *)
Definition sits_at (arr : list tl_float) (val : tl_float) (i : nat)
           (exact : bool) : Prop :=
  (i < length arr)%nat /\
  (forall j x, (j < i)%nat -> nth_error arr j = Some x -> flt x val = true) /\
  (forall j x, (i < j)%nat -> nth_error arr j = Some x -> flt val x = true) /\
  (forall x, nth_error arr i = Some x ->
             if exact then feq val x = true else flt x val = true).

(** No element is a NaN. *)
Definition numbers (s : list tl_float) : Prop := Forall (fun c => c <> NaN) s.

(** The trees under the ids of a queue have [n] nodes in all. *)
Inductive QueueAt (tree : Tree) : list Z -> nat -> Prop :=
| QueueAt_nil : QueueAt tree [] 0
| QueueAt_cons : forall nid Q a n,
    TreeAt tree nid a -> QueueAt tree Q n -> QueueAt tree (nid :: Q) (a + n).

(** One set per feature, each sorted and made of numbers. *)
Definition sets_ok (nfeat : Z) (thresh_ : list float_set) : Prop :=
  length thresh_ = Z.to_nat nfeat /\
  Forall (fun s => strictly_sorted s = true /\ numbers s) thresh_.

(** Some split of [tree] on feature [f] has exactly the threshold [c]. *)
Definition split_on (tree : Tree) (f : nat) (c : tl_float) : Prop :=
  exists nid dl op l r, index tree nid = Ok (Split f dl op c l r).

(** What the preprocessing loop makes of the slot of feature [j]: a missing
    slot stays, a value is replaced by its code. *)
Definition quantized_slot (cp : list (list tl_float)) (j : nat) (e e' : Entry)
  : Prop :=
  (e = missing_entry /\ e' = missing_entry) \/
  (exists v code,
      e = FloatSlot v /\ quantize_with cp v j = Ok code /\ e' = IntSlot code).

(** A record the quantized code can be run on: every slot is missing or
    holds a value that has a place among the cut points of its feature. *)
Definition record_placed (cp : list (list tl_float)) (data : list Entry) : Prop :=
  length data = length cp /\
  forall j e,
    nth_error data j = Some e ->
    e = missing_entry \/
    exists v arr,
      e = FloatSlot v /\ nth_error cp j = Some arr /\
      strictly_sorted arr = true /\ placed arr v.

(** The generated file holds the cut points [cp] without loss: [cp'] is
    what its tables hold, and every entry is equal to the cut point it was
    printed from. *)
Definition held_exactly (R : Renderer) (C : CTarget)
           (cp cp' : list (list tl_float)) : Prop :=
  generated_cut_pts R C cp = Ok cp' /\
  Forall2 (Forall2 (fun c' c => feq c' c = true)) cp' cp.


(** Every set is sorted. *)
Definition sorted_sets (thresh_ : list float_set) : Prop :=
  Forall (fun s => strictly_sorted s = true) thresh_.

(** Some tree of [ts] has a split on [f] with exactly the threshold [c]. *)
Definition split_among (ts : list Tree) (f : nat) (c : tl_float) : Prop :=
  exists tree, In tree ts /\ split_on tree f c.

(* ===================================================================== *)
(** * Running the blocks of a tree *)
(* ===================================================================== *)




(** The conditions of the conditionals of a block, in the order of
    [hints]. *)
Fixpoint conditions (b : CodeBlock) : list SplitCondition :=
  match b with
  | PlainBlock _ => []
  | FunctionBlock _ body => conditions body
  | SequenceBlock sequence => flat_map conditions sequence
  | IfElseBlock condition if_block else_block _ =>
      condition :: conditions if_block ++ conditions else_block
  end.


(* ===================================================================== *)
(** * Properties of the comparisons *)
(* ===================================================================== *)

Lemma fcompare_antisym (a b : tl_float) :
  fcompare b a = option_map CompOpp (fcompare a b).
Proof.
  destruct a, b; simpl; try reflexivity.
  now rewrite <- Qcompare_antisym.
Qed.

Lemma fcompare_eq_l (a b c : tl_float) :
  fcompare a b = Some Eq -> fcompare a c = fcompare b c.
Proof.
  destruct a, b, c; simpl; intros H; try discriminate; try reflexivity.
  injection H as H. apply Qeq_alt in H. now rewrite H.
Qed.

Lemma fcompare_eq_r (a b c : tl_float) :
  fcompare a b = Some Eq -> fcompare c a = fcompare c b.
Proof.
  intros H. rewrite (fcompare_antisym a c), (fcompare_antisym b c).
  now rewrite (fcompare_eq_l a b c H).
Qed.

Lemma fcompare_lt_trans (a b c : tl_float) :
  fcompare a b = Some Lt -> fcompare b c = Some Lt -> fcompare a c = Some Lt.
Proof.
  destruct a, b, c; simpl; intros H1 H2; try discriminate; try reflexivity.
  injection H1 as H1. injection H2 as H2. f_equal.
  apply Qlt_alt in H1. apply Qlt_alt in H2. apply Qlt_alt.
  eapply Qlt_trans; eassumption.
Qed.

Lemma fcompare_none (a b : tl_float) :
  fcompare a b = None <-> a = NaN \/ b = NaN.
Proof.
  destruct a, b; simpl; split; intros H; auto; try discriminate;
    destruct H; discriminate.
Qed.

Lemma flt_spec (a b : tl_float) : flt a b = true <-> fcompare a b = Some Lt.
Proof.
  unfold flt. destruct (fcompare a b) as [[]|]; split; congruence.
Qed.

Lemma feq_spec (a b : tl_float) : feq a b = true <-> fcompare a b = Some Eq.
Proof.
  unfold feq. destruct (fcompare a b) as [[]|]; split; congruence.
Qed.

Lemma flt_gt (a b : tl_float) : flt a b = true <-> fcompare b a = Some Gt.
Proof.
  rewrite flt_spec, (fcompare_antisym a b).
  destruct (fcompare a b) as [[]|]; simpl; split; congruence.
Qed.

Lemma flt_trans (a b c : tl_float) :
  flt a b = true -> flt b c = true -> flt a c = true.
Proof. rewrite !flt_spec. apply fcompare_lt_trans. Qed.

Lemma flt_asym (a b : tl_float) : flt a b = true -> flt b a = false.
Proof.
  intros H. apply flt_gt in H. unfold flt. now rewrite H.
Qed.

Lemma flt_not_feq (a b : tl_float) :
  flt a b = true -> feq a b = false /\ feq b a = false.
Proof.
  intros H. split.
  - apply flt_spec in H. unfold feq. now rewrite H.
  - apply flt_gt in H. unfold feq. now rewrite H.
Qed.

Lemma feq_sym (a b : tl_float) : feq a b = feq b a.
Proof.
  unfold feq. rewrite (fcompare_antisym a b).
  destruct (fcompare a b) as [[]|]; reflexivity.
Qed.

Lemma feq_not_flt (a b : tl_float) :
  feq a b = true -> flt a b = false /\ flt b a = false.
Proof.
  intros H. assert (H' := H). rewrite feq_sym in H'.
  apply feq_spec in H. apply feq_spec in H'. unfold flt. now rewrite H, H'.
Qed.

Lemma feq_flt_l (a b c : tl_float) : feq a b = true -> flt a c = flt b c.
Proof.
  intros H. apply feq_spec in H. unfold flt. now rewrite (fcompare_eq_l a b c H).
Qed.

Lemma feq_flt_r (a b c : tl_float) : feq a b = true -> flt c a = flt c b.
Proof.
  intros H. apply feq_spec in H. unfold flt. now rewrite (fcompare_eq_r a b c H).
Qed.

Lemma feq_trans (a b c : tl_float) :
  feq a b = true -> feq b c = true -> feq a c = true.
Proof.
  intros H1 H2. apply feq_spec in H1. apply feq_spec.
  rewrite (fcompare_eq_l a b c H1). now apply feq_spec.
Qed.

Lemma feq_refl (a : tl_float) : a <> NaN -> feq a a = true.
Proof.
  destruct a; simpl; intros H; try reflexivity; try congruence.
  unfold feq; simpl. now rewrite (proj1 (Qeq_alt q q) (Qeq_refl q)).
Qed.

Lemma flt_not_nan (a b : tl_float) : flt a b = true -> a <> NaN /\ b <> NaN.
Proof.
  intros H. apply flt_spec in H.
  destruct a, b; simpl in H; try discriminate H; split; congruence.
Qed.

Lemma feq_not_nan (a b : tl_float) : feq a b = true -> a <> NaN /\ b <> NaN.
Proof.
  intros H. apply feq_spec in H.
  destruct a, b; simpl in H; try discriminate H; split; congruence.
Qed.

(** Two numbers are ordered or equal. *)
Lemma float_trichotomy (a b : tl_float) :
  a <> NaN -> b <> NaN ->
  flt a b = true \/ feq a b = true \/ flt b a = true.
Proof.
  intros Ha Hb.
  destruct (fcompare a b) as [[]|] eqn:E.
  - right; left. now apply feq_spec.
  - left. now apply flt_spec.
  - right; right. now apply flt_gt.
  - apply fcompare_none in E. tauto.
Qed.

(** In a sorted list an earlier element is below a later one. *)
Lemma strictly_sorted_tail (a : tl_float) (l : list tl_float) :
  strictly_sorted (a :: l) = true -> strictly_sorted l = true.
Proof.
  simpl. destruct l as [|b l']; [reflexivity|].
  intros H. now apply andb_true_iff in H.
Qed.

Lemma strictly_sorted_head (l : list tl_float) :
  forall a k b,
    strictly_sorted (a :: l) = true -> nth_error l k = Some b -> flt a b = true.
Proof.
  induction l as [|b0 l' IH]; intros a k b Hs Hk.
  - destruct k; discriminate.
  - assert (Hab : flt a b0 = true).
    { simpl in Hs. apply andb_true_iff in Hs. tauto. }
    destruct k as [|k'].
    + simpl in Hk. now injection Hk as <-.
    + simpl in Hk. apply strictly_sorted_tail in Hs.
      eapply flt_trans; [exact Hab|]. eapply IH; eassumption.
Qed.

Lemma strictly_sorted_nth (l : list tl_float) :
  strictly_sorted l = true ->
  forall j k a b,
    (j < k)%nat -> nth_error l j = Some a -> nth_error l k = Some b ->
    flt a b = true.
Proof.
  induction l as [|a0 l' IH]; intros Hs j k a b Hjk Hj Hk.
  - destruct j; discriminate.
  - destruct k as [|k']; [lia|]. simpl in Hk.
    destruct j as [|j'].
    + simpl in Hj. injection Hj as <-. eapply strictly_sorted_head; eassumption.
    + simpl in Hj. apply strictly_sorted_tail in Hs.
      apply (IH Hs j' k' a b); [lia|assumption|assumption].
Qed.

(* ===================================================================== *)
(** * Arithmetic of [int] and indexing *)
(* ===================================================================== *)

Lemma wrap_int_small (z : Z) : - 2 ^ 31 <= z <= INT_MAX -> wrap_int z = z.
Proof.
  unfold wrap_int, INT_MAX. intros H. rewrite Z.mod_small; lia.
Qed.

Lemma wrap_size_small (z : Z) : 0 <= z < 2 ^ 64 -> wrap_size z = z.
Proof. unfold wrap_size. intros H. now apply Z.mod_small. Qed.

Lemma index_of_nat {A : Type} (l : list A) (n : nat) :
  index l (Z.of_nat n) =
  match nth_error l n with Some a => Ok a | None => Err OutOfRange end.
Proof.
  unfold index. destruct (Z.of_nat n <? 0) eqn:E.
  - apply Z.ltb_lt in E. lia.
  - now rewrite Nat2Z.id.
Qed.

Lemma index_Ok {A : Type} (l : list A) (i : Z) (a : A) :
  index l i = Ok a <-> 0 <= i /\ nth_error l (Z.to_nat i) = Some a.
Proof.
  unfold index. destruct (i <? 0) eqn:E.
  - apply Z.ltb_lt in E. split; [discriminate|lia].
  - apply Z.ltb_ge in E. destruct (nth_error l (Z.to_nat i)).
    + split; [intros [= ->]; auto | intros [_ [= ->]]; auto].
    + split; [discriminate | intros [_ H]; discriminate].
Qed.

Lemma nth_error_concat (cp : list (list tl_float)) :
  forall fid arr i x,
    nth_error cp fid = Some arr -> nth_error arr i = Some x ->
    nth_error (concat cp) (length (concat (firstn fid cp)) + i) = Some x.
Proof.
  induction cp as [|e rest IH]; intros fid arr i x Hf Hi.
  - destruct fid; discriminate.
  - destruct fid as [|fid'].
    + simpl in Hf. injection Hf as ->. simpl.
      rewrite nth_error_app1; [assumption|].
      apply nth_error_Some. congruence.
    + simpl in Hf. simpl. rewrite length_app, <- Nat.add_assoc.
      rewrite nth_error_app2 by lia.
      replace (length e + (length (concat (firstn fid' rest)) + i) - length e)%nat
        with (length (concat (firstn fid' rest)) + i)%nat by lia.
      eapply IH; eassumption.
Qed.

Lemma accum_from_nth (cp : list (list tl_float)) :
  forall accum fid arr,
    nth_error cp fid = Some arr ->
    nth_error (accum_from accum cp) fid
    = Some (accum + length (concat (firstn fid cp)))%nat.
Proof.
  induction cp as [|e rest IH]; intros accum fid arr Hf.
  - destruct fid; discriminate.
  - destruct fid as [|fid']; simpl.
    + f_equal. lia.
    + simpl in Hf. rewrite (IH _ _ _ Hf), length_app. f_equal. lia.
Qed.

Lemma segment_in_table (cp : list (list tl_float)) (fid : nat) (arr : list tl_float) :
  nth_error cp fid = Some arr ->
  (length (concat (firstn fid cp)) + length arr <= length (concat cp))%nat.
Proof.
  revert fid arr. induction cp as [|e rest IH]; intros fid arr Hf.
  - destruct fid; discriminate.
  - destruct fid as [|fid']; simpl in *.
    + injection Hf as ->. rewrite length_app. lia.
    + rewrite !length_app. specialize (IH _ _ Hf). lia.
Qed.

(** The three tables give back the segment of feature [fid]. *)
Lemma tables_of_feature (cp : list (list tl_float)) (fid : nat) (arr : list tl_float) :
  nth_error cp fid = Some arr ->
  Z.of_nat (length (threshold_table cp)) <= INT_MAX ->
  exists base,
    index (th_begin_table cp) (Z.of_nat fid) = Ok base /\
    index (th_len_table cp) (Z.of_nat fid) = Ok (Z.of_nat (length arr)) /\
    forall j x, nth_error arr j = Some x ->
                index (threshold_table cp) (base + Z.of_nat j) = Ok x.
Proof.
  intros Hf Hsize. pose proof (segment_in_table cp fid arr Hf) as Hseg.
  unfold threshold_table in *.
  exists (Z.of_nat (length (concat (firstn fid cp)))). repeat split.
  - rewrite index_of_nat. unfold th_begin_table.
    rewrite nth_error_map, (accum_from_nth cp 0 fid arr Hf). simpl.
    f_equal. apply wrap_int_small. unfold INT_MAX in *. lia.
  - rewrite index_of_nat. unfold th_len_table. rewrite nth_error_map, Hf. simpl.
    f_equal. apply wrap_int_small. unfold INT_MAX in *. lia.
  - intros j x Hj. rewrite <- Nat2Z.inj_add, index_of_nat.
    now rewrite (nth_error_concat cp fid arr j x Hf Hj).
Qed.

(* ===================================================================== *)
(** * The binary search of [quantize] *)
(* ===================================================================== *)

Lemma quantize_while_eq (fuel : nat) (array : Z -> result tl_float)
      (val : tl_float) (len low high : Z) :
  quantize_while fuel array val len low high =
  if int_add low 1 <? high then
    match fuel with
    | O => Err OutOfFuel
    | S fuel' =>
        let mid := int_div (int_add low high) 2 in
        mval <- array mid ;;
        if feq val mval then Ok (int_mul mid 2)
        else if flt val mval then quantize_while fuel' array val len low mid
        else quantize_while fuel' array val len mid high
    end
  else
    alow <- array low ;;
    if feq alow val then Ok (int_mul low 2)
    else if high =? len then Ok (int_mul len 2)
    else Ok (int_add (int_mul low 2) 1).
Proof. destruct fuel; reflexivity. Qed.

Section QuantizeSearch.

(** [val] sits at index [i] of [arr]: above everything before [i], below
    everything after it, and either equal to [arr[i]] ([exact]) or strictly
    above it. *)
Variable array : Z -> result tl_float.
Variable arr : list tl_float.
Variable val : tl_float.
Variable i : nat.
Variable exact : bool.

Hypothesis array_reads :
  forall j x, nth_error arr j = Some x -> array (Z.of_nat j) = Ok x.
Hypothesis codes_fit : Z.of_nat (length arr) * 2 <= INT_MAX.
Hypothesis i_in : (i < length arr)%nat.
Hypothesis before_i :
  forall j x, (j < i)%nat -> nth_error arr j = Some x -> flt x val = true.
Hypothesis after_i :
  forall j x, (i < j)%nat -> nth_error arr j = Some x -> flt val x = true.
Hypothesis at_i :
  forall x, nth_error arr i = Some x ->
            if exact then feq val x = true else flt x val = true.

Lemma quantize_exit :
  (alow <- array (Z.of_nat i) ;;
   if feq alow val then Ok (int_mul (Z.of_nat i) 2)
   else if Z.of_nat i + 1 =? Z.of_nat (length arr)
        then Ok (int_mul (Z.of_nat (length arr)) 2)
        else Ok (int_add (int_mul (Z.of_nat i) 2) 1))
  = Ok (if exact then Z.of_nat i * 2
        else if Z.of_nat i + 1 =? Z.of_nat (length arr)
             then Z.of_nat (length arr) * 2
             else Z.of_nat i * 2 + 1).
Proof.
  assert (Hfit := codes_fit). unfold INT_MAX in Hfit.
  assert (exists x, nth_error arr i = Some x) as [x Hx].
  { destruct (nth_error arr i) as [x|] eqn:Hx; [now exists x|].
    apply nth_error_None in Hx. lia. }
  rewrite (array_reads i x Hx). simpl.
  pose proof (at_i x Hx) as Hat.
  destruct exact.
  - rewrite feq_sym, Hat. f_equal. unfold int_mul.
    apply wrap_int_small. unfold INT_MAX. lia.
  - destruct (flt_not_feq _ _ Hat) as [-> _].
    destruct (Z.of_nat i + 1 =? Z.of_nat (length arr)); f_equal;
      unfold int_mul, int_add; rewrite ?wrap_int_small;
      try reflexivity; unfold INT_MAX; try lia.
    rewrite wrap_int_small; unfold INT_MAX; lia.
Qed.

Lemma quantize_while_finds :
  forall fuel low high,
    0 <= low <= Z.of_nat i ->
    Z.of_nat i < high <= Z.of_nat (length arr) ->
    high - low <= Z.of_nat fuel ->
    quantize_while fuel array val (Z.of_nat (length arr)) low high
    = Ok (if exact then Z.of_nat i * 2
          else if Z.of_nat i + 1 =? Z.of_nat (length arr)
               then Z.of_nat (length arr) * 2
               else Z.of_nat i * 2 + 1).
Proof.
  assert (Hfit := codes_fit). unfold INT_MAX in Hfit.
  induction fuel as [|fuel IH]; intros low high Hlow Hhigh Hfuel;
    rewrite quantize_while_eq; unfold int_add at 1;
    (rewrite (wrap_int_small (low + 1)) by (unfold INT_MAX; lia));
    destruct (low + 1 <? high) eqn:E.
  - apply Z.ltb_lt in E. lia.
  - apply Z.ltb_ge in E.
    assert (low = Z.of_nat i) by lia. assert (high = Z.of_nat i + 1) by lia.
    subst low high. apply quantize_exit.
  - apply Z.ltb_lt in E. cbv zeta.
    unfold int_div, int_add.
    rewrite (wrap_int_small (low + high)) by (unfold INT_MAX; lia).
    rewrite Z.quot_div_nonneg by lia.
    pose proof (Z.mul_div_le (low + high) 2 ltac:(lia)) as Hm1.
    pose proof (Z.mul_succ_div_gt (low + high) 2 ltac:(lia)) as Hm2.
    set (m := (low + high) / 2) in *.
    rewrite (wrap_int_small m) by (unfold INT_MAX; lia).
    assert (Hm : low < m < high) by lia.
    assert (exists x, nth_error arr (Z.to_nat m) = Some x) as [x Hx].
    { destruct (nth_error arr (Z.to_nat m)) as [x|] eqn:Hx; [now exists x|].
      apply nth_error_None in Hx. lia. }
    pose proof (array_reads _ _ Hx) as Hread.
    rewrite Z2Nat.id in Hread by lia. rewrite Hread. simpl.
    destruct (lt_eq_lt_dec (Z.to_nat m) i) as [[Hlt|Heq]|Hgt].
    + pose proof (before_i _ _ Hlt Hx) as Hb.
      destruct (flt_not_feq _ _ Hb) as [_ ->]. rewrite (flt_asym _ _ Hb).
      apply IH; lia.
    + rewrite Heq in Hx. pose proof (at_i x Hx) as Hat.
      destruct exact.
      * rewrite Hat. f_equal. unfold int_mul.
        rewrite wrap_int_small; unfold INT_MAX; lia.
      * destruct (flt_not_feq _ _ Hat) as [_ ->]. rewrite (flt_asym _ _ Hat).
        apply IH; lia.
    + pose proof (after_i _ _ Hgt Hx) as Ha.
      destruct (flt_not_feq _ _ Ha) as [-> _]. rewrite Ha.
      apply IH; lia.
  - apply Z.ltb_ge in E.
    assert (low = Z.of_nat i) by lia. assert (high = Z.of_nat i + 1) by lia.
    subst low high. apply quantize_exit.
Qed.

End QuantizeSearch.

Lemma nth_error_in_range {A : Type} (l : list A) (i : nat) :
  (i < length l)%nat -> exists x, nth_error l i = Some x.
Proof.
  intros H. destruct (nth_error l i) as [x|] eqn:E; [now exists x|].
  apply nth_error_None in E. lia.
Qed.

Lemma quantize_with_sits (cp : list (list tl_float)) (fid : nat)
      (arr : list tl_float) (val : tl_float) (i : nat) (exact : bool) :
  nth_error cp fid = Some arr ->
  Z.of_nat (length (threshold_table cp)) * 2 <= INT_MAX ->
  sits_at arr val i exact ->
  quantize_with cp val fid = Ok (code_at arr i exact).
Proof.
  intros Hf Hsize (Hi & Hbefore & Hafter & Hat).
  assert (Hfit : Z.of_nat (length arr) * 2 <= INT_MAX).
  { pose proof (segment_in_table cp fid arr Hf). unfold threshold_table in Hsize. lia. }
  destruct (tables_of_feature cp fid arr Hf) as (base & Hb & Hl & Hread).
  { unfold INT_MAX in *. lia. }
  unfold quantize_with, quantize. rewrite Hb, Hl. simpl.
  destruct (nth_error_in_range arr 0 ltac:(lia)) as [a0 Ha0].
  pose proof (Hread 0%nat a0 Ha0) as H0. simpl in H0. rewrite H0. simpl.
  assert (Hnot : flt val a0 = false).
  { destruct i as [|i'].
    - specialize (Hat a0 Ha0). destruct exact.
      + rewrite feq_sym in Hat. now destruct (feq_not_flt _ _ Hat).
      + now apply flt_asym.
    - apply flt_asym. apply (Hbefore 0%nat a0); [lia|assumption]. }
  rewrite Hnot. rewrite Nat2Z.id.
  apply (quantize_while_finds (fun i0 => index (threshold_table cp) (base + i0))
                              arr val i exact); try assumption; lia.
Qed.

Lemma quantize_with_below (cp : list (list tl_float)) (fid : nat)
      (arr : list tl_float) (val : tl_float) :
  nth_error cp fid = Some arr ->
  Z.of_nat (length (threshold_table cp)) * 2 <= INT_MAX ->
  below arr val ->
  quantize_with cp val fid = Ok (-10).
Proof.
  intros Hf Hsize (a0 & Ha0 & Hlt).
  destruct (tables_of_feature cp fid arr Hf) as (base & Hb & Hl & Hread).
  { unfold INT_MAX in *. lia. }
  unfold quantize_with, quantize. rewrite Hb, Hl. simpl.
  pose proof (Hread 0%nat a0 Ha0) as H0. simpl in H0. rewrite H0. simpl.
  now rewrite Hlt.
Qed.

Lemma on_point_sits (arr : list tl_float) (val : tl_float) (i : nat) :
  strictly_sorted arr = true -> on_point arr val i -> sits_at arr val i true.
Proof.
  intros Hs (ai & Hi & Heq). repeat split.
  - apply nth_error_Some. congruence.
  - intros j x Hj Hx. rewrite (feq_flt_r val ai x Heq).
    eapply strictly_sorted_nth; eassumption.
  - intros j x Hj Hx. rewrite (feq_flt_l val ai x Heq).
    eapply strictly_sorted_nth; eassumption.
  - intros x Hx. congruence.
Qed.

Lemma between_sits (arr : list tl_float) (val : tl_float) (i : nat) :
  strictly_sorted arr = true -> between arr val i -> sits_at arr val i false.
Proof.
  intros Hs (ai & aj & Hi & Hj & Hlo & Hhi). repeat split.
  - apply nth_error_Some. congruence.
  - intros j x Hlt Hx. eapply flt_trans; [|exact Hlo].
    eapply strictly_sorted_nth; eassumption.
  - intros j x Hlt Hx. destruct (Nat.eq_dec j (S i)) as [->|Hne].
    + congruence.
    + eapply flt_trans; [exact Hhi|].
      apply (strictly_sorted_nth arr Hs (S i) j); [lia|assumption|assumption].
  - intros x Hx. congruence.
Qed.

Lemma above_sits (arr : list tl_float) (val : tl_float) :
  strictly_sorted arr = true -> above arr val ->
  sits_at arr val (length arr - 1) false.
Proof.
  intros Hs (al & Hl & Hlt).
  assert (Hlen : (length arr - 1 < length arr)%nat).
  { apply nth_error_Some. congruence. }
  repeat split.
  - exact Hlen.
  - intros j x Hj Hx. eapply flt_trans; [|exact Hlt].
    eapply strictly_sorted_nth; eassumption.
  - intros j x Hj Hx. assert (nth_error arr j = None) by (apply nth_error_None; lia).
    congruence.
  - intros x Hx. congruence.
Qed.

(** The order of [val] and a cut point is the order of their codes. *)
Lemma sits_compare (arr : list tl_float) (val : tl_float) (i : nat) (exact : bool)
      (p : nat) (t : tl_float) :
  sits_at arr val i exact -> nth_error arr p = Some t ->
  fcompare val t = Some (code_at arr i exact ?= Z.of_nat p * 2).
Proof.
  intros (Hi & Hbefore & Hafter & Hat) Hp.
  assert (Hplen : (p < length arr)%nat) by (apply nth_error_Some; congruence).
  unfold code_at.
  destruct (lt_eq_lt_dec p i) as [[Hlt|Heq]|Hgt].
  - pose proof (Hbefore p t Hlt Hp) as H. apply flt_gt in H. rewrite H. f_equal.
    symmetry. apply Z.compare_gt_iff.
    destruct exact; [|destruct (Z.of_nat i + 1 =? Z.of_nat (length arr))]; lia.
  - subst p. specialize (Hat t Hp). destruct exact.
    + apply feq_spec in Hat. rewrite Hat. f_equal. symmetry.
      apply Z.compare_eq_iff. reflexivity.
    + apply flt_gt in Hat. rewrite Hat. f_equal. symmetry.
      apply Z.compare_gt_iff.
      destruct (Z.of_nat i + 1 =? Z.of_nat (length arr)); lia.
  - pose proof (Hafter p t Hgt Hp) as H. apply flt_spec in H. rewrite H. f_equal.
    symmetry. apply Z.compare_lt_iff.
    destruct exact; [lia|].
    destruct (Z.of_nat i + 1 =? Z.of_nat (length arr)) eqn:E; [|lia].
    apply Z.eqb_eq in E. lia.
Qed.

Lemma below_compare (arr : list tl_float) (val : tl_float) (p : nat) (t : tl_float) :
  strictly_sorted arr = true -> below arr val -> nth_error arr p = Some t ->
  fcompare val t = Some (-10 ?= Z.of_nat p * 2).
Proof.
  intros Hs (a0 & Ha0 & Hlt) Hp.
  assert (H : flt val t = true).
  { destruct p as [|p'].
    - congruence.
    - eapply flt_trans; [exact Hlt|].
      apply (strictly_sorted_nth arr Hs 0 (S p')); [lia|assumption|assumption]. }
  apply flt_spec in H. rewrite H. f_equal. symmetry. apply Z.compare_lt_iff. lia.
Qed.

(** Comparisons that agree on the order agree under every operator. *)
Lemma cmp_agree (op : Operator) (a b : tl_float) (x y : Z) :
  fcompare a b = Some (x ?= y) -> int_cmp op x y = float_cmp op a b.
Proof.
  intros H. destruct op; simpl;
    unfold feq, flt, fle, fgt, fge, Z.ltb, Z.leb, Z.gtb, Z.geb; rewrite H;
    try (destruct (x ?= y); reflexivity).
  destruct (Z.eqb_spec x y) as [->|Hne].
  - now rewrite Z.compare_refl.
  - destruct (x ?= y) eqn:E; try reflexivity.
    apply Z.compare_eq_iff in E. contradiction.
Qed.

Lemma quantized_literal_small (arr : list tl_float) (p : nat) :
  (p < length arr)%nat -> Z.of_nat (length arr) * 2 <= INT_MAX ->
  quantized_literal p = Z.of_nat p * 2.
Proof.
  intros Hp Hfit. unfold quantized_literal. apply wrap_size_small.
  unfold INT_MAX in Hfit. lia.
Qed.

(** A value with a place gets a code, which is not the missing marker and
    stands to [p * 2] as the value stands to the cut point of index [p]. *)
Lemma quantize_placed (cp : list (list tl_float)) (fid : nat)
      (arr : list tl_float) (v : tl_float) :
  nth_error cp fid = Some arr ->
  strictly_sorted arr = true ->
  Z.of_nat (length (threshold_table cp)) * 2 <= INT_MAX ->
  placed arr v ->
  exists code,
    quantize_with cp v fid = Ok code /\
    code <> -1 /\
    forall p t, nth_error arr p = Some t ->
                fcompare v t = Some (code ?= Z.of_nat p * 2).
Proof.
  intros Hf Hs Hsize Hplaced.
  assert (Hcode : forall i exact, code_at arr i exact <> -1).
  { intros i exact. unfold code_at.
    destruct exact; [|destruct (Z.of_nat i + 1 =? Z.of_nat (length arr))]; lia. }
  destruct Hplaced as [Hb | [[i Ho] | [[i Hbt] | Ha]]].
  - exists (-10). split; [eapply quantize_with_below; eassumption|].
    split; [lia|]. intros p t Hp. eapply below_compare; eassumption.
  - pose proof (on_point_sits _ _ _ Hs Ho) as Hsit.
    exists (code_at arr i true). split; [eapply quantize_with_sits; eassumption|].
    split; [apply Hcode|]. intros p t Hp. eapply sits_compare; eassumption.
  - pose proof (between_sits _ _ _ Hs Hbt) as Hsit.
    exists (code_at arr i false). split; [eapply quantize_with_sits; eassumption|].
    split; [apply Hcode|]. intros p t Hp. eapply sits_compare; eassumption.
  - pose proof (above_sits _ _ Hs Ha) as Hsit.
    exists (code_at arr (length arr - 1) false).
    split; [eapply quantize_with_sits; eassumption|].
    split; [apply Hcode|]. intros p t Hp. eapply sits_compare; eassumption.
Qed.

(** C2: on a sorted, duplicate-free segment the generated [quantize] returns
    -10 for a value strictly below the first cut point, [i*2] for a value
    equal to the cut point of index [i], [len*2] for a value strictly above
    the last one and [i*2+1] for a value strictly between the cut points of
    indices [i] and [i+1]; [quantize] is the search with [low = 0],
    [high = len], the guard [low + 1 < high] and [mid = (low + high) / 2]. *)
Theorem quantize_returns_code (cp : list (list tl_float)) (fid : nat)
        (arr : list tl_float) (v : tl_float) :
  nth_error cp fid = Some arr ->
  strictly_sorted arr = true ->
  Z.of_nat (length (threshold_table cp)) * 2 <= INT_MAX ->
  (below arr v -> quantize_with cp v fid = Ok (-10)) /\
  (forall i, on_point arr v i -> quantize_with cp v fid = Ok (Z.of_nat i * 2)) /\
  (above arr v -> quantize_with cp v fid = Ok (Z.of_nat (length arr) * 2)) /\
  (forall i, between arr v i -> quantize_with cp v fid = Ok (Z.of_nat i * 2 + 1)).
Proof.
  intros Hf Hs Hsize. repeat split.
  - intros H. eapply quantize_with_below; eassumption.
  - intros i H.
    apply (quantize_with_sits cp fid arr v i true Hf Hsize (on_point_sits _ _ _ Hs H)).
  - intros H.
    pose proof (above_sits _ _ Hs H) as Hsit.
    rewrite (quantize_with_sits cp fid arr v _ false Hf Hsize Hsit).
    unfold code_at. destruct Hsit as (Hlt & _).
    replace (Z.of_nat (length arr - 1) + 1 =? Z.of_nat (length arr)) with true;
      [reflexivity|].
    symmetry. apply Z.eqb_eq. lia.
  - intros i H.
    rewrite (quantize_with_sits cp fid arr v i false Hf Hsize (between_sits _ _ _ Hs H)).
    unfold code_at. destruct H as (ai & aj & _ & Hj & _).
    assert (S i < length arr)%nat by (apply nth_error_Some; congruence).
    replace (Z.of_nat i + 1 =? Z.of_nat (length arr)) with false; [reflexivity|].
    symmetry. apply Z.eqb_neq. lia.
Qed.


(* ===================================================================== *)
(** * The sets of thresholds *)
(* ===================================================================== *)

Lemma set_insert_keeps (x : tl_float) (s : float_set) (c : tl_float) :
  In c s -> In c (set_insert x s).
Proof.
  induction s as [|y s' IH]; intros H; [contradiction|].
  simpl. destruct (flt x y); [now right|].
  destruct (flt y x); [|assumption].
  destruct H as [->|H]; [now left | right; auto].
Qed.

Lemma set_insert_from (x : tl_float) (s : float_set) (c : tl_float) :
  In c (set_insert x s) -> c = x \/ In c s.
Proof.
  induction s as [|y s' IH]; simpl; intros H.
  - destruct H as [<-|[]]. now left.
  - destruct (flt x y).
    + destruct H as [<-|H]; [now left | now right].
    + destruct (flt y x); [|now right].
      destruct H as [<-|H]; [right; now left|].
      destruct (IH H) as [->|H']; [now left | right; now right].
Qed.

Lemma set_insert_has (x : tl_float) (s : float_set) :
  x <> NaN -> numbers s ->
  exists c, In c (set_insert x s) /\ feq c x = true.
Proof.
  intros Hx. induction s as [|y s' IH]; intros Hs.
  - exists x. split; [now left | now apply feq_refl].
  - inversion Hs as [|y' s'' Hy Hs']; subst. simpl.
    destruct (flt x y) eqn:Exy.
    + exists x. split; [now left | now apply feq_refl].
    + destruct (flt y x) eqn:Eyx.
      * destruct (IH Hs') as (c & Hc & Heq). exists c. split; [now right | assumption].
      * exists y. split; [now left|].
        destruct (float_trichotomy y x Hy Hx) as [H|[H|H]]; congruence.
Qed.

Lemma set_insert_numbers (x : tl_float) (s : float_set) :
  x <> NaN -> numbers s -> numbers (set_insert x s).
Proof.
  intros Hx Hs. apply Forall_forall. intros c Hc.
  destruct (set_insert_from x s c Hc) as [->|H]; [assumption|].
  unfold numbers in Hs. rewrite Forall_forall in Hs. auto.
Qed.

Lemma strictly_sorted_cons (y : tl_float) (s : list tl_float) :
  strictly_sorted s = true ->
  (forall z, nth_error s 0 = Some z -> flt y z = true) ->
  strictly_sorted (y :: s) = true.
Proof.
  intros Hs Hhead. destruct s as [|z s']; [reflexivity|].
  simpl in *. rewrite (Hhead z eq_refl). exact Hs.
Qed.

Lemma set_insert_sorted (x : tl_float) (s : float_set) :
  strictly_sorted s = true -> strictly_sorted (set_insert x s) = true.
Proof.
  induction s as [|y s' IH]; intros Hs; [reflexivity|].
  simpl. destruct (flt x y) eqn:Exy.
  - apply strictly_sorted_cons; [assumption|].
    intros z [= <-]. assumption.
  - destruct (flt y x) eqn:Eyx; [|assumption].
    pose proof (strictly_sorted_tail _ _ Hs) as Hs'.
    apply strictly_sorted_cons; [now apply IH|].
    intros z Hz. destruct s' as [|w s'']; simpl in Hz.
    + now injection Hz as <-.
    + assert (Hyw : flt y w = true).
      { simpl in Hs. apply andb_true_iff in Hs. tauto. }
      destruct (flt x w); [now injection Hz as <-|].
      destruct (flt w x); now injection Hz as <-.
Qed.

(** No two elements of a sorted list are equal. *)
Lemma strictly_sorted_distinct (l : list tl_float) :
  strictly_sorted l = true ->
  forall j k a b,
    nth_error l j = Some a -> nth_error l k = Some b -> feq a b = true -> j = k.
Proof.
  intros Hs j k a b Hj Hk Heq.
  destruct (lt_eq_lt_dec j k) as [[Hlt|Heq']|Hgt]; [|assumption|].
  - pose proof (strictly_sorted_nth l Hs j k a b Hlt Hj Hk) as H.
    destruct (flt_not_feq _ _ H). congruence.
  - pose proof (strictly_sorted_nth l Hs k j b a Hgt Hk Hj) as H.
    destruct (flt_not_feq _ _ H). congruence.
Qed.

Lemma insert_at_spec (x : tl_float) (thresh_ : list float_set) :
  forall i s,
    nth_error thresh_ i = Some s ->
    exists thresh_',
      insert_at i x thresh_ = Ok thresh_' /\
      length thresh_' = length thresh_ /\
      nth_error thresh_' i = Some (set_insert x s) /\
      forall j, j <> i -> nth_error thresh_' j = nth_error thresh_ j.
Proof.
  induction thresh_ as [|s0 rest IH]; intros i s Hi.
  - destruct i; discriminate.
  - destruct i as [|i']; simpl in Hi.
    + injection Hi as ->. exists (set_insert x s :: rest). simpl.
      repeat split. intros [|j] Hj; [congruence | reflexivity].
    + destruct (IH i' s Hi) as (rest' & Hins & Hlen & Hnth & Hother).
      exists (s0 :: rest'). simpl. rewrite Hins. simpl.
      repeat split; [congruence | assumption |].
      intros [|j] Hj; [reflexivity | apply Hother; congruence].
Qed.

(* ===================================================================== *)
(** * The walk of [ExtractCutPoints] over one tree *)
(* ===================================================================== *)

Lemma TreeAt_pos (tree : Tree) (nid : Z) (a : nat) : TreeAt tree nid a -> (1 <= a)%nat.
Proof. intros H. destruct H; lia. Qed.

Lemma QueueAt_app (tree : Tree) (Q1 Q2 : list Z) (n m : nat) :
  QueueAt tree Q1 n -> QueueAt tree Q2 m -> QueueAt tree (Q1 ++ Q2) (n + m).
Proof.
  intros H1 H2. induction H1 as [|nid Q a n Ht Hq IH]; simpl; [assumption|].
  rewrite <- Nat.add_assoc. now constructor.
Qed.

Lemma Under_inv (tree : Tree) (from x : Z) :
  Under tree from x ->
  x = from \/
  exists i dl op t l r,
    index tree from = Ok (Split i dl op t l r) /\
    (Under tree l x \/ Under tree r x).
Proof.
  intros H. induction H as [|nid i dl op t l r Hu IH Hn|nid i dl op t l r Hu IH Hn].
  - now left.
  - right. destruct IH as [->|(i' & dl' & op' & t' & l' & r' & Hfrom & [Hl|Hr])].
    + exists i, dl, op, t, l, r. split; [assumption|]. left. constructor.
    + exists i', dl', op', t', l', r'. split; [assumption|]. left.
      eapply Under_left; eassumption.
    + exists i', dl', op', t', l', r'. split; [assumption|]. right.
      eapply Under_left; eassumption.
  - right. destruct IH as [->|(i' & dl' & op' & t' & l' & r' & Hfrom & [Hl|Hr])].
    + exists i, dl, op, t, l, r. split; [assumption|]. right. constructor.
    + exists i', dl', op', t', l', r'. split; [assumption|]. left.
      eapply Under_right; eassumption.
    + exists i', dl', op', t', l', r'. split; [assumption|]. right.
      eapply Under_right; eassumption.
Qed.

Lemma index_In {A : Type} (l : list A) (i : Z) (a : A) : index l i = Ok a -> In a l.
Proof.
  intros H. apply index_Ok in H. destruct H as [_ H]. eapply nth_error_In; eassumption.
Qed.

Lemma nth_as_nth_error {A : Type} (l : list A) (n : nat) (d : A) :
  nth n l d = match nth_error l n with Some x => x | None => d end.
Proof.
  revert n. induction l as [|a l IH]; intros [|n]; simpl; auto.
Qed.

Lemma sets_ok_insert (nfeat : Z) (thresh_ thresh_' : list float_set)
      (i : nat) (x : tl_float) (s : float_set) :
  sets_ok nfeat thresh_ -> x <> NaN ->
  nth_error thresh_ i = Some s ->
  length thresh_' = length thresh_ ->
  nth_error thresh_' i = Some (set_insert x s) ->
  (forall j, j <> i -> nth_error thresh_' j = nth_error thresh_ j) ->
  sets_ok nfeat thresh_'.
Proof.
  intros [Hlen Hall] Hx Hs Hlen' Hi Hother. split; [congruence|].
  rewrite Forall_forall in Hall. apply Forall_forall. intros s' Hin.
  apply In_nth_error in Hin. destruct Hin as [j Hj].
  destruct (Nat.eq_dec j i) as [Heq|Hne].
  - subst j. rewrite Hi in Hj. injection Hj as <-.
    destruct (Hall s (nth_error_In _ _ Hs)) as [Hsorted Hnum].
    split; [now apply set_insert_sorted | now apply set_insert_numbers].
  - rewrite (Hother j Hne) in Hj. apply Hall. eapply nth_error_In; eassumption.
Qed.

Section ScanQueue.

Variable tree : Tree.
Variable nfeat : Z.
Hypothesis nodes_ok : Forall (node_ok nfeat) tree.

Lemma scan_queue_spec :
  forall fuel Q thresh_ n,
    QueueAt tree Q n -> (n <= fuel)%nat -> sets_ok nfeat thresh_ ->
    exists thresh_',
      scan_queue fuel tree Q thresh_ = Ok thresh_' /\
      sets_ok nfeat thresh_' /\
      (forall f c, In c (nth f thresh_ []) -> In c (nth f thresh_' [])) /\
      (forall f c, In c (nth f thresh_' []) ->
                   In c (nth f thresh_ []) \/ split_on tree f c) /\
      (forall q nid f dl op t l r,
          In q Q -> Under tree q nid ->
          index tree nid = Ok (Split f dl op t l r) ->
          exists c, In c (nth f thresh_' []) /\ feq c t = true).
Proof.
  induction fuel as [|fuel IH]; intros Q thresh_ n HQ Hfuel Hok.
  - inversion HQ as [|nid Q' a n' Ht HQ']; subst.
    + exists thresh_. simpl.
      split; [reflexivity|]. split; [assumption|]. split; [auto|]. split; [auto|].
      intros q nid f dl op t l r [].
    + apply TreeAt_pos in Ht. lia.
  - inversion HQ as [|nid Q' a n' Ht HQ']; subst.
    + exists thresh_. simpl.
      split; [reflexivity|]. split; [assumption|]. split; [auto|]. split; [auto|].
      intros q nid f dl op t l r [].
    + inversion Ht as [nid0 v Hnode | nid0 i dl op t l r a1 a2 Hnode Hl Hr]; subst.
      * (* a leaf comes off the queue *)
        destruct (IH Q' thresh_ n' HQ' ltac:(lia) Hok)
          as (th' & Hrun & Hok' & Hmono & Hsound & Hcompl).
        exists th'. simpl. rewrite Hnode. simpl.
        (split; [|split; [|split; [|split]]]); try assumption; try reflexivity.
        intros q x f dl op t l r [<-|Hq] Hu Hx.
        -- apply Under_inv in Hu.
           destruct Hu as [->|(i' & dl' & op' & t' & l' & r' & Hfrom & _)]; congruence.
        -- eapply Hcompl; eassumption.
      * (* a split comes off the queue *)
        pose proof (proj1 (Forall_forall _ _) nodes_ok _ (index_In _ _ _ Hnode))
          as [Hi Ht'].
        destruct Hok as [Hlen Hall].
        destruct (nth_error_in_range thresh_ i ltac:(lia)) as [s Hs].
        destruct (insert_at_spec t thresh_ i s Hs)
          as (th1 & Hins & Hlen1 & Hnth1 & Hother1).
        assert (Hok1 : sets_ok nfeat th1).
        { apply (sets_ok_insert nfeat thresh_ th1 i t s); try assumption.
          split; assumption. }
        assert (HQ1 : QueueAt tree (Q' ++ [l; r]) (n' + (a1 + (a2 + 0)))).
        { apply QueueAt_app; [assumption|]. repeat constructor; assumption. }
        destruct (IH (Q' ++ [l; r]) th1 _ HQ1 ltac:(lia) Hok1)
          as (th' & Hrun & Hok' & Hmono & Hsound & Hcompl).
        exists th'. simpl. rewrite Hnode. simpl. rewrite Hins. simpl.
        assert (Hstep : forall f c, In c (nth f thresh_ []) -> In c (nth f th1 [])).
        { intros f c Hc. rewrite nth_as_nth_error in *.
          destruct (Nat.eq_dec f i) as [->|Hne].
          - rewrite Hnth1. rewrite Hs in Hc. now apply set_insert_keeps.
          - now rewrite (Hother1 f Hne). }
        (split; [|split; [|split; [|split]]]); try assumption; try reflexivity.
        -- intros f c Hc. apply Hmono. now apply Hstep.
        -- intros f c Hc. destruct (Hsound f c Hc) as [H1|H1]; [|now right].
           rewrite nth_as_nth_error in H1. rewrite nth_as_nth_error.
           destruct (Nat.eq_dec f i) as [->|Hne].
           ++ rewrite Hnth1 in H1. rewrite Hs.
              destruct (set_insert_from _ _ _ H1) as [->|H2]; [right | now left].
              now exists nid, dl, op, l, r.
           ++ rewrite (Hother1 f Hne) in H1. now left.
        -- intros q x f dl' op' t' l' r' Hq Hu Hx.
           destruct Hq as [<-|Hq].
           ++ apply Under_inv in Hu.
              destruct Hu as [->|(i2 & dl2 & op2 & t2 & l2 & r2 & Hfrom & Hsub)].
              ** rewrite Hnode in Hx. injection Hx as <- <- <- <- <- <-.
                 assert (Hnum : numbers s).
                 { rewrite Forall_forall in Hall. apply (Hall s).
                   eapply nth_error_In; eassumption. }
                 destruct (set_insert_has t s Ht' Hnum) as (c & Hc & Heq).
                 exists c. split; [|assumption]. apply Hmono.
                 rewrite nth_as_nth_error, Hnth1. assumption.
              ** rewrite Hnode in Hfrom. injection Hfrom as <- <- <- <- <- <-.
                 destruct Hsub as [Hsub|Hsub].
                 --- apply (Hcompl l x f dl' op' t' l' r'); [|assumption|assumption].
                     apply in_or_app. right. now left.
                 --- apply (Hcompl r x f dl' op' t' l' r'); [|assumption|assumption].
                     apply in_or_app. right. right. now left.
           ++ apply (Hcompl q x f dl' op' t' l' r'); [|assumption|assumption].
              apply in_or_app. now left.
Qed.

End ScanQueue.

Lemma scan_queue_more_fuel (tree : Tree) :
  forall fuel Q thresh_ thresh_',
    scan_queue fuel tree Q thresh_ = Ok thresh_' ->
    forall k, scan_queue (fuel + k) tree Q thresh_ = Ok thresh_'.
Proof.
  induction fuel as [|fuel IH]; intros Q thresh_ thresh_' H k.
  - destruct Q as [|nid Q']; [|discriminate].
    simpl in H. destruct (0 + k)%nat; exact H.
  - destruct Q as [|nid Q']; [exact H|].
    simpl in *. destruct (index tree nid) as [node|e]; [|discriminate].
    simpl in *. destruct node as [v|i dl op t l r]; [now apply IH|].
    destruct (insert_at i t thresh_) as [th1|e]; [|discriminate].
    simpl in *. now apply IH.
Qed.

Lemma scan_trees_spec (nfeat : Z) (ts : list Tree) :
  Forall (valid_tree nfeat) ts ->
  exists fuel0,
    forall thresh_,
      sets_ok nfeat thresh_ ->
      exists thresh_',
        (forall fuel, (fuel0 <= fuel)%nat -> scan_trees fuel ts thresh_ = Ok thresh_') /\
        sets_ok nfeat thresh_' /\
        (forall f c, In c (nth f thresh_ []) -> In c (nth f thresh_' [])) /\
        (forall f c, In c (nth f thresh_' []) ->
                     In c (nth f thresh_ []) \/ split_among ts f c) /\
        (forall tree nid f dl op t l r,
            In tree ts -> index tree nid = Ok (Split f dl op t l r) ->
            exists c, In c (nth f thresh_' []) /\ feq c t = true).
Proof.
  induction ts as [|tree rest IH]; intros Hvalid.
  - exists 0%nat. intros thresh_ Hok. exists thresh_.
    split; [reflexivity|]. split; [assumption|]. split; [auto|]. split; [auto|].
    intros tree nid f dl op t l r [].
  - inversion Hvalid as [|tree' rest' Htree Hrest]; subst.
    destruct (IH Hrest) as [fuel_r IHr].
    destruct Htree as [[size Hshape] Hrooted Hnodes].
    exists (size + 0 + fuel_r)%nat. intros thresh_ Hok.
    assert (HQ : QueueAt tree [0] (size + 0)) by (repeat constructor; assumption).
    destruct (scan_queue_spec tree nfeat Hnodes (size + 0) [0] thresh_ _ HQ
                              (Nat.le_refl _) Hok)
      as (th1 & Hrun1 & Hok1 & Hmono1 & Hsound1 & Hcompl1).
    destruct (IHr th1 Hok1) as (th' & Hrun & Hok' & Hmono & Hsound & Hcompl).
    exists th'.
    split; [|split; [|split; [|split]]]; try assumption.
    + intros fuel Hfuel. simpl.
      replace fuel with (size + 0 + (fuel - (size + 0)))%nat by lia.
      rewrite (scan_queue_more_fuel tree _ _ _ _ Hrun1). simpl.
      apply Hrun. lia.
    + intros f c Hc. apply Hmono. now apply Hmono1.
    + intros f c Hc. destruct (Hsound f c Hc) as [H1|(tr & Hin & Hsp)].
      * destruct (Hsound1 f c H1) as [H0|Hsp]; [now left|].
        right. exists tree. split; [now left | assumption].
      * right. exists tr. split; [now right | assumption].
    + intros tr nid f dl op t l r [<-|Hin] Hnode.
      * destruct (Hcompl1 0 nid f dl op t l r) as (c & Hc & Heq);
          [now left | eapply Hrooted; eassumption | assumption |].
        exists c. split; [now apply Hmono | assumption].
      * eapply Hcompl; eassumption.
Qed.

Lemma sets_ok_empty (nfeat : Z) : sets_ok nfeat (repeat [] (Z.to_nat nfeat)).
Proof.
  split; [apply repeat_length|].
  apply Forall_forall. intros s Hs. apply repeat_spec in Hs. subst s.
  split; [reflexivity | constructor].
Qed.

Lemma nth_repeat_nil {A : Type} (f n : nat) (c : A) : ~ In c (nth f (repeat [] n) []).
Proof.
  rewrite nth_as_nth_error.
  destruct (nth_error (repeat [] n) f) as [s|] eqn:E; [|auto].
  apply nth_error_In, repeat_spec in E. subst s. auto.
Qed.

(** What [ExtractCutPoints] returns on a well-formed ensemble: from some
    fuel on always the same lists, one per feature, each sorted, holding
    only thresholds of splits on its feature and, for every such threshold,
    an element equal to it. *)
Lemma ExtractCutPoints_spec (model : Model) :
  valid_model model ->
  exists fuel0 cuts,
    (forall fuel, (fuel0 <= fuel)%nat -> ExtractCutPoints fuel model = Ok cuts) /\
    length cuts = Z.to_nat (num_features model) /\
    Forall (fun s => strictly_sorted s = true) cuts /\
    (forall f c, In c (nth f cuts []) -> c <> NaN /\ split_among (trees model) f c) /\
    (forall tree nid f dl op t l r,
        In tree (trees model) -> index tree nid = Ok (Split f dl op t l r) ->
        exists c, In c (nth f cuts []) /\ feq c t = true).
Proof.
  intros [Hnf Hvalid].
  destruct (scan_trees_spec _ _ Hvalid) as [fuel0 Hscan].
  destruct (Hscan _ (sets_ok_empty (num_features model)))
    as (cuts & Hrun & [Hlen Hall] & _ & Hsound & Hcompl).
  exists fuel0, cuts.
  split; [|split; [|split; [|split]]]; try assumption.
  - intros fuel Hfuel. unfold ExtractCutPoints.
    destruct (num_features model <? 0) eqn:E; [apply Z.ltb_lt in E; lia|].
    rewrite (Hrun fuel Hfuel). simpl. f_equal. apply map_id.
  - eapply Forall_impl; [|exact Hall]. intros s [Hs _]. exact Hs.
  - intros f c Hc. split.
    + rewrite nth_as_nth_error in Hc.
      destruct (nth_error cuts f) as [s|] eqn:E; [|contradiction].
      rewrite Forall_forall in Hall.
      destruct (Hall s (nth_error_In _ _ E)) as [_ Hnum].
      unfold numbers in Hnum. rewrite Forall_forall in Hnum. auto.
    + destruct (Hsound f c Hc) as [H0|H1]; [|assumption].
      now apply nth_repeat_nil in H0.
Qed.

(** C7: on a well-formed ensemble, extraction gives for every feature [f] a
    sorted list with no two equal elements, made of thresholds of splits on
    [f], that holds a value equal to [t] exactly when some split on [f] in
    some tree has a threshold equal to [t]; whatever the fuel beyond a bound,
    so extracting again, gives the same lists. *)
Theorem cut_points_sorted_distinct_complete (model : Model) :
  valid_model model ->
  exists fuel0 cuts,
    (forall fuel, (fuel0 <= fuel)%nat -> ExtractCutPoints fuel model = Ok cuts) /\
    forall f, Z.of_nat f < num_features model ->
      exists l,
        nth_error cuts f = Some l /\
        strictly_sorted l = true /\
        (forall j k a b,
            nth_error l j = Some a -> nth_error l k = Some b ->
            feq a b = true -> j = k) /\
        (forall c, In c l -> split_among (trees model) f c) /\
        (forall t, (exists c, In c l /\ feq c t = true)
                   <-> model_has_threshold model f t).
Proof.
  intros Hvalid.
  destruct (ExtractCutPoints_spec model Hvalid)
    as (fuel0 & cuts & Hrun & Hlen & Hsorted & Hsound & Hcompl).
  exists fuel0, cuts. split; [assumption|].
  intros f Hf.
  destruct (nth_error_in_range cuts f ltac:(lia)) as [l Hl].
  assert (Hnth : nth f cuts [] = l) by (rewrite nth_as_nth_error, Hl; reflexivity).
  assert (Hsl : strictly_sorted l = true).
  { rewrite Forall_forall in Hsorted. apply Hsorted. eapply nth_error_In; eassumption. }
  exists l. split; [assumption|]. split; [assumption|]. split; [|split].
  - now apply strictly_sorted_distinct.
  - intros c Hc. rewrite <- Hnth in Hc. now destruct (Hsound f c Hc).
  - intros t. split.
    + intros (c & Hc & Heq). rewrite <- Hnth in Hc.
      destruct (Hsound f c Hc) as [_ (tree & Hin & nid & dl & op & l' & r' & Hnode)].
      exists tree. split; [assumption|]. now exists nid, dl, op, c, l', r'.
    + intros (tree & Hin & nid & dl & op & t' & l' & r' & Hnode & Heq).
      destruct (Hcompl tree nid f dl op t' l' r' Hin Hnode) as (c & Hc & Hct).
      exists c. rewrite <- Hnth. split; [assumption|].
      eapply feq_trans; eassumption.
Qed.

(* ===================================================================== *)
(** * The lookup of a threshold among the cut points *)
(* ===================================================================== *)

Lemma binary_search_from_eq (fuel : nat) (v : list tl_float) (val : tl_float)
      (low high : nat) :
  binary_search_from (S fuel) v val low high =
  if (low <? high)%nat then
    match nth_error v (low + (high - low) / 2) with
    | None => None
    | Some mval =>
        if feq mval val then Some (low + (high - low) / 2)%nat
        else if flt mval val
             then binary_search_from fuel v val (S (low + (high - low) / 2)) high
             else binary_search_from fuel v val low (low + (high - low) / 2)
    end
  else None.
Proof. reflexivity. Qed.

Lemma binary_search_from_finds (v : list tl_float) (val : tl_float)
      (p : nat) (c : tl_float) :
  strictly_sorted v = true -> nth_error v p = Some c -> feq c val = true ->
  forall fuel low high,
    (low <= p < high)%nat -> (high <= length v)%nat -> (high - low < fuel)%nat ->
    binary_search_from fuel v val low high = Some p.
Proof.
  intros Hs Hp Heq. induction fuel as [|fuel IH]; intros low high Hlp Hhigh Hfuel; [lia|].
  rewrite binary_search_from_eq.
  replace (low <? high)%nat with true by (symmetry; apply Nat.ltb_lt; lia).
  assert (Hdiv : ((high - low) / 2 < high - low)%nat) by (apply Nat.div_lt; lia).
  set (mid := (low + (high - low) / 2)%nat) in *.
  assert (Hmid : (low <= mid < high)%nat) by (unfold mid; lia).
  destruct (nth_error_in_range v mid ltac:(lia)) as [x Hx]. rewrite Hx.
  destruct (lt_eq_lt_dec mid p) as [[Hlt|Hmp]|Hgt].
  - pose proof (strictly_sorted_nth v Hs mid p x c Hlt Hx Hp) as H.
    rewrite (feq_flt_r c val x Heq) in H.
    destruct (flt_not_feq _ _ H) as [-> _]. rewrite H. apply IH; lia.
  - rewrite Hmp in Hx. assert (x = c) by congruence. subst x.
    rewrite Heq. f_equal. exact Hmp.
  - pose proof (strictly_sorted_nth v Hs p mid c x Hgt Hp Hx) as H.
    rewrite (feq_flt_l c val x Heq) in H.
    destruct (flt_not_feq _ _ H) as [_ ->]. rewrite (flt_asym _ _ H). apply IH; lia.
Qed.

Lemma binary_search_finds (v : list tl_float) (val : tl_float)
      (p : nat) (c : tl_float) :
  strictly_sorted v = true -> nth_error v p = Some c -> feq c val = true ->
  binary_search v val = Some p.
Proof.
  intros Hs Hp Heq. unfold binary_search.
  assert (p < length v)%nat by (apply nth_error_Some; congruence).
  eapply binary_search_from_finds; try eassumption; lia.
Qed.

(** The text [Compile] gives is the text of the condition built from what
    the adapter printed. *)
Lemma Compile_renders (R : Renderer) (i : nat) (dl : bool) (op : Operator)
      (t : tl_float) (adapter : Operator -> nat -> tl_float -> result string)
      (n : NumericExpr) :
  adapter op i t = Ok (render_numeric R n) ->
  Compile {| sc_split_index := i; sc_default_left := dl; sc_op := op;
             sc_threshold := t; sc_numeric_adapter := adapter |}
  = Ok (render_condition R (condition_expr dl i n)).
Proof.
  intros H. unfold Compile. simpl. rewrite H. simpl. now destruct dl.
Qed.

Lemma NoQuantize_renders (R : Renderer) (info : Metadata) (op : Operator)
      (i : nat) (t : tl_float) :
  NumericAdapter (NoQuantize R) info op i t = Ok (render_numeric R (FCompare i op t)).
Proof. reflexivity. Qed.

(** A threshold that is a NaN enters its set and is never found in it: the
    ensembles of the theorems have numbers for thresholds. *)
Example nan_threshold_is_not_found :
  ExtractCutPoints 3 {| trees := [[Split 0 true kLT NaN 1 2; Leaf NaN; Leaf NaN]];
                        num_features := 1 |}
  = Ok [[NaN]] /\
  NumericAdapter (Quantize plain_renderer)
                 {| info_num_features := 1; cut_pts := [[NaN]] |} kLT 0 NaN
  = Err CheckFailed.
Proof. split; reflexivity. Qed.

Lemma Quantize_renders (R : Renderer) (info : Metadata) (op : Operator)
      (i : nat) (t : tl_float) (n : NumericExpr) :
  Quantize_expr info op i t = Ok n ->
  NumericAdapter (Quantize R) info op i t = Ok (render_numeric R n).
Proof.
  unfold Quantize_expr. simpl.
  destruct (index (cut_pts info) (Z.of_nat i)) as [v|e]; simpl; [|discriminate].
  destruct (binary_search v t) as [loc|]; [|discriminate].
  now intros [= <-].
Qed.

(** C4: with the cut points extracted from the ensemble being compiled, the
    condition of every split of every tree compiles: the exact-match search
    finds the threshold in the list of its feature, at the position of an
    element equal to it, and the [CHECK] does not fail. *)
Theorem quantized_lookup_succeeds (R : Renderer) (model : Model) :
  valid_model model ->
  exists fuel0,
    forall fuel, (fuel0 <= fuel)%nat ->
      exists info,
        Metadata_Init fuel model (QuantizeFlag (Quantize R)) = Ok info /\
        forall tree nid f dl op t l r,
          In tree (trees model) ->
          index tree nid = Ok (Split f dl op t l r) ->
          exists v loc c,
            index (cut_pts info) (Z.of_nat f) = Ok v /\
            binary_search v t = Some loc /\
            nth_error v loc = Some c /\ feq c t = true /\
            Compile {| sc_split_index := f; sc_default_left := dl; sc_op := op;
                       sc_threshold := t;
                       sc_numeric_adapter := NumericAdapter (Quantize R) info |}
            = Ok (render_condition R
                    (condition_expr dl f (QCompare f op (quantized_literal loc)))).
Proof.
  intros Hvalid.
  destruct (ExtractCutPoints_spec model Hvalid)
    as (fuel0 & cuts & Hrun & Hlen & Hsorted & Hsound & Hcompl).
  exists fuel0. intros fuel Hfuel.
  exists {| info_num_features := num_features model; cut_pts := cuts |}.
  split.
  - unfold Metadata_Init. simpl. now rewrite (Hrun fuel Hfuel).
  - intros tree nid f dl op t l r Hin Hnode. cbn [cut_pts].
    destruct (Hcompl tree nid f dl op t l r Hin Hnode) as (c & Hc & Heq).
    rewrite nth_as_nth_error in Hc.
    destruct (nth_error cuts f) as [v|] eqn:Ev; [|contradiction].
    apply In_nth_error in Hc. destruct Hc as [loc Hloc].
    assert (Hsv : strictly_sorted v = true).
    { rewrite Forall_forall in Hsorted. apply Hsorted. eapply nth_error_In; eassumption. }
    pose proof (binary_search_finds v t loc c Hsv Hloc Heq) as Hfind.
    exists v, loc, c.
    split; [rewrite index_of_nat, Ev; reflexivity|].
    split; [assumption|]. split; [assumption|]. split; [assumption|].
    apply Compile_renders. apply Quantize_renders.
    unfold Quantize_expr. cbn [cut_pts]. rewrite index_of_nat, Ev. simpl.
    now rewrite Hfind.
Qed.

(* ===================================================================== *)
(** * The tree walker *)
(* ===================================================================== *)

Lemma WalkTree__eq (R : Renderer) (policy : QuantizePolicy) (fuel : nat)
      (info : Metadata) (tree : Tree) (counts : list N) (nid : Z) :
  WalkTree_ R policy (S fuel) info tree counts nid =
  (node <- index tree nid ;;
   match node with
   | Leaf leaf_value =>
       Ok (PlainBlock [("sum += " ++ FloatToString R leaf_value ++ ";")%string])
   | Split split_index default_left op threshold cleft cright =>
       likely_direction <- likely_direction_of counts cleft cright ;;
       left_block <- WalkTree_ R policy fuel info tree counts cleft ;;
       right_block <- WalkTree_ R policy fuel info tree counts cright ;;
       Ok (IfElseBlock
             {| sc_split_index := split_index;
                sc_default_left := default_left;
                sc_op := op;
                sc_threshold := threshold;
                sc_numeric_adapter := NumericAdapter policy info |}
             left_block right_block likely_direction)
   end).
Proof. reflexivity. Qed.

Section Walker.

Variable R : Renderer.
Variable policy : QuantizePolicy.
Variable info : Metadata.
Variable tree : Tree.
Variable counts : list N.

Hypothesis counts_ok : counts = [] \/ counts_cover tree counts.

Lemma likely_direction_total (nid : Z) (i : nat) (dl : bool) (op : Operator)
      (t : tl_float) (l r : Z) :
  index tree nid = Ok (Split i dl op t l r) ->
  exists d, likely_direction_of counts l r = Ok d.
Proof.
  intros Hnode. destruct counts_ok as [Hnil|Hcover].
  - rewrite Hnil. now exists kNone.
  - destruct (Hcover _ _ _ _ _ _ _ Hnode) as [[cl Hl] [cr Hr]].
    unfold likely_direction_of. destruct counts as [|c0 rest]; [now exists kNone|].
    rewrite Hl, Hr. simpl. eauto.
Qed.

(** The walk of a finite tree returns, whatever fuel covers its size. *)
Lemma WalkTree__total (nid : Z) (size : nat) :
  TreeAt tree nid size ->
  forall fuel, (size <= fuel)%nat ->
    exists b, WalkTree_ R policy fuel info tree counts nid = Ok b.
Proof.
  intros Ht. induction Ht as [nid v Hnode | nid i dl op t l r a b Hnode Hl IHl Hr IHr];
    intros fuel Hfuel; (destruct fuel as [|fuel]; [lia|]);
    rewrite WalkTree__eq, Hnode; cbn [bind].
  - eauto.
  - destruct (likely_direction_total _ _ _ _ _ _ _ Hnode) as [d ->]. cbn [bind].
    destruct (IHl fuel ltac:(lia)) as [lb ->].
    destruct (IHr fuel ltac:(lia)) as [rb ->]. cbn [bind]. eauto.
Qed.

(** What the walk builds at a split. *)
Lemma WalkTree__at_split (nid : Z) (size fuel : nat) (i : nat) (dl : bool)
      (op : Operator) (t : tl_float) (l r : Z) :
  TreeAt tree nid size -> (size <= S fuel)%nat ->
  index tree nid = Ok (Split i dl op t l r) ->
  exists lb rb d,
    likely_direction_of counts l r = Ok d /\
    WalkTree_ R policy fuel info tree counts l = Ok lb /\
    WalkTree_ R policy fuel info tree counts r = Ok rb /\
    WalkTree_ R policy (S fuel) info tree counts nid
    = Ok (IfElseBlock {| sc_split_index := i; sc_default_left := dl;
                         sc_op := op; sc_threshold := t;
                         sc_numeric_adapter := NumericAdapter policy info |}
                      lb rb d).
Proof.
  intros Ht Hfuel Hnode.
  inversion Ht as [nid0 v Hleaf | nid0 i' dl' op' t' l' r' a b Hsplit Hl Hr]; subst.
  - congruence.
  - rewrite Hnode in Hsplit. injection Hsplit as <- <- <- <- <- <-.
    destruct (likely_direction_total _ _ _ _ _ _ _ Hnode) as [d Hd].
    destruct (WalkTree__total l a Hl fuel ltac:(lia)) as [lb Hlb].
    destruct (WalkTree__total r b Hr fuel ltac:(lia)) as [rb Hrb].
    exists lb, rb, d. repeat split; try assumption.
    rewrite WalkTree__eq, Hnode. cbn [bind]. rewrite Hd. cbn [bind].
    rewrite Hlb, Hrb. reflexivity.
Qed.

End Walker.

(** Without counts no conditional of the walk carries a hint. *)
Lemma hints_without_counts (R : Renderer) (policy : QuantizePolicy)
      (info : Metadata) (tree : Tree) :
  forall fuel nid b,
    WalkTree_ R policy fuel info tree [] nid = Ok b ->
    Forall (eq kNone) (hints b).
Proof.
  induction fuel as [|fuel IH]; intros nid b H; [discriminate|].
  rewrite WalkTree__eq in H.
  destruct (index tree nid) as [node|e]; [|discriminate]. cbn [bind] in H.
  destruct node as [v|i dl op t l r].
  - injection H as <-. constructor.
  - simpl in H.
    destruct (WalkTree_ R policy fuel info tree [] l) as [lb|e] eqn:El; [|discriminate].
    destruct (WalkTree_ R policy fuel info tree [] r) as [rb|e] eqn:Er; [|discriminate].
    simpl in H. injection H as <-. simpl. constructor; [reflexivity|].
    apply Forall_app. split; eapply IH; eassumption.
Qed.

Lemma float_cmp_feq_r (op : Operator) (v c t : tl_float) :
  feq c t = true -> float_cmp op v c = float_cmp op v t.
Proof.
  intros H. apply feq_spec in H.
  pose proof (fcompare_eq_r c t v H) as Heq.
  destruct op; unfold float_cmp, feq, flt, fle, fgt, fge; now rewrite Heq.
Qed.

Lemma goes_left_feq (dl : bool) (op : Operator) (c t : tl_float) (e : Entry) :
  feq c t = true -> goes_left dl op c e = goes_left dl op t e.
Proof.
  intros H. unfold goes_left. destruct (is_present e); [|reflexivity].
  destruct (read_fvalue e) as [v|err]; [|reflexivity].
  cbn [bind]. f_equal. now apply float_cmp_feq_r.
Qed.

(** How a condition evaluates: on a missing feature to [default_left], on a
    present one to its numeric part. *)
Lemma eval_condition_expr (R : Renderer) (C : CTarget) (data : list Entry)
      (dl : bool) (i : nat) (n : NumericExpr) (e : Entry) :
  index data (Z.of_nat i) = Ok e ->
  eval_condition R C data (condition_expr dl i n)
  = if is_present e then eval_numeric R C data n else Ok dl.
Proof.
  intros He. destruct dl; simpl; rewrite He; simpl; now destruct (is_present e).
Qed.


(** C8: a split compiled with counts that can be read carries the hint of
    the child with the larger count, left when the left count exceeds the
    right one and right when the right count exceeds the left one; a split
    compiled without counts carries no hint, and neither does any
    conditional under it. *)
Theorem hint_follows_counts (R : Renderer) (policy : QuantizePolicy)
        (info : Metadata) (tree : Tree) (counts : list N) (nid : Z)
        (size fuel : nat) (i : nat) (dl : bool) (op : Operator)
        (t : tl_float) (l r : Z) :
  TreeAt tree nid size -> (size <= S fuel)%nat ->
  counts = [] \/ counts_cover tree counts ->
  index tree nid = Ok (Split i dl op t l r) ->
  exists cond lb rb d,
    WalkTree_ R policy (S fuel) info tree counts nid
    = Ok (IfElseBlock cond lb rb d) /\
    (forall cl cr,
        counts <> [] -> index counts l = Ok cl -> index counts r = Ok cr ->
        ((cr < cl)%N -> d = kLeft) /\ ((cl < cr)%N -> d = kRight)) /\
    (counts = [] ->
     d = kNone /\ Forall (eq kNone) (hints (IfElseBlock cond lb rb d))).
Proof.
  intros Ht Hfuel Hcounts Hnode.
  destruct (WalkTree__at_split R policy info tree counts Hcounts
                               nid size fuel i dl op t l r Ht Hfuel Hnode)
    as (lb & rb & d & Hd & Hlb & Hrb & Hwalk).
  eexists _, lb, rb, d. split; [exact Hwalk|]. split.
  - intros cl cr Hne Hl Hr. unfold likely_direction_of in Hd.
    destruct counts as [|c0 rest]; [congruence|].
    rewrite Hl, Hr in Hd. simpl in Hd. injection Hd as <-. split; intros H.
    + now replace (cr <? cl)%N with true by (symmetry; apply N.ltb_lt; exact H).
    + now replace (cr <? cl)%N with false by (symmetry; apply N.ltb_ge; lia).
  - intros ->. simpl in Hd. injection Hd as <-. split; [reflexivity|].
    eapply hints_without_counts. exact Hwalk.
Qed.

(** C9: a split compiled with a non-empty count sequence never carries the
    hint none, and carries the right-branch hint when the counts of its two
    children are equal. *)
Theorem tie_marks_right (R : Renderer) (policy : QuantizePolicy)
        (info : Metadata) (tree : Tree) (counts : list N) (nid : Z)
        (size fuel : nat) (i : nat) (dl : bool) (op : Operator)
        (t : tl_float) (l r : Z) :
  TreeAt tree nid size -> (size <= S fuel)%nat ->
  counts <> [] -> counts_cover tree counts ->
  index tree nid = Ok (Split i dl op t l r) ->
  exists cond lb rb d,
    WalkTree_ R policy (S fuel) info tree counts nid
    = Ok (IfElseBlock cond lb rb d) /\
    d <> kNone /\
    (forall c, index counts l = Ok c -> index counts r = Ok c -> d = kRight).
Proof.
  intros Ht Hfuel Hne Hcover Hnode.
  destruct (WalkTree__at_split R policy info tree counts (or_intror Hcover)
                               nid size fuel i dl op t l r Ht Hfuel Hnode)
    as (lb & rb & d & Hd & Hlb & Hrb & Hwalk).
  eexists _, lb, rb, d. split; [exact Hwalk|].
  unfold likely_direction_of in Hd. destruct counts as [|c0 rest]; [congruence|].
  destruct (index (c0 :: rest) l) as [cl|e]; [|discriminate].
  destruct (index (c0 :: rest) r) as [cr|e]; [|discriminate].
  simpl in Hd. injection Hd as <-. split.
  - destruct (cr <? cl)%N; discriminate.
  - intros c [= ->] [= ->]. now rewrite N.ltb_irrefl.
Qed.

(** C6: at every split the walker compiles, the condition is
    [(missing) || numeric] when [default_left] is set and
    [(not missing) && numeric] when it is not; on a record whose feature is
    missing it has the value of [default_left], whatever the threshold and
    the operator, so the conditional runs the code of the left child when
    [default_left] is set and that of the right child when it is not. *)
Theorem missing_value_routing (R : Renderer) (C : CTarget)
        (policy : QuantizePolicy)
        (info : Metadata) (tree : Tree) (counts : list N) (nid : Z)
        (size fuel : nat) (i : nat) (dl : bool) (op : Operator)
        (t : tl_float) (l r : Z) (n : NumericExpr)
        (data : list Entry) (e : Entry) :
  TreeAt tree nid size -> (size <= S fuel)%nat ->
  counts = [] \/ counts_cover tree counts ->
  index tree nid = Ok (Split i dl op t l r) ->
  NumericAdapter policy info op i t = Ok (render_numeric R n) ->
  index data (Z.of_nat i) = Ok e -> is_present e = false ->
  exists cond lb rb d,
    WalkTree_ R policy (S fuel) info tree counts nid
    = Ok (IfElseBlock cond lb rb d) /\
    WalkTree_ R policy fuel info tree counts l = Ok lb /\
    WalkTree_ R policy fuel info tree counts r = Ok rb /\
    Compile cond
    = Ok (render_condition R (if dl then MissingOr i n else PresentAnd i n)) /\
    eval_condition R C data (if dl then MissingOr i n else PresentAnd i n) = Ok dl /\
    branch_taken dl (IfElseBlock cond lb rb d) = Some (if dl then lb else rb).
Proof.
  intros Ht Hfuel Hcounts Hnode Hadapter He Hmissing.
  destruct (WalkTree__at_split R policy info tree counts Hcounts
                               nid size fuel i dl op t l r Ht Hfuel Hnode)
    as (lb & rb & d & Hd & Hlb & Hrb & Hwalk).
  eexists _, lb, rb, d. split; [exact Hwalk|].
  split; [assumption|]. split; [assumption|]. split; [|split].
  - apply (Compile_renders R i dl op t _ n Hadapter).
  - pose proof (eval_condition_expr R C data dl i n e He) as H.
    unfold condition_expr in H. rewrite H, Hmissing. reflexivity.
  - reflexivity.
Qed.



(* ===================================================================== *)
(** * [Export] *)
(* ===================================================================== *)

Lemma sizes_bounded (nfeat : Z) (ts : list Tree) :
  Forall (valid_tree nfeat) ts ->
  exists fuel0,
    forall tree, In tree ts -> exists size, TreeAt tree 0 size /\ (size <= fuel0)%nat.
Proof.
  induction 1 as [|tree rest Htree Hrest [fuel_r IH]].
  - exists 0%nat. intros tree [].
  - destruct Htree as [[size Hshape] _ _].
    exists (size + fuel_r)%nat. intros tr [<-|Hin].
    + exists size. split; [assumption | lia].
    + destruct (IH tr Hin) as (sz & Hsz & Hle). exists sz. split; [assumption | lia].
Qed.

Lemma Metadata_Init_total (model : Model) (flag : bool) :
  valid_model model ->
  exists fuel0,
    forall fuel, (fuel0 <= fuel)%nat ->
      exists info, Metadata_Init fuel model flag = Ok info.
Proof.
  intros Hvalid. destruct flag.
  - destruct (ExtractCutPoints_spec model Hvalid) as (fuel0 & cuts & Hrun & _).
    exists fuel0. intros fuel Hfuel. unfold Metadata_Init.
    rewrite (Hrun fuel Hfuel). simpl. eauto.
  - exists 0%nat. intros fuel _. unfold Metadata_Init. eauto.
Qed.

Section ExportLoop.

Variable R : Renderer.
Variable policy : QuantizePolicy.
Variable info : Metadata.
Variable annotation : Annotation.
Variable fuel : nat.

Lemma walk_trees_spec :
  forall ts tree_id,
    (forall k tree,
        nth_error ts k = Some tree ->
        exists counts size,
          counts_of annotation (tree_id + k) = Ok counts /\
          (counts = [] \/ counts_cover tree counts) /\
          TreeAt tree 0 size /\ (size <= fuel)%nat) ->
    exists blocks,
      walk_trees R policy fuel info annotation tree_id ts = Ok blocks /\
      forall k tree b,
        nth_error ts k = Some tree -> nth_error blocks k = Some b ->
        exists counts,
          counts_of annotation (tree_id + k) = Ok counts /\
          WalkTree R policy fuel info tree counts = Ok b.
Proof.
  induction ts as [|tree rest IH]; intros tree_id Hall.
  - exists []. split; [reflexivity|]. intros [|k] tr b H; discriminate.
  - destruct (Hall 0%nat tree eq_refl) as (counts & size & Hc & Hok & Hshape & Hsize).
    rewrite Nat.add_0_r in Hc.
    destruct (WalkTree__total R policy info tree counts Hok 0 size Hshape fuel Hsize)
      as [b Hb].
    destruct (IH (S tree_id)) as (blocks & Hrun & Hblocks).
    { intros k tr Hk. destruct (Hall (S k) tr Hk) as (c & sz & H1 & H2 & H3 & H4).
      exists c, sz. rewrite <- Nat.add_succ_comm in H1. auto. }
    exists (b :: blocks). split.
    + simpl. rewrite Hc. simpl. unfold WalkTree. rewrite Hb. simpl.
      rewrite Hrun. reflexivity.
    + intros [|k] tr b' Hk Hb'; simpl in Hk, Hb'.
      * injection Hk as <-. injection Hb' as <-.
        exists counts. rewrite Nat.add_0_r. split; assumption.
      * destruct (Hblocks k tr b' Hk Hb') as (c & H1 & H2).
        exists c. rewrite <- Nat.add_succ_comm. split; assumption.
Qed.

(** Entries of the annotation after those the loop reads change nothing. *)
Lemma walk_trees_surplus (extra : Annotation) :
  annotation <> [] ->
  forall ts tree_id,
    (forall k, (k < length ts)%nat ->
               exists counts, counts_of annotation (tree_id + k) = Ok counts) ->
    walk_trees R policy fuel info (annotation ++ extra) tree_id ts
    = walk_trees R policy fuel info annotation tree_id ts.
Proof.
  intros Hne. induction ts as [|tree rest IH]; intros tree_id Hall; [reflexivity|].
  simpl. destruct (Hall 0%nat ltac:(simpl; lia)) as [counts Hc].
  rewrite Nat.add_0_r in Hc.
  assert (Happ : counts_of (annotation ++ extra) tree_id = Ok counts).
  { destruct annotation as [|a0 rest0] eqn:Ea; [congruence|].
    simpl in *. rewrite index_of_nat in *.
    destruct (nth_error (a0 :: rest0) tree_id) as [c|] eqn:E; [|discriminate].
    change (a0 :: rest0 ++ extra) with ((a0 :: rest0) ++ extra).
    rewrite nth_error_app1 by (apply nth_error_Some; congruence).
    now rewrite E. }
  rewrite Happ, Hc. simpl.
  rewrite IH; [reflexivity|].
  intros k Hk. destruct (Hall (S k) ltac:(simpl; lia)) as [c H].
  exists c. now rewrite Nat.add_succ_comm.
Qed.

End ExportLoop.

Lemma load_annotation_supplied (param : CompilerParam)
      (read_annotation : string -> result Annotation) (annotation : Annotation) :
  annotate_in param <> "NULL"%string ->
  read_annotation (annotate_in param) = Ok annotation ->
  load_annotation param read_annotation = Ok (annotation, true).
Proof.
  intros Hne Hread. unfold load_annotation.
  apply String.eqb_neq in Hne. now rewrite Hne, Hread.
Qed.

(** What [Export] returns on a well-formed ensemble with an annotation it
    can read. *)
Lemma Export_spec (R : Renderer) (policy : QuantizePolicy) (param : CompilerParam)
      (read_annotation : string -> result Annotation) (model : Model)
      (annotation : Annotation) (annotate : bool) :
  valid_model model ->
  load_annotation param read_annotation = Ok (annotation, annotate) ->
  annotation_fits (trees model) annotation ->
  exists fuel0,
    forall fuel, (fuel0 <= fuel)%nat ->
      exists info blocks,
        Metadata_Init fuel model (QuantizeFlag policy) = Ok info /\
        walk_trees R policy fuel info annotation 0 (trees model) = Ok blocks /\
        (forall k tree b,
            nth_error (trees model) k = Some tree -> nth_error blocks k = Some b ->
            exists counts,
              counts_of annotation k = Ok counts /\
              WalkTree R policy fuel info tree counts = Ok b) /\
        Export R policy param read_annotation fuel model
        = Ok (SequenceBlock
                [ PlainBlock
                    (Preamble policy info ++ [""%string]
                     ++ (if annotate then [LIKELY_macro; UNLIKELY_macro] else []));
                  FunctionBlock "float predict_margin(union Entry* data)"
                    (SequenceBlock
                       ([ PlainBlock ["float sum = 0.0f;"%string];
                          PlainBlock (Preprocessing policy info) ]
                        ++ blocks
                        ++ [ PlainBlock ["return sum;"%string] ])) ]).
Proof.
  intros Hvalid Hload Hfits.
  destruct (Metadata_Init_total model (QuantizeFlag policy) Hvalid) as [fuel1 Hinit].
  destruct (sizes_bounded _ _ (proj2 Hvalid)) as [fuel2 Hsizes].
  exists (fuel1 + fuel2)%nat. intros fuel Hfuel.
  destruct (Hinit fuel ltac:(lia)) as [info Hinfo].
  destruct (walk_trees_spec R policy info annotation fuel (trees model) 0)
    as (blocks & Hrun & Hblocks).
  { intros k tree Hk. destruct (Hfits k tree Hk) as (counts & Hc & Hok).
    destruct (Hsizes tree (nth_error_In _ _ Hk)) as (size & Hshape & Hle).
    exists counts, size. simpl. repeat split; try assumption. lia. }
  exists info, blocks. split; [assumption|]. split; [assumption|]. split.
  - intros k tree b Hk Hb. exact (Hblocks k tree b Hk Hb).
  - unfold Export. rewrite Hinfo. simpl. rewrite Hload. simpl.
    rewrite Hrun. reflexivity.
Qed.

Lemma hints_with_counts (R : Renderer) (policy : QuantizePolicy)
      (info : Metadata) (tree : Tree) (counts : list N) :
  counts <> [] ->
  forall fuel nid b,
    WalkTree_ R policy fuel info tree counts nid = Ok b ->
    Forall (fun d => d <> kNone) (hints b).
Proof.
  intros Hne. induction fuel as [|fuel IH]; intros nid b H; [discriminate|].
  rewrite WalkTree__eq in H.
  destruct (index tree nid) as [node|e]; [|discriminate].
  cbn [bind] in H. destruct node as [v|i dl op t l r].
  - injection H as <-. constructor.
  - destruct (likely_direction_of counts l r) as [d|e] eqn:Ed; [|discriminate].
    cbn [bind] in H.
    destruct (WalkTree_ R policy fuel info tree counts l) as [lb|e] eqn:El;
      [|discriminate].
    cbn [bind] in H.
    destruct (WalkTree_ R policy fuel info tree counts r) as [rb|e] eqn:Er;
      [|discriminate].
    cbn [bind] in H. injection H as <-. cbn [hints].
    constructor.
    + unfold likely_direction_of in Ed. destruct counts as [|c0 rest]; [congruence|].
      destruct (index (c0 :: rest) l) as [cl|e]; [|discriminate].
      destruct (index (c0 :: rest) r) as [cr|e]; [|discriminate].
      cbn [bind] in Ed. injection Ed as <-. destruct (cr <? cl)%N; discriminate.
    + apply Forall_app. split; eapply IH; eassumption.
Qed.

Lemma walk_trees_length (R : Renderer) (policy : QuantizePolicy)
      (info : Metadata) (annotation : Annotation) (fuel : nat) :
  forall ts tree_id blocks,
    walk_trees R policy fuel info annotation tree_id ts = Ok blocks ->
    length blocks = length ts.
Proof.
  induction ts as [|tree rest IH]; intros tree_id blocks H.
  - now injection H as <-.
  - cbn [walk_trees] in H.
    destruct (counts_of annotation tree_id) as [counts|e]; [|discriminate].
    cbn [bind] in H.
    destruct (WalkTree R policy fuel info tree counts) as [b|e]; [|discriminate].
    cbn [bind] in H.
    destruct (walk_trees R policy fuel info annotation (S tree_id) rest)
      as [bs|e] eqn:Ebs; [|discriminate].
    cbn [bind] in H. injection H as <-. cbn [length]. f_equal. eapply IH. exact Ebs.
Qed.

(** C10: when [annotate_in] is not "NULL" the preamble of the artifact is
    the preamble of the policy, an empty line and the two macro definitions,
    also when the annotation read is empty.  The artifact has one block per
    tree, in order: when the annotation is not empty the block of the tree
    of index [k] is the walk of that tree with the counts [annotation[k]],
    every conditional of it hinted when these counts are not empty; when the
    annotation is empty it is the walk without counts, hence without
    hints. *)
Theorem annotate_in_sets_macros (R : Renderer) (policy : QuantizePolicy)
        (param : CompilerParam) (read_annotation : string -> result Annotation)
        (model : Model) (annotation : Annotation) :
  valid_model model ->
  annotate_in param <> "NULL"%string ->
  read_annotation (annotate_in param) = Ok annotation ->
  annotation_fits (trees model) annotation ->
  exists fuel0,
    forall fuel, (fuel0 <= fuel)%nat ->
      exists info blocks,
        Metadata_Init fuel model (QuantizeFlag policy) = Ok info /\
        Export R policy param read_annotation fuel model
        = Ok (SequenceBlock
                [ PlainBlock (Preamble policy info ++ [""%string]
                              ++ [LIKELY_macro; UNLIKELY_macro]);
                  FunctionBlock "float predict_margin(union Entry* data)"
                    (SequenceBlock
                       ([ PlainBlock ["float sum = 0.0f;"%string];
                          PlainBlock (Preprocessing policy info) ]
                        ++ blocks
                        ++ [ PlainBlock ["return sum;"%string] ])) ]) /\
        length blocks = length (trees model) /\
        forall k tree,
          nth_error (trees model) k = Some tree ->
          exists b,
            nth_error blocks k = Some b /\
            (annotation = [] ->
             WalkTree R policy fuel info tree [] = Ok b /\
             Forall (eq kNone) (hints b)) /\
            (annotation <> [] ->
             exists counts,
               index annotation (Z.of_nat k) = Ok counts /\
               WalkTree R policy fuel info tree counts = Ok b /\
               (counts <> [] -> Forall (fun d => d <> kNone) (hints b))).
Proof.
  intros Hvalid Hne Hread Hfits.
  pose proof (load_annotation_supplied param read_annotation annotation Hne Hread)
    as Hload.
  destruct (Export_spec R policy param read_annotation model annotation true
                        Hvalid Hload Hfits) as [fuel0 Hexport].
  exists fuel0. intros fuel Hfuel.
  destruct (Hexport fuel Hfuel) as (info & blocks & Hinfo & Hrun & Hblocks & Hart).
  pose proof (walk_trees_length R policy info annotation fuel _ _ _ Hrun) as Hlen.
  exists info, blocks.
  split; [exact Hinfo|]. split; [exact Hart|]. split; [exact Hlen|].
  intros k tree Hk.
  assert (Hkb : (k < length blocks)%nat).
  { rewrite Hlen. apply nth_error_Some. congruence. }
  destruct (nth_error_in_range blocks k Hkb) as [b Hb].
  exists b. split; [exact Hb|].
  destruct (Hblocks k tree b Hk Hb) as (counts & Hc & Hwalk). split.
  - intros ->. simpl in Hc. injection Hc as <-. split; [assumption|].
    eapply hints_without_counts. exact Hwalk.
  - intros Hnonempty. exists counts.
    split; [destruct annotation; [congruence | exact Hc]|].
    split; [assumption|].
    intros Hcounts. eapply hints_with_counts; eassumption.
Qed.

(** C5, as the code has it: [Export] makes no check of the annotation's
    shape.  With an annotation that has an entry for every tree, each empty
    or readable at the children of its tree's splits, compilation returns an
    artifact whatever the lengths are otherwise, and entries after the last
    tree are ignored: the artifact is the same with them. *)
Theorem annotation_shape_unchecked (R : Renderer) (policy : QuantizePolicy)
        (param : CompilerParam) (read_annotation : string -> result Annotation)
        (model : Model) (annotation : Annotation) :
  valid_model model ->
  annotate_in param <> "NULL"%string ->
  read_annotation (annotate_in param) = Ok annotation ->
  annotation_fits (trees model) annotation ->
  exists fuel0,
    forall fuel, (fuel0 <= fuel)%nat ->
      exists artifact,
        Export R policy param read_annotation fuel model = Ok artifact /\
        forall extra read_longer,
          annotation <> [] ->
          read_longer (annotate_in param) = Ok (annotation ++ extra) ->
          Export R policy param read_longer fuel model = Ok artifact.
Proof.
  intros Hvalid Hne Hread Hfits.
  pose proof (load_annotation_supplied param read_annotation annotation Hne Hread)
    as Hload.
  destruct (Export_spec R policy param read_annotation model annotation true
                        Hvalid Hload Hfits) as [fuel0 Hexport].
  exists fuel0. intros fuel Hfuel.
  destruct (Hexport fuel Hfuel) as (info & blocks & Hinfo & Hrun & Hblocks & Hart).
  eexists. split; [exact Hart|].
  intros extra read_longer Hnonempty Hlonger.
  unfold Export. rewrite Hinfo. simpl.
  rewrite (load_annotation_supplied param read_longer _ Hne Hlonger). simpl.
  rewrite (walk_trees_surplus R policy info annotation fuel extra Hnonempty).
  - rewrite Hrun. reflexivity.
  - intros k Hk. destruct (nth_error_in_range (trees model) k Hk) as [tree Htree].
    destruct (Hfits k tree Htree) as (counts & Hc & _). now exists counts.
Qed.

(** C5 as stated fails on the ensemble of one leaf with an annotation of two
    entries, the first of three counts: neither length is that of the
    ensemble, and [Export] returns an artifact. *)
Lemma mismatched_annotation_compiles :
  length long_annotation <> length (trees leaf_model) /\
  nth_error (map (@length N) long_annotation) 0 <> Some (length tree_B) /\
  Export plain_renderer (NoQuantize plain_renderer)
         {| annotate_in := "counts.json"; quantize_level := 0 |}
         (fun _ => Ok long_annotation) 1 leaf_model
  = Ok (SequenceBlock
          [ PlainBlock
              [ "union Entry {"; "  int missing;"; "  float fvalue;"; "};"; "";
                "#define LIKELY(x)     __builtin_expect(!!(x), 1)";
                "#define UNLIKELY(x)   __builtin_expect(!!(x), 0)" ]%string;
            FunctionBlock "float predict_margin(union Entry* data)"
              (SequenceBlock
                 [ PlainBlock ["float sum = 0.0f;"%string];
                   PlainBlock [];
                   PlainBlock ["sum += 1/2;"%string];
                   PlainBlock ["return sum;"%string] ]) ]).
Proof.
  split; [discriminate|]. split; [discriminate|]. reflexivity.
Qed.

(** A NaN has none of the four places: [quantize] gives it the code of the
    values above the last cut point, and [>] on the codes then differs from
    [>] on the values. *)
Example quantize_of_nan :
  quantize_with three_cuts NaN 0 = Ok 6 /\
  int_cmp kGT 6 (quantized_literal 1) = true /\
  float_cmp kGT NaN (Finite (3 # 2)) = false.
Proof. repeat split. Qed.

(** A feature without cut points is outside the four places: [quantize]
    then reads [array[0]] from the segment of the next feature, or past the
    table when there is none. *)
Example quantize_without_cut_points :
  quantize_with [ []; [Finite (1 # 2)] ] (Finite 1) 0 = Ok 0 /\
  quantize_with [ [Finite (1 # 2)]; [] ] (Finite 1) 1 = Err OutOfRange.
Proof. split; reflexivity. Qed.

(** An annotation shorter than the ensemble is read past its end. *)
Example short_annotation_reads_out_of_range :
  Export plain_renderer (NoQuantize plain_renderer)
         {| annotate_in := "counts.json"; quantize_level := 0 |}
         (fun _ => Ok [counts_left]) 3 scenario_model
  = Err OutOfRange.
Proof. reflexivity. Qed.

(* ===================================================================== *)
(** * The scenario of the specification *)
(* ===================================================================== *)

Lemma tree_A_shape : TreeAt tree_A 0 3.
Proof.
  apply (TreeAt_split tree_A 0 0%nat true kLT (Finite (1 # 2)) 1 2 1 1).
  - reflexivity.
  - apply (TreeAt_leaf tree_A 1 (Finite 1)). reflexivity.
  - apply (TreeAt_leaf tree_A 2 (Finite (-1))). reflexivity.
Qed.

Lemma tree_B_shape : TreeAt tree_B 0 1.
Proof. apply (TreeAt_leaf tree_B 0 (Finite (1 # 2))). reflexivity. Qed.

Lemma index_bound {A : Type} (l : list A) (nid : Z) (a : A) :
  index l nid = Ok a -> 0 <= nid < Z.of_nat (length l).
Proof.
  intros H. apply index_Ok in H. destruct H as [H0 H].
  assert (Z.to_nat nid < length l)%nat by (apply nth_error_Some; congruence).
  lia.
Qed.

Lemma tree_A_split (nid : Z) (i : nat) (dl : bool) (op : Operator)
      (t : tl_float) (l r : Z) :
  index tree_A nid = Ok (Split i dl op t l r) -> nid = 0 /\ l = 1 /\ r = 2.
Proof.
  intros H. pose proof (index_bound _ _ _ H) as Hb. simpl in Hb.
  assert (Hcases : nid = 0 \/ nid = 1 \/ nid = 2) by lia.
  destruct Hcases as [Hn|[Hn|Hn]]; subst nid; try discriminate H.
  injection H as _ _ _ _ Hl Hr. auto.
Qed.

Lemma tree_A_valid : valid_tree 1 tree_A.
Proof.
  split.
  - exists 3%nat. exact tree_A_shape.
  - intros nid node H. pose proof (index_bound _ _ _ H) as Hb. simpl in Hb.
    assert (Hcases : nid = 0 \/ nid = 1 \/ nid = 2) by lia.
    destruct Hcases as [Hn|[Hn|Hn]]; subst nid.
    + constructor.
    + apply (Under_left tree_A 0 0 0%nat true kLT (Finite (1 # 2)) 1 2);
        [constructor | reflexivity].
    + apply (Under_right tree_A 0 0 0%nat true kLT (Finite (1 # 2)) 1 2);
        [constructor | reflexivity].
  - unfold tree_A. constructor; [|constructor; [|constructor; [|constructor]]];
      simpl; auto. split; [lia | discriminate].
Qed.

Lemma tree_B_valid : valid_tree 1 tree_B.
Proof.
  split.
  - exists 1%nat. exact tree_B_shape.
  - intros nid node H. pose proof (index_bound _ _ _ H) as Hb. simpl in Hb.
    assert (nid = 0) as -> by lia. constructor.
  - unfold tree_B. constructor; [exact I | constructor].
Qed.

Lemma scenario_valid : valid_model scenario_model.
Proof.
  split; [simpl; lia|]. simpl.
  constructor; [exact tree_A_valid|]. constructor; [exact tree_B_valid|]. constructor.
Qed.

Lemma leaf_model_valid : valid_model leaf_model.
Proof.
  split; [simpl; lia|]. simpl. constructor; [exact tree_B_valid | constructor].
Qed.

Lemma counts_cover_tree_A (c0 c1 c2 : N) : counts_cover tree_A [c0; c1; c2].
Proof.
  intros nid i dl op t l r H.
  destruct (tree_A_split _ _ _ _ _ _ _ H) as (-> & -> & ->).
  split; [exists c1 | exists c2]; reflexivity.
Qed.

Lemma counts_cover_tree_B (counts : list N) : counts_cover tree_B counts.
Proof.
  intros nid i dl op t l r H. pose proof (index_bound _ _ _ H) as Hb. simpl in Hb.
  assert (nid = 0) as -> by lia. discriminate H.
Qed.

(** The scenario compiled with counts for tree A alone: one conditional,
    hinted left. *)
Example scenario_hints :
  match Export plain_renderer (NoQuantize plain_renderer)
               {| annotate_in := "counts.json"; quantize_level := 0 |}
               (fun _ => Ok [counts_left; []]) 3 scenario_model with
  | Ok artifact => hints artifact
  | Err _ => []
  end = [kLeft].
Proof. reflexivity. Qed.

Lemma empty_annotation_fits (ts : list Tree) : annotation_fits ts [].
Proof. intros k tree _. exists []. split; [reflexivity | now left]. Qed.

Lemma long_annotation_fits : annotation_fits (trees leaf_model) long_annotation.
Proof.
  intros [|k] tree Hk; simpl in Hk.
  - injection Hk as <-. exists [7; 8; 9]%N. split; [reflexivity|].
    right. apply counts_cover_tree_B.
  - destruct k; discriminate.
Qed.

Lemma scenario_annotation_fits :
  annotation_fits (trees scenario_model) scenario_annotation.
Proof.
  intros [|[|k]] tree Hk; simpl in Hk.
  - injection Hk as <-. exists counts_left. split; [reflexivity|].
    right. apply counts_cover_tree_A.
  - injection Hk as <-. exists [6]%N. split; [reflexivity|].
    right. apply counts_cover_tree_B.
  - destruct k; discriminate.
Qed.

(** With a source that holds an empty annotation the macros are defined and
    no conditional is hinted; with the counts of the scenario the
    conditional of tree A is hinted left. *)
Example macros_with_and_without_counts :
  In LIKELY_macro
     (match Export plain_renderer (NoQuantize plain_renderer)
                   {| annotate_in := "counts.json"; quantize_level := 0 |}
                   (fun _ => Ok []) 3 scenario_model with
      | Ok (SequenceBlock (PlainBlock preamble :: _)) => preamble
      | _ => []
      end) /\
  option_map hints
    (match Export plain_renderer (NoQuantize plain_renderer)
                  {| annotate_in := "counts.json"; quantize_level := 0 |}
                  (fun _ => Ok []) 3 scenario_model with
     | Ok artifact => Some artifact
     | Err _ => None
     end) = Some [kNone] /\
  option_map hints
    (match Export plain_renderer (NoQuantize plain_renderer)
                  {| annotate_in := "counts.json"; quantize_level := 0 |}
                  (fun _ => Ok scenario_annotation) 3 scenario_model with
     | Ok artifact => Some artifact
     | Err _ => None
     end) = Some [kLeft].
Proof.
  split; [|split]; [|reflexivity|reflexivity].
  vm_compute. right. right. right. right. right. now left.
Qed.

(* ===================================================================== *)
(** * The theorems at concrete inputs *)
(* ===================================================================== *)


Lemma quantize_returns_code_witness :
  quantize_with three_cuts (Finite 0) 0 = Ok (-10) /\
  quantize_with three_cuts (Finite (3 # 2)) 0 = Ok 2 /\
  quantize_with three_cuts (Finite 3) 0 = Ok 6 /\
  quantize_with three_cuts (Finite 2) 0 = Ok 3.
Proof.
  assert (Hsize : Z.of_nat (length (threshold_table three_cuts)) * 2 <= INT_MAX)
    by (vm_compute; discriminate).
  split; [|split; [|split]].
  - apply (quantize_returns_code three_cuts 0 _ (Finite 0) eq_refl eq_refl Hsize).
    exists (Finite (1 # 2)). split; reflexivity.
  - apply (proj1 (proj2 (quantize_returns_code three_cuts 0 _ (Finite (3 # 2))
                                              eq_refl eq_refl Hsize)) 1%nat).
    exists (Finite (3 # 2)). split; reflexivity.
  - apply (proj1 (proj2 (proj2 (quantize_returns_code three_cuts 0 _ (Finite 3)
                                                     eq_refl eq_refl Hsize)))).
    exists (Finite (5 # 2)). split; reflexivity.
  - apply (proj2 (proj2 (proj2 (quantize_returns_code three_cuts 0 _ (Finite 2)
                                                     eq_refl eq_refl Hsize))) 1%nat).
    exists (Finite (3 # 2)), (Finite (5 # 2)). repeat split; reflexivity.
Defined.

Lemma cut_points_sorted_distinct_complete_witness :
  exists fuel0 cuts,
    (forall fuel, (fuel0 <= fuel)%nat ->
                  ExtractCutPoints fuel scenario_model = Ok cuts) /\
    forall f, Z.of_nat f < num_features scenario_model ->
      exists l,
        nth_error cuts f = Some l /\
        strictly_sorted l = true /\
        (forall j k a b,
            nth_error l j = Some a -> nth_error l k = Some b ->
            feq a b = true -> j = k) /\
        (forall c, In c l -> split_among (trees scenario_model) f c) /\
        (forall t, (exists c, In c l /\ feq c t = true)
                   <-> model_has_threshold scenario_model f t).
Proof.
  exact (cut_points_sorted_distinct_complete scenario_model scenario_valid).
Defined.

Lemma quantized_lookup_succeeds_witness :
  exists fuel0,
    forall fuel, (fuel0 <= fuel)%nat ->
      exists info,
        Metadata_Init fuel scenario_model (QuantizeFlag (Quantize plain_renderer))
        = Ok info /\
        forall tree nid f dl op t l r,
          In tree (trees scenario_model) ->
          index tree nid = Ok (Split f dl op t l r) ->
          exists v loc c,
            index (cut_pts info) (Z.of_nat f) = Ok v /\
            binary_search v t = Some loc /\
            nth_error v loc = Some c /\ feq c t = true /\
            Compile {| sc_split_index := f; sc_default_left := dl; sc_op := op;
                       sc_threshold := t;
                       sc_numeric_adapter :=
                         NumericAdapter (Quantize plain_renderer) info |}
            = Ok (render_condition plain_renderer
                    (condition_expr dl f (QCompare f op (quantized_literal loc)))).
Proof.
  exact (quantized_lookup_succeeds plain_renderer scenario_model scenario_valid).
Defined.

Lemma hint_follows_counts_witness :
  exists cond lb rb d,
    WalkTree_ plain_renderer (NoQuantize plain_renderer) 3
              {| info_num_features := 1; cut_pts := [] |} tree_A counts_left 0
    = Ok (IfElseBlock cond lb rb d) /\
    (forall cl cr,
        counts_left <> [] ->
        index counts_left 1 = Ok cl -> index counts_left 2 = Ok cr ->
        ((cr < cl)%N -> d = kLeft) /\ ((cl < cr)%N -> d = kRight)) /\
    (counts_left = [] ->
     d = kNone /\ Forall (eq kNone) (hints (IfElseBlock cond lb rb d))).
Proof.
  apply (hint_follows_counts
           plain_renderer (NoQuantize plain_renderer)
           {| info_num_features := 1; cut_pts := [] |} tree_A counts_left 0
           3 2 0 true kLT (Finite (1 # 2)) 1 2).
  - exact tree_A_shape.
  - apply le_n.
  - right. apply counts_cover_tree_A.
  - reflexivity.
Defined.

Lemma tie_marks_right_witness :
  exists cond lb rb d,
    WalkTree_ plain_renderer (NoQuantize plain_renderer) 3
              {| info_num_features := 1; cut_pts := [] |} tree_A counts_tie 0
    = Ok (IfElseBlock cond lb rb d) /\
    d <> kNone /\
    (forall c, index counts_tie 1 = Ok c -> index counts_tie 2 = Ok c -> d = kRight).
Proof.
  apply (tie_marks_right
           plain_renderer (NoQuantize plain_renderer)
           {| info_num_features := 1; cut_pts := [] |} tree_A counts_tie 0
           3 2 0 true kLT (Finite (1 # 2)) 1 2).
  - exact tree_A_shape.
  - apply le_n.
  - discriminate.
  - apply counts_cover_tree_A.
  - reflexivity.
Defined.

Lemma missing_value_routing_witness :
  exists cond lb rb d,
    WalkTree_ plain_renderer (NoQuantize plain_renderer) 3
              {| info_num_features := 1; cut_pts := [] |} tree_A [] 0
    = Ok (IfElseBlock cond lb rb d) /\
    WalkTree_ plain_renderer (NoQuantize plain_renderer) 2
              {| info_num_features := 1; cut_pts := [] |} tree_A [] 1 = Ok lb /\
    WalkTree_ plain_renderer (NoQuantize plain_renderer) 2
              {| info_num_features := 1; cut_pts := [] |} tree_A [] 2 = Ok rb /\
    Compile cond
    = Ok (render_condition plain_renderer
            (MissingOr 0 (FCompare 0 kLT (Finite (1 # 2))))) /\
    eval_condition plain_renderer c_target [missing_entry]
                   (MissingOr 0 (FCompare 0 kLT (Finite (1 # 2))))
    = Ok true /\
    branch_taken true (IfElseBlock cond lb rb d) = Some lb.
Proof.
  apply (missing_value_routing
           plain_renderer c_target (NoQuantize plain_renderer)
           {| info_num_features := 1; cut_pts := [] |} tree_A [] 0
           3 2 0 true kLT (Finite (1 # 2)) 1 2
           (FCompare 0 kLT (Finite (1 # 2))) [missing_entry] missing_entry).
  - exact tree_A_shape.
  - apply le_n.
  - now left.
  - reflexivity.
  - reflexivity.
  - reflexivity.
  - reflexivity.
Defined.


Lemma annotate_in_sets_macros_witness :
  exists fuel0,
    forall fuel, (fuel0 <= fuel)%nat ->
      exists info blocks,
        Metadata_Init fuel scenario_model
                      (QuantizeFlag (NoQuantize plain_renderer)) = Ok info /\
        Export plain_renderer (NoQuantize plain_renderer)
               {| annotate_in := "counts.json"; quantize_level := 0 |}
               (fun _ => Ok scenario_annotation) fuel scenario_model
        = Ok (SequenceBlock
                [ PlainBlock (Preamble (NoQuantize plain_renderer) info
                              ++ [""%string] ++ [LIKELY_macro; UNLIKELY_macro]);
                  FunctionBlock "float predict_margin(union Entry* data)"
                    (SequenceBlock
                       ([ PlainBlock ["float sum = 0.0f;"%string];
                          PlainBlock
                            (Preprocessing (NoQuantize plain_renderer) info) ]
                        ++ blocks
                        ++ [ PlainBlock ["return sum;"%string] ])) ]) /\
        length blocks = length (trees scenario_model) /\
        forall k tree,
          nth_error (trees scenario_model) k = Some tree ->
          exists b,
            nth_error blocks k = Some b /\
            (scenario_annotation = [] ->
             WalkTree plain_renderer (NoQuantize plain_renderer) fuel info tree []
             = Ok b /\
             Forall (eq kNone) (hints b)) /\
            (scenario_annotation <> [] ->
             exists counts,
               index scenario_annotation (Z.of_nat k) = Ok counts /\
               WalkTree plain_renderer (NoQuantize plain_renderer) fuel info
                        tree counts
               = Ok b /\
               (counts <> [] -> Forall (fun d => d <> kNone) (hints b))).
Proof.
  apply (annotate_in_sets_macros
           plain_renderer (NoQuantize plain_renderer)
           {| annotate_in := "counts.json"; quantize_level := 0 |}
           (fun _ => Ok scenario_annotation) scenario_model scenario_annotation).
  - exact scenario_valid.
  - simpl. discriminate.
  - reflexivity.
  - exact scenario_annotation_fits.
Defined.

Lemma annotation_shape_unchecked_witness :
  exists fuel0,
    forall fuel, (fuel0 <= fuel)%nat ->
      exists artifact,
        Export plain_renderer (NoQuantize plain_renderer)
               {| annotate_in := "counts.json"; quantize_level := 0 |}
               (fun _ => Ok long_annotation) fuel leaf_model
        = Ok artifact /\
        forall extra read_longer,
          long_annotation <> [] ->
          read_longer "counts.json"%string = Ok (long_annotation ++ extra) ->
          Export plain_renderer (NoQuantize plain_renderer)
                 {| annotate_in := "counts.json"; quantize_level := 0 |}
                 read_longer fuel leaf_model
          = Ok artifact.
Proof.
  apply (annotation_shape_unchecked
           plain_renderer (NoQuantize plain_renderer)
           {| annotate_in := "counts.json"; quantize_level := 0 |}
           (fun _ => Ok long_annotation) leaf_model long_annotation).
  - exact leaf_model_valid.
  - simpl. discriminate.
  - reflexivity.
  - exact long_annotation_fits.
Defined.

(* ===================================================================== *)
(** * The quantized conditions on a preprocessed record *)
(* ===================================================================== *)

Lemma nth_error_last_cons {A : Type} (a : A) (rest : list A) :
  rest <> [] ->
  nth_error (a :: rest) (length (a :: rest) - 1) = nth_error rest (length rest - 1).
Proof.
  intros Hne. destruct rest as [|b rest']; [congruence|].
  simpl. now rewrite Nat.sub_0_r.
Qed.

Lemma placed_of_number (arr : list tl_float) (v : tl_float) :
  arr <> [] -> numbers arr -> strictly_sorted arr = true -> v <> NaN ->
  placed arr v.
Proof.
  intros Hne Hnum Hs Hv. induction arr as [|a rest IH]; [congruence|].
  inversion Hnum as [|a' rest' Ha Hrest]; subst.
  destruct (float_trichotomy v a Hv Ha) as [Hlt|[Heq|Hgt]].
  - left. exists a. split; [reflexivity | assumption].
  - right. left. exists 0%nat, a. split; [reflexivity | assumption].
  - destruct rest as [|b rest'] eqn:Erest.
    + right. right. right. exists a. split; [reflexivity | assumption].
    + rewrite <- Erest in *.
      assert (Hrne : rest <> []) by (rewrite Erest; discriminate).
      pose proof (strictly_sorted_tail _ _ Hs) as Hs'.
      destruct (IH Hrne Hrest Hs') as [Hb | [[i Ho] | [[i Hbt] | Hab]]].
      * destruct Hb as (b0 & Hb0 & Hvb). right. right. left.
        exists 0%nat, a, b0. repeat split; assumption.
      * destruct Ho as (ai & Hi & Hvi). right. left.
        exists (S i), ai. split; assumption.
      * destruct Hbt as (ai & aj & Hi & Hj & Hlo & Hhi). right. right. left.
        exists (S i), ai, aj. repeat split; assumption.
      * destruct Hab as (al & Hl & Hlv). right. right. right.
        exists al. split; [|assumption].
        now rewrite nth_error_last_cons.
Qed.

(** ** The cut points as the generated file holds them *)




(** Two lists of lists with the same lengths have the same [th_begin] and
    [th_len], and tables of the same length. *)
Lemma same_shape_tables {P : tl_float -> tl_float -> Prop} :
  forall cp cp',
    Forall2 (Forall2 P) cp cp' ->
    (forall accum, accum_from accum cp' = accum_from accum cp) /\
    th_len_table cp' = th_len_table cp /\
    length (threshold_table cp') = length (threshold_table cp).
Proof.
  unfold th_len_table, threshold_table.
  induction 1 as [|e e' rest rest' He Hrest IH].
  - repeat split.
  - destruct IH as (Hacc & Hlen & Htab).
    pose proof (Forall2_length He) as Hl.
    split; [|split].
    + intros accum. cbn [accum_from]. now rewrite Hl, Hacc.
    + cbn [map]. now rewrite Hl, Hlen.
    + cbn [concat]. rewrite !length_app. lia.
Qed.


Lemma Forall2_nth_error {A B : Type} (P : A -> B -> Prop) :
  forall a b, Forall2 P a b ->
    forall k y, nth_error b k = Some y ->
                exists x, nth_error a k = Some x /\ P x y.
Proof.
  induction 1 as [|x0 y0 a b Hxy Hab IH]; intros k y Hk.
  - destruct k; discriminate.
  - destruct k as [|k]; cbn [nth_error] in *.
    + injection Hk as <-. eauto.
    + now apply IH.
Qed.

Lemma same_values_sorted :
  forall arr' arr,
    Forall2 (fun c' c => feq c' c = true) arr' arr ->
    strictly_sorted arr = true -> strictly_sorted arr' = true.
Proof.
  induction 1 as [|a' a rest' rest Ha Hrest IH]; [reflexivity|].
  intros Hs. destruct Hrest as [|b' b rest2' rest2 Hb Hrest2]; [reflexivity|].
  change (flt a b && strictly_sorted (b :: rest2) = true) in Hs.
  apply andb_true_iff in Hs. destruct Hs as [Hab Hs].
  change (flt a' b' && strictly_sorted (b' :: rest2') = true).
  apply andb_true_iff. split.
  - now rewrite (feq_flt_l a' a b' Ha), (feq_flt_r b' b a Hb).
  - apply IH. exact Hs.
Qed.

Lemma same_values_placed (arr' arr : list tl_float) (v : tl_float) :
  Forall2 (fun c' c => feq c' c = true) arr' arr ->
  placed arr v -> placed arr' v.
Proof.
  intros same. pose proof (Forall2_length same) as Hlen.
  intros [Hb | [[i Ho] | [[i Hbt] | Ha]]].
  - destruct Hb as (a0 & H0 & Hlt).
    destruct (Forall2_nth_error _ _ _ same 0%nat a0 H0) as (a0' & H0' & Heq).
    left. exists a0'. split; [assumption|].
    now rewrite (feq_flt_r a0' a0 v Heq).
  - destruct Ho as (ai & Hi & Hv).
    destruct (Forall2_nth_error _ _ _ same i ai Hi) as (ai' & Hi' & Heq).
    right. left. exists i, ai'. split; [assumption|].
    apply (feq_trans v ai ai' Hv). now rewrite feq_sym.
  - destruct Hbt as (ai & aj & Hi & Hj & Hlo & Hhi).
    destruct (Forall2_nth_error _ _ _ same i ai Hi) as (ai' & Hi' & Heqi).
    destruct (Forall2_nth_error _ _ _ same (S i) aj Hj) as (aj' & Hj' & Heqj).
    right. right. left. exists i, ai', aj'.
    split; [assumption|]. split; [assumption|]. split.
    + now rewrite (feq_flt_l ai' ai v Heqi).
    + now rewrite (feq_flt_r aj' aj v Heqj).
  - destruct Ha as (al & Hl & Hlt).
    destruct (Forall2_nth_error _ _ _ same _ al Hl) as (al' & Hl' & Heq).
    right. right. right. exists al'. rewrite Hlen. split; [assumption|].
    now rewrite (feq_flt_l al' al v Heq).
Qed.

Lemma record_placed_held (cp' cp : list (list tl_float)) (data : list Entry) :
  Forall2 (Forall2 (fun c' c => feq c' c = true)) cp' cp ->
  record_placed cp data -> record_placed cp' data.
Proof.
  intros Hsame [Hlen Hslots]. split.
  - rewrite Hlen. symmetry. exact (Forall2_length Hsame).
  - intros j e He.
    destruct (Hslots j e He) as [Hm|(v & arr & Hv & Harr & Hs & Hp)]; [now left|].
    destruct (Forall2_nth_error _ _ _ Hsame j arr Harr) as (arr' & Harr' & Heq).
    right. exists v, arr'. split; [assumption|]. split; [assumption|].
    split; [eapply same_values_sorted | eapply same_values_placed]; eassumption.
Qed.

(** [quantize] over the tables of the generated file, when they hold the
    cut points without loss: the code compares with [p * 2] as the value
    does with the cut point of index [p]. *)
Lemma generated_quantize_placed (R : Renderer) (C : CTarget)
      (cp cp' : list (list tl_float)) (fid : nat) (arr : list tl_float)
      (v : tl_float) :
  held_exactly R C cp cp' ->
  nth_error cp fid = Some arr ->
  strictly_sorted arr = true ->
  Z.of_nat (length (threshold_table cp)) * 2 <= INT_MAX ->
  placed arr v ->
  exists code,
    quantize_with cp' v fid = Ok code /\
    code <> -1 /\
    forall p t, nth_error arr p = Some t ->
                fcompare v t = Some (code ?= Z.of_nat p * 2).
Proof.
  intros [_ Hsame] Hf Hs Hsize Hplaced.
  destruct (Forall2_nth_error _ _ _ Hsame fid arr Hf) as (arr' & Hf' & Heq).
  destruct (same_shape_tables _ _ Hsame) as (_ & _ & Hlen).
  destruct (quantize_placed cp' fid arr' v Hf'
              (same_values_sorted arr' arr Heq Hs)
              ltac:(rewrite <- Hlen; exact Hsize)
              (same_values_placed arr' arr v Heq Hplaced))
    as (code & Hrun & Hne & Hcmp).
  exists code. split; [assumption|]. split; [assumption|].
  intros p t Hp.
  destruct (Forall2_nth_error _ _ _ Heq p t Hp) as (t' & Hp' & Ht).
  rewrite <- (Hcmp p t' Hp'). symmetry.
  apply fcompare_eq_r. now apply feq_spec.
Qed.

(** X1: when the tables of the generated file hold the cut points without
    loss, the four places leave no number out.  Among sorted cut points
    that are numbers, a value that is a number is below the first, on one,
    between two neighbours or above the last; so [quantize], run on the
    tables of the file, gives every number a code, which is not the missing
    marker -1 and which compares with [p * 2] as the number compares with
    the cut point of index [p]. *)
Theorem quantize_codes_every_number (R : Renderer) (C : CTarget)
        (cp cp' : list (list tl_float)) (fid : nat)
        (arr : list tl_float) (v : tl_float) :
  held_exactly R C cp cp' ->
  nth_error cp fid = Some arr ->
  arr <> [] -> numbers arr -> strictly_sorted arr = true ->
  Z.of_nat (length (threshold_table cp)) * 2 <= INT_MAX ->
  v <> NaN ->
  placed arr v /\
  exists code,
    quantize_with cp' v fid = Ok code /\
    code <> -1 /\
    forall p t op,
      nth_error arr p = Some t ->
      int_cmp op code (quantized_literal p) = float_cmp op v t.
Proof.
  intros Hheld Hf Hne Hnum Hs Hsize Hv.
  pose proof (placed_of_number arr v Hne Hnum Hs Hv) as Hplaced.
  split; [assumption|].
  destruct (generated_quantize_placed R C cp cp' fid arr v Hheld Hf Hs Hsize Hplaced)
    as (code & Hrun & Hcode & Hcmp).
  exists code. split; [assumption|]. split; [assumption|].
  intros p t op Hp.
  assert (Hplen : (p < length arr)%nat) by (apply nth_error_Some; congruence).
  assert (Hfit : Z.of_nat (length arr) * 2 <= INT_MAX).
  { pose proof (segment_in_table cp fid arr Hf). unfold threshold_table in Hsize. lia. }
  rewrite (quantized_literal_small arr p Hplen Hfit).
  apply cmp_agree. now apply Hcmp.
Qed.

Lemma three_cuts_held : held_exactly stream_renderer c_target three_cuts three_cuts.
Proof.
  split; [reflexivity|]. repeat constructor.
Qed.

Lemma quantize_codes_every_number_witness :
  placed [Finite (1 # 2); Finite (3 # 2); Finite (5 # 2)] (Finite 2) /\
  exists code,
    quantize_with three_cuts (Finite 2) 0 = Ok code /\
    code <> -1 /\
    forall p t op,
      nth_error [Finite (1 # 2); Finite (3 # 2); Finite (5 # 2)] p = Some t ->
      int_cmp op code (quantized_literal p) = float_cmp op (Finite 2) t.
Proof.
  apply (quantize_codes_every_number stream_renderer c_target three_cuts three_cuts 0).
  - exact three_cuts_held.
  - reflexivity.
  - discriminate.
  - repeat constructor; discriminate.
  - reflexivity.
  - vm_compute. discriminate.
  - discriminate.
Defined.

Lemma nth_error_update {A : Type} (l : list A) :
  forall i x j,
    (i < length l)%nat ->
    nth_error (firstn i l ++ x :: skipn (S i) l) j
    = if (j =? i)%nat then Some x else nth_error l j.
Proof.
  induction l as [|a l' IH]; intros i x j Hi; simpl in Hi; [lia|].
  destruct i as [|i']; destruct j as [|j']; simpl; try reflexivity.
  apply IH. lia.
Qed.

Lemma length_update {A : Type} (l : list A) (i : nat) (x : A) :
  (i < length l)%nat -> length (firstn i l ++ x :: skipn (S i) l) = length l.
Proof.
  intros Hi. rewrite length_app. cbn [length].
  rewrite length_firstn, length_skipn. lia.
Qed.

Section Preprocessing.

Variable cp : list (list tl_float).
Variable data0 : list Entry.

Hypothesis tables_fit : Z.of_nat (length (threshold_table cp)) * 2 <= INT_MAX.
Hypothesis record_ok : record_placed cp data0.

(** The loop from feature [i] on, given that the slots before [i] are done
    and the others untouched. *)
Lemma preprocess_from_spec :
  forall n i data,
    (i + n = length data0)%nat ->
    length data = length data0 ->
    (forall j e, (j < i)%nat -> nth_error data0 j = Some e ->
                 exists e', nth_error data j = Some e' /\ quantized_slot cp j e e') ->
    (forall j, (i <= j)%nat -> nth_error data j = nth_error data0 j) ->
    exists data',
      preprocess_from cp i n data = Ok data' /\
      length data' = length data0 /\
      forall j e, nth_error data0 j = Some e ->
                  exists e', nth_error data' j = Some e' /\ quantized_slot cp j e e'.
Proof.
  destruct record_ok as [Hlen Hslots].
  induction n as [|n IH]; intros i data Hin Hdlen Hdone Hrest.
  - exists data. split; [reflexivity|]. split; [assumption|].
    intros j e Hj. apply Hdone; [|assumption].
    assert (j < length data0)%nat by (apply nth_error_Some; congruence). lia.
  - destruct (nth_error_in_range data0 i ltac:(lia)) as [e He].
    assert (Hdi : nth_error data i = Some e) by (rewrite Hrest; [assumption | lia]).
    cbn [preprocess_from]. rewrite index_of_nat, Hdi. cbn [bind].
    assert (Hstep :
              exists e',
                (if is_present e
                 then v <- read_fvalue e ;;
                      q <- quantize_with cp v i ;;
                      Ok (firstn i data ++ IntSlot q :: skipn (S i) data)
                 else Ok data)
                = Ok (firstn i data ++ e' :: skipn (S i) data) /\
                quantized_slot cp i e e').
    { destruct (Hslots i e He) as [->|(v & arr & -> & Harr & Hs & Hp)].
      - exists missing_entry. split; [|left; auto].
        change (is_present missing_entry) with false. cbv iota. f_equal.
        symmetry. apply nth_error_ext. intros j.
        rewrite nth_error_update by lia.
        destruct (Nat.eqb_spec j i) as [->|Hne]; [now rewrite Hdi | reflexivity].
      - destruct (quantize_placed cp i arr v Harr Hs tables_fit Hp)
          as (code & Hrun & _ & _).
        exists (IntSlot code). split; [|right; exists v, code; auto].
        cbn [is_present read_fvalue bind]. rewrite Hrun. reflexivity. }
    destruct Hstep as (e' & -> & Hq). cbn [bind].
    apply IH.
    + lia.
    + rewrite length_update; lia.
    + intros j ej Hj Hej. rewrite nth_error_update by lia.
      destruct (Nat.eqb_spec j i) as [->|Hne].
      * exists e'. split; [reflexivity|]. congruence.
      * apply Hdone; [lia | assumption].
    + intros j Hj. rewrite nth_error_update by lia.
      destruct (Nat.eqb_spec j i) as [->|Hne]; [lia|]. apply Hrest. lia.
Qed.

End Preprocessing.

(** The value of a quantized condition on a record whose slots went through
    the preprocessing loop over the tables of [cp]. *)
Lemma quantized_condition_value (R : Renderer) (C : CTarget)
      (cp : list (list tl_float)) (data data' : list Entry) :
  Z.of_nat (length (threshold_table cp)) * 2 <= INT_MAX ->
  record_placed cp data ->
  (forall j e, nth_error data j = Some e ->
               exists e', nth_error data' j = Some e' /\ quantized_slot cp j e e') ->
  forall f arr p t e dl op,
    nth_error cp f = Some arr -> nth_error arr p = Some t ->
    nth_error data f = Some e ->
    eval_condition R C data'
                   (condition_expr dl f (QCompare f op (quantized_literal p)))
    = goes_left dl op t e.
Proof.
  intros Hfit [Hlen Hslots] Hall f arr p t e dl op Harr Hp He.
  destruct (Hall f e He) as (e' & He' & Hq).
  rewrite (eval_condition_expr R C data' dl f _ e');
    [|rewrite index_of_nat, He'; reflexivity].
  destruct Hq as [[-> ->] | (v & code & -> & Hcode & ->)]; [reflexivity|].
  destruct (Hslots f _ He) as [Hmiss|(v' & arr' & Hv & Harr' & Hs & Hpl)];
    [discriminate|].
  injection Hv as <-. rewrite Harr in Harr'. injection Harr' as <-.
  destruct (quantize_placed cp f arr v Harr Hs Hfit Hpl)
    as (code' & Hrun' & Hne & Hcmp).
  rewrite Hcode in Hrun'. injection Hrun' as <-.
  assert (Hplen : (p < length arr)%nat) by (apply nth_error_Some; congruence).
  assert (Hafit : Z.of_nat (length arr) * 2 <= INT_MAX).
  { pose proof (segment_in_table cp f arr Harr). unfold threshold_table in Hfit. lia. }
  rewrite (quantized_literal_small arr p Hplen Hafit).
  unfold goes_left. simpl.
  replace (code =? -1) with false by (symmetry; apply Z.eqb_neq; assumption).
  simpl. rewrite index_of_nat, He'. simpl. f_equal.
  apply cmp_agree. now apply Hcmp.
Qed.


(** X2: when the tables of the generated file hold the cut points without
    loss, then on a record whose values have places among the cut points the
    preprocessing loop of the file returns, and every quantized condition,
    the comparison of the slot's code with [p * 2] for the threshold at
    position [p], has on the preprocessed record the value that sends the
    original record left: [default_left] for a missing feature,
    [value op threshold] for a value. *)
Theorem preprocessed_condition_routes (R : Renderer) (C : CTarget)
        (cp cp' : list (list tl_float)) (data : list Entry) :
  held_exactly R C cp cp' ->
  Z.of_nat (length (threshold_table cp)) * 2 <= INT_MAX ->
  record_placed cp data ->
  exists data',
    preprocess_from cp' 0 (length cp) data = Ok data' /\
    forall f arr p t e dl op,
      nth_error cp f = Some arr -> nth_error arr p = Some t ->
      nth_error data f = Some e ->
      eval_condition R C data'
                     (condition_expr dl f (QCompare f op (quantized_literal p)))
      = goes_left dl op t e.
Proof.
  intros [Hgen Hsame] Hfit Hrec.
  assert (Hrec' : record_placed cp' data) by (eapply record_placed_held; eassumption).
  assert (Hfit' : Z.of_nat (length (threshold_table cp')) * 2 <= INT_MAX).
  { destruct (same_shape_tables _ _ Hsame) as (_ & _ & <-). exact Hfit. }
  rewrite <- (Forall2_length Hsame).
  destruct (preprocess_from_spec cp' data Hfit' Hrec' (length cp') 0 data)
    as (data' & Hrun & _ & Hall).
  - destruct Hrec' as [Hdlen _]. lia.
  - reflexivity.
  - intros j e Hj. lia.
  - reflexivity.
  - exists data'. split; [assumption|].
    intros f arr p t e dl op Harr Hp He.
    destruct (Forall2_nth_error _ _ _ Hsame f arr Harr) as (arr' & Harr' & Heq).
    destruct (Forall2_nth_error _ _ _ Heq p t Hp) as (t' & Hp' & Ht).
    transitivity (goes_left dl op t' e); [|now apply goes_left_feq].
    eapply quantized_condition_value; eassumption.
Qed.

Lemma preprocessed_condition_routes_witness :
  exists data',
    preprocess_from three_cuts 0 (length three_cuts) [FloatSlot (Finite 2)]
    = Ok data' /\
    forall f arr p t e dl op,
      nth_error three_cuts f = Some arr -> nth_error arr p = Some t ->
      nth_error [FloatSlot (Finite 2)] f = Some e ->
      eval_condition stream_renderer c_target data'
                     (condition_expr dl f (QCompare f op (quantized_literal p)))
      = goes_left dl op t e.
Proof.
  apply (preprocessed_condition_routes stream_renderer c_target three_cuts three_cuts).
  - exact three_cuts_held.
  - vm_compute. discriminate.
  - split; [reflexivity|].
    intros [|j] e He; simpl in He; [|destruct j; discriminate].
    injection He as <-. right.
    exists (Finite 2), [Finite (1 # 2); Finite (3 # 2); Finite (5 # 2)].
    split; [reflexivity|]. split; [reflexivity|]. split; [reflexivity|].
    right. right. left. exists 1%nat, (Finite (3 # 2)), (Finite (5 # 2)).
    repeat split; reflexivity.
Defined.

(* ===================================================================== *)
(** * More on [Export] and the tree walker *)
(* ===================================================================== *)

Lemma WalkTree__more_fuel (R : Renderer) (policy : QuantizePolicy)
      (info : Metadata) (tree : Tree) (counts : list N) :
  forall fuel nid b,
    WalkTree_ R policy fuel info tree counts nid = Ok b ->
    forall k, WalkTree_ R policy (fuel + k) info tree counts nid = Ok b.
Proof.
  induction fuel as [|fuel IH]; intros nid b H k; [discriminate|].
  change (S fuel + k)%nat with (S (fuel + k)).
  rewrite WalkTree__eq in *.
  destruct (index tree nid) as [node|e]; [|discriminate]. cbn [bind] in *.
  destruct node as [v|i dl op t l r]; [assumption|].
  destruct (likely_direction_of counts l r) as [d|e]; [|discriminate].
  cbn [bind] in *.
  destruct (WalkTree_ R policy fuel info tree counts l) as [lb|e] eqn:El;
    [|discriminate].
  cbn [bind] in H.
  destruct (WalkTree_ R policy fuel info tree counts r) as [rb|e] eqn:Er;
    [|discriminate].
  rewrite (IH l lb El k), (IH r rb Er k). exact H.
Qed.

(** X3: the walk returns only on a finite tree, with a block of one
    conditional per split, every one hinted when there are counts, and more
    fuel gives the same block. *)
Theorem walk_returns_on_finite_trees (R : Renderer) (policy : QuantizePolicy)
        (info : Metadata) (tree : Tree) (counts : list N) :
  forall fuel nid b,
    WalkTree_ R policy fuel info tree counts nid = Ok b ->
    (exists size,
        TreeAt tree nid size /\ (length (hints b) * 2 + 1)%nat = size) /\
    (counts <> [] -> Forall (fun d => d <> kNone) (hints b)) /\
    (forall k, WalkTree_ R policy (fuel + k) info tree counts nid = Ok b).
Proof.
  intros fuel nid b H. split; [|split].
  - revert nid b H. induction fuel as [|fuel IH]; intros nid b H; [discriminate|].
    rewrite WalkTree__eq in H.
    destruct (index tree nid) as [node|e] eqn:Enode; [|discriminate].
    cbn [bind] in H. destruct node as [v|i dl op t l r].
    + injection H as <-. exists 1%nat. split; [|reflexivity].
      eapply TreeAt_leaf. exact Enode.
    + destruct (likely_direction_of counts l r) as [d|e]; [|discriminate].
      cbn [bind] in H.
      destruct (WalkTree_ R policy fuel info tree counts l) as [lb|e] eqn:El;
        [|discriminate].
      cbn [bind] in H.
      destruct (WalkTree_ R policy fuel info tree counts r) as [rb|e] eqn:Er;
        [|discriminate].
      cbn [bind] in H. injection H as <-.
      destruct (IH l lb El) as (a & Ha & Hla).
      destruct (IH r rb Er) as (c & Hc & Hlc).
      exists (S (a + c)). split.
      * eapply TreeAt_split; eassumption.
      * cbn [hints length]. rewrite length_app. lia.
  - intros Hne. revert nid b H.
    induction fuel as [|fuel IH]; intros nid b H; [discriminate|].
    rewrite WalkTree__eq in H.
    destruct (index tree nid) as [node|e]; [|discriminate].
    cbn [bind] in H. destruct node as [v|i dl op t l r].
    + injection H as <-. constructor.
    + destruct (likely_direction_of counts l r) as [d|e] eqn:Ed; [|discriminate].
      cbn [bind] in H.
      destruct (WalkTree_ R policy fuel info tree counts l) as [lb|e] eqn:El;
        [|discriminate].
      cbn [bind] in H.
      destruct (WalkTree_ R policy fuel info tree counts r) as [rb|e] eqn:Er;
        [|discriminate].
      cbn [bind] in H. injection H as <-. cbn [hints].
      constructor.
      * unfold likely_direction_of in Ed. destruct counts as [|c0 rest]; [congruence|].
        destruct (index (c0 :: rest) l) as [cl|e]; [|discriminate].
        destruct (index (c0 :: rest) r) as [cr|e]; [|discriminate].
        cbn [bind] in Ed. injection Ed as <-. destruct (cr <? cl)%N; discriminate.
      * apply Forall_app. split; eapply IH; eassumption.
  - now apply WalkTree__more_fuel.
Qed.

Lemma walk_returns_on_finite_trees_witness :
  (exists size,
      TreeAt tree_A 0 size /\
      (length (hints (IfElseBlock
                        {| sc_split_index := 0; sc_default_left := true;
                           sc_op := kLT; sc_threshold := Finite (1 # 2);
                           sc_numeric_adapter :=
                             NumericAdapter (NoQuantize plain_renderer)
                               {| info_num_features := 1; cut_pts := [] |} |}
                        (PlainBlock ["sum += 1/1;"%string])
                        (PlainBlock ["sum += -1/1;"%string]) kLeft)) * 2 + 1)%nat
      = size) /\
  (counts_left <> [] ->
   Forall (fun d => d <> kNone)
          (hints (IfElseBlock
                    {| sc_split_index := 0; sc_default_left := true;
                       sc_op := kLT; sc_threshold := Finite (1 # 2);
                       sc_numeric_adapter :=
                         NumericAdapter (NoQuantize plain_renderer)
                           {| info_num_features := 1; cut_pts := [] |} |}
                    (PlainBlock ["sum += 1/1;"%string])
                    (PlainBlock ["sum += -1/1;"%string]) kLeft))) /\
  (forall k,
      WalkTree_ plain_renderer (NoQuantize plain_renderer) (2 + k)
                {| info_num_features := 1; cut_pts := [] |} tree_A counts_left 0
      = Ok (IfElseBlock
              {| sc_split_index := 0; sc_default_left := true;
                 sc_op := kLT; sc_threshold := Finite (1 # 2);
                 sc_numeric_adapter :=
                   NumericAdapter (NoQuantize plain_renderer)
                     {| info_num_features := 1; cut_pts := [] |} |}
              (PlainBlock ["sum += 1/1;"%string])
              (PlainBlock ["sum += -1/1;"%string]) kLeft)).
Proof.
  apply (walk_returns_on_finite_trees
           plain_renderer (NoQuantize plain_renderer)
           {| info_num_features := 1; cut_pts := [] |} tree_A counts_left 2 0).
  reflexivity.
Defined.

Lemma walk_trees_unannotated (R : Renderer) (policy : QuantizePolicy)
      (info : Metadata) (fuel : nat) :
  forall ts tree_id blocks,
    walk_trees R policy fuel info [] tree_id ts = Ok blocks ->
    length blocks = length ts /\
    Forall (fun b => Forall (eq kNone) (hints b)) blocks.
Proof.
  induction ts as [|tree rest IH]; intros tree_id blocks H.
  - injection H as <-. split; [reflexivity | constructor].
  - cbn [walk_trees counts_of bind] in H. unfold WalkTree in H.
    destruct (WalkTree_ R policy fuel info tree [] 0) as [b|e] eqn:Eb; [|discriminate].
    cbn [bind] in H.
    destruct (walk_trees R policy fuel info [] (S tree_id) rest) as [bs|e] eqn:Ebs;
      [|discriminate].
    cbn [bind] in H. injection H as <-.
    destruct (IH _ _ Ebs) as [Hlen Hall]. split; [simpl; congruence|].
    constructor; [|assumption]. eapply hints_without_counts. exact Eb.
Qed.

Lemma load_annotation_null (param : CompilerParam)
      (read_annotation : string -> result Annotation) :
  annotate_in param = "NULL"%string ->
  load_annotation param read_annotation = Ok ([], false).
Proof.
  intros H. unfold load_annotation. now rewrite H.
Qed.

(** X4: with [annotate_in] set to "NULL" the annotation stream is never
    read: the result is the same whatever the stream holds, and an artifact
    has the preamble of the policy followed by one empty line and no macro
    line, one block per tree, and no hint anywhere; on a well-formed
    ensemble an artifact is returned. *)
Theorem export_without_annotation (R : Renderer) (policy : QuantizePolicy)
        (param : CompilerParam) (model : Model) :
  annotate_in param = "NULL"%string ->
  (forall fuel read1 read2,
      Export R policy param read1 fuel model = Export R policy param read2 fuel model) /\
  (forall fuel read_annotation artifact,
      Export R policy param read_annotation fuel model = Ok artifact ->
      exists info blocks,
        Metadata_Init fuel model (QuantizeFlag policy) = Ok info /\
        artifact
        = SequenceBlock
            [ PlainBlock (Preamble policy info ++ [""%string]);
              FunctionBlock "float predict_margin(union Entry* data)"
                (SequenceBlock
                   ([ PlainBlock ["float sum = 0.0f;"%string];
                      PlainBlock (Preprocessing policy info) ]
                    ++ blocks
                    ++ [ PlainBlock ["return sum;"%string] ])) ] /\
        length blocks = length (trees model) /\
        Forall (eq kNone) (hints artifact)) /\
  (valid_model model ->
   exists fuel0,
     forall fuel read_annotation, (fuel0 <= fuel)%nat ->
       exists artifact, Export R policy param read_annotation fuel model = Ok artifact).
Proof.
  intros Hnull. split; [|split].
  - intros fuel read1 read2. unfold Export.
    now rewrite !(load_annotation_null _ _ Hnull).
  - intros fuel read_annotation artifact H. unfold Export in H.
    destruct (Metadata_Init fuel model (QuantizeFlag policy)) as [info|e] eqn:Einfo;
      [|discriminate].
    cbn [bind] in H. rewrite (load_annotation_null _ _ Hnull) in H.
    cbn [bind fst snd] in H.
    destruct (walk_trees R policy fuel info [] 0 (trees model)) as [blocks|e] eqn:Eb;
      [|discriminate].
    cbn [bind] in H. injection H as <-.
    destruct (walk_trees_unannotated R policy info fuel _ _ _ Eb) as [Hlen Hall].
    exists info, blocks. split; [reflexivity|]. split.
    + reflexivity.
    + split; [assumption|].
      cbn [hints flat_map app]. rewrite app_nil_r.
      rewrite Forall_flat_map. apply Forall_app. split; [assumption|].
      constructor; [constructor | constructor].
  - intros Hvalid.
    destruct (Export_spec R policy param (fun _ => Err StreamError) model [] false
                          Hvalid (load_annotation_null _ _ Hnull)
                          (empty_annotation_fits _)) as [fuel0 Hexport].
    exists fuel0. intros fuel read_annotation Hfuel.
    destruct (Hexport fuel Hfuel) as (info & blocks & _ & _ & _ & Hart).
    eexists. rewrite <- Hart. unfold Export.
    now rewrite !(load_annotation_null _ _ Hnull).
Qed.

Lemma export_without_annotation_witness :
  (forall fuel read1 read2,
      Export plain_renderer (Quantize plain_renderer)
             {| annotate_in := "NULL"; quantize_level := 1 |} read1 fuel scenario_model
      = Export plain_renderer (Quantize plain_renderer)
               {| annotate_in := "NULL"; quantize_level := 1 |} read2 fuel
               scenario_model) /\
  (forall fuel read_annotation artifact,
      Export plain_renderer (Quantize plain_renderer)
             {| annotate_in := "NULL"; quantize_level := 1 |}
             read_annotation fuel scenario_model = Ok artifact ->
      exists info blocks,
        Metadata_Init fuel scenario_model (QuantizeFlag (Quantize plain_renderer))
        = Ok info /\
        artifact
        = SequenceBlock
            [ PlainBlock (Preamble (Quantize plain_renderer) info ++ [""%string]);
              FunctionBlock "float predict_margin(union Entry* data)"
                (SequenceBlock
                   ([ PlainBlock ["float sum = 0.0f;"%string];
                      PlainBlock (Preprocessing (Quantize plain_renderer) info) ]
                    ++ blocks
                    ++ [ PlainBlock ["return sum;"%string] ])) ] /\
        length blocks = length (trees scenario_model) /\
        Forall (eq kNone) (hints artifact)) /\
  (valid_model scenario_model ->
   exists fuel0,
     forall fuel read_annotation, (fuel0 <= fuel)%nat ->
       exists artifact,
         Export plain_renderer (Quantize plain_renderer)
                {| annotate_in := "NULL"; quantize_level := 1 |}
                read_annotation fuel scenario_model = Ok artifact).
Proof.
  apply (export_without_annotation
           plain_renderer (Quantize plain_renderer)
           {| annotate_in := "NULL"; quantize_level := 1 |} scenario_model).
  reflexivity.
Defined.

(* ===================================================================== *)
(** * More on the tables and on [quantize] *)
(* ===================================================================== *)

Lemma skipn_concat_segment (cp : list (list tl_float)) :
  forall fid arr,
    nth_error cp fid = Some arr ->
    skipn (length (concat (firstn fid cp))) (concat cp)
    = arr ++ concat (skipn (S fid) cp).
Proof.
  induction cp as [|e rest IH]; intros fid arr Hf.
  - destruct fid; discriminate.
  - destruct fid as [|fid']; simpl in Hf.
    + injection Hf as ->. reflexivity.
    + cbn [firstn concat skipn]. rewrite length_app, skipn_app.
      rewrite skipn_all2 by lia. cbn [app].
      replace (length e + length (concat (firstn fid' rest)) - length e)%nat
        with (length (concat (firstn fid' rest))) by lia.
      now apply IH.
Qed.






Lemma fle_spec (a b : tl_float) :
  fle a b = true <-> flt a b = true \/ feq a b = true.
Proof.
  unfold fle, flt, feq. destruct (fcompare a b) as [[]|]; split; intros H;
    try discriminate; auto; destruct H; discriminate.
Qed.

Lemma fle_flt_trans (a b c : tl_float) :
  fle a b = true -> flt b c = true -> flt a c = true.
Proof.
  intros Hab Hbc. apply fle_spec in Hab. destruct Hab as [H|H].
  - eapply flt_trans; eassumption.
  - now rewrite (feq_flt_l a b c H).
Qed.

Lemma placed_sits (arr : list tl_float) (v : tl_float) :
  strictly_sorted arr = true -> placed arr v ->
  below arr v \/ exists i exact, sits_at arr v i exact.
Proof.
  intros Hs [Hb | [[i Ho] | [[i Hbt] | Ha]]].
  - now left.
  - right. exists i, true. now apply on_point_sits.
  - right. exists i, false. now apply between_sits.
  - right. exists (length arr - 1)%nat, false. now apply above_sits.
Qed.

Lemma code_at_nonneg (arr : list tl_float) (i : nat) (exact : bool) :
  0 <= code_at arr i exact.
Proof.
  unfold code_at.
  destruct exact; [|destruct (Z.of_nat i + 1 =? Z.of_nat (length arr))]; lia.
Qed.

(** Of two values that sit in the array, the smaller sits no later. *)
Lemma sits_at_monotone (arr : list tl_float) (v w : tl_float)
      (i j : nat) (e e' : bool) :
  sits_at arr v i e -> sits_at arr w j e' -> fle v w = true ->
  code_at arr i e <= code_at arr j e'.
Proof.
  intros (Hi & Hbi & Hai & Hati) (Hj & Hbj & Haj & Hatj) Hvw.
  destruct (nth_error_in_range arr i Hi) as [x Hx].
  assert (Hxv : flt v x = false).
  { specialize (Hati x Hx). destruct e.
    - now destruct (feq_not_flt _ _ Hati).
    - now apply flt_asym. }
  destruct (lt_eq_lt_dec i j) as [[Hlt|Heq]|Hgt].
  - unfold code_at.
    destruct e; destruct e';
      repeat match goal with
             | |- context [?a =? ?b] => destruct (Z.eqb_spec a b)
             end; lia.
  - subst j. pose proof (Hatj x Hx) as Hw. specialize (Hati x Hx).
    destruct e, e'; unfold code_at;
      repeat match goal with
             | |- context [?a =? ?b] => destruct (Z.eqb_spec a b)
             end; try lia.
    + (* v strictly above [x], w equal to it *)
      exfalso. apply fle_spec in Hvw.
      assert (Hxw : flt x w = true).
      { destruct Hvw as [H|H].
        - eapply flt_trans; eassumption.
        - now rewrite <- (feq_flt_r v w x H). }
      destruct (flt_not_feq _ _ Hxw). congruence.
    + exfalso. apply fle_spec in Hvw.
      assert (Hxw : flt x w = true).
      { destruct Hvw as [H|H].
        - eapply flt_trans; eassumption.
        - now rewrite <- (feq_flt_r v w x H). }
      destruct (flt_not_feq _ _ Hxw). congruence.
  - exfalso. pose proof (Haj i x Hgt Hx) as Hwx.
    pose proof (fle_flt_trans v w x Hvw Hwx). congruence.
Qed.

(** X6: the codes keep the order of the values: of two values with a place
    among the cut points, the smaller or equal one gets the smaller or equal
    code. *)
Theorem quantize_keeps_order (cp : list (list tl_float)) (fid : nat)
        (arr : list tl_float) (v w : tl_float) :
  nth_error cp fid = Some arr ->
  strictly_sorted arr = true ->
  Z.of_nat (length (threshold_table cp)) * 2 <= INT_MAX ->
  placed arr v -> placed arr w -> fle v w = true ->
  exists cv cw,
    quantize_with cp v fid = Ok cv /\
    quantize_with cp w fid = Ok cw /\
    cv <= cw.
Proof.
  intros Hf Hs Hsize Hv Hw Hvw.
  destruct (placed_sits arr v Hs Hv) as [Hbv | (i & e & Hsv)];
    destruct (placed_sits arr w Hs Hw) as [Hbw | (j & e' & Hsw)].
  - exists (-10), (-10). repeat split; try (eapply quantize_with_below; eassumption). lia.
  - exists (-10), (code_at arr j e'). split; [eapply quantize_with_below; eassumption|].
    split; [eapply quantize_with_sits; eassumption|].
    pose proof (code_at_nonneg arr j e'). lia.
  - exfalso. destruct Hbw as (a0 & Ha0 & Hwa).
    pose proof (fle_flt_trans v w a0 Hvw Hwa) as Hva.
    destruct Hsv as (Hi & Hbi & Hai & Hati).
    destruct i as [|i'].
    + specialize (Hati a0 Ha0). destruct e.
      * destruct (feq_not_flt _ _ Hati). congruence.
      * pose proof (flt_asym _ _ Hati). congruence.
    + pose proof (Hbi 0%nat a0 ltac:(lia) Ha0) as H.
      pose proof (flt_asym _ _ H). congruence.
  - exists (code_at arr i e), (code_at arr j e').
    split; [eapply quantize_with_sits; eassumption|].
    split; [eapply quantize_with_sits; eassumption|].
    eapply sits_at_monotone; eassumption.
Qed.

Lemma quantize_keeps_order_witness :
  exists cv cw,
    quantize_with three_cuts (Finite 1) 0 = Ok cv /\
    quantize_with three_cuts (Finite (5 # 2)) 0 = Ok cw /\
    cv <= cw.
Proof.
  apply (quantize_keeps_order three_cuts 0
           [Finite (1 # 2); Finite (3 # 2); Finite (5 # 2)]).
  - reflexivity.
  - reflexivity.
  - vm_compute. discriminate.
  - right. right. left. exists 0%nat, (Finite (1 # 2)), (Finite (3 # 2)).
    repeat split; reflexivity.
  - right. left. exists 2%nat, (Finite (5 # 2)). split; reflexivity.
  - reflexivity.
Defined.

(* ===================================================================== *)
(** * What a returned extraction tells *)
(* ===================================================================== *)

Lemma insert_at_inv (x : tl_float) :
  forall thresh_ i thresh_',
    insert_at i x thresh_ = Ok thresh_' ->
    exists s, nth_error thresh_ i = Some s.
Proof.
  induction thresh_ as [|s0 rest IH]; intros i th' H.
  - destruct i; discriminate.
  - destruct i as [|i']; simpl in *; [eauto|].
    destruct (insert_at i' x rest) as [rest'|e] eqn:E; [|discriminate].
    eapply IH. exact E.
Qed.

Lemma QueueAt_app_inv (tree : Tree) (Q1 Q2 : list Z) :
  forall n,
    QueueAt tree (Q1 ++ Q2) n ->
    exists n1 n2, QueueAt tree Q1 n1 /\ QueueAt tree Q2 n2 /\ n = (n1 + n2)%nat.
Proof.
  induction Q1 as [|q Q1 IH]; intros n H; simpl in H.
  - exists 0%nat, n. repeat split; [constructor | assumption].
  - inversion H as [|nid Q a n' Ht HQ]; subst.
    destruct (IH n' HQ) as (n1 & n2 & H1 & H2 & ->).
    exists (a + n1)%nat, n2. repeat split; [now constructor | assumption | lia].
Qed.

Lemma sorted_sets_insert (thresh_ thresh_' : list float_set)
      (i : nat) (x : tl_float) (s : float_set) :
  sorted_sets thresh_ ->
  nth_error thresh_ i = Some s ->
  nth_error thresh_' i = Some (set_insert x s) ->
  (forall j, j <> i -> nth_error thresh_' j = nth_error thresh_ j) ->
  sorted_sets thresh_'.
Proof.
  intros Hall Hs Hi Hother. unfold sorted_sets in *.
  rewrite Forall_forall in Hall. apply Forall_forall. intros s' Hin.
  apply In_nth_error in Hin. destruct Hin as [j Hj].
  destruct (Nat.eq_dec j i) as [Heq|Hne].
  - subst j. rewrite Hi in Hj. injection Hj as <-.
    apply set_insert_sorted. apply Hall. eapply nth_error_In; eassumption.
  - rewrite (Hother j Hne) in Hj. apply Hall. eapply nth_error_In; eassumption.
Qed.

(** What a returned walk of one tree tells, with no assumption on the tree. *)
Lemma scan_queue_returned (tree : Tree) :
  forall fuel Q thresh_ thresh_',
    scan_queue fuel tree Q thresh_ = Ok thresh_' ->
    length thresh_' = length thresh_ /\
    (sorted_sets thresh_ -> sorted_sets thresh_') /\
    (forall f c, In c (nth f thresh_' []) ->
                 In c (nth f thresh_ []) \/ split_on tree f c) /\
    (exists n, QueueAt tree Q n /\ (n <= fuel)%nat) /\
    (forall q nid i dl op t l r,
        In q Q -> Under tree q nid ->
        index tree nid = Ok (Split i dl op t l r) ->
        (i < length thresh_)%nat).
Proof.
  induction fuel as [|fuel IH]; intros Q thresh_ thresh_' H.
  - destruct Q as [|nid Q']; [|discriminate]. injection H as <-.
    split; [reflexivity|]. split; [auto|]. split; [auto|].
    split; [exists 0%nat; split; [constructor | lia]|].
    intros q nid i dl op t l r [].
  - destruct Q as [|nid Q'].
    + injection H as <-.
      split; [reflexivity|]. split; [auto|]. split; [auto|].
      split; [exists 0%nat; split; [constructor | lia]|].
      intros q nid i dl op t l r [].
    + cbn [scan_queue] in H.
      destruct (index tree nid) as [node|e] eqn:Enode; [|discriminate].
      cbn [bind] in H. destruct node as [v|i dl op t l r].
      * destruct (IH _ _ _ H) as (Hlen & Hsorted & Hsound & (n & HQ & Hn) & Hrange).
        split; [assumption|]. split; [assumption|]. split; [assumption|]. split.
        -- exists (1 + n)%nat. split; [|lia]. constructor; [|assumption].
           eapply TreeAt_leaf. exact Enode.
        -- intros q x i dl op t l r [<-|Hq] Hu Hx.
           ++ apply Under_inv in Hu.
              destruct Hu as [->|(i' & dl' & op' & t' & l' & r' & Hfrom & _)];
                congruence.
           ++ eapply Hrange; eassumption.
      * destruct (insert_at i t thresh_) as [th1|e] eqn:Eins; [|discriminate].
        cbn [bind] in H.
        destruct (insert_at_inv _ _ _ _ Eins) as [s Hs].
        destruct (insert_at_spec t thresh_ i s Hs)
          as (th1' & Hins & Hlen1 & Hnth1 & Hother1).
        rewrite Eins in Hins. injection Hins as <-.
        destruct (IH _ _ _ H) as (Hlen & Hsorted & Hsound & (n & HQ & Hn) & Hrange).
        destruct (QueueAt_app_inv tree Q' [l; r] n HQ) as (n1 & n2 & HQ1 & HQ2 & ->).
        inversion HQ2 as [|l0 Q0 a n0 Hl HQ3]; subst.
        inversion HQ3 as [|r0 Q1 b n3 Hr HQ4]; subst.
        inversion HQ4; subst.
        split; [congruence|]. split; [|split; [|split]].
        -- intros Hsrt. apply Hsorted.
           eapply sorted_sets_insert; eassumption.
        -- intros f c Hc. destruct (Hsound f c Hc) as [H1|H1]; [|now right].
           rewrite nth_as_nth_error in H1. rewrite nth_as_nth_error.
           destruct (Nat.eq_dec f i) as [Heq|Hne].
           ++ subst f. rewrite Hnth1 in H1. rewrite Hs.
              destruct (set_insert_from _ _ _ H1) as [->|H2]; [right | now left].
              now exists nid, dl, op, l, r.
           ++ rewrite (Hother1 f Hne) in H1. now left.
        -- exists (S (a + b) + n1)%nat. split; [|lia].
           constructor; [|assumption]. eapply TreeAt_split; eassumption.
        -- intros q x i' dl' op' t' l' r' Hq Hu Hx.
           assert (Hi : (i < length thresh_)%nat)
             by (apply nth_error_Some; congruence).
           destruct Hq as [<-|Hq].
           ++ apply Under_inv in Hu.
              destruct Hu as [->|(i2 & dl2 & op2 & t2 & l2 & r2 & Hfrom & Hsub)].
              ** rewrite Enode in Hx. now injection Hx as <- _ _ _ _ _.
              ** rewrite Enode in Hfrom. injection Hfrom as <- <- <- <- <- <-.
                 rewrite <- Hlen1.
                 destruct Hsub as [Hsub|Hsub].
                 --- apply (Hrange l x i' dl' op' t' l' r'); [|assumption|assumption].
                     apply in_or_app. right. now left.
                 --- apply (Hrange r x i' dl' op' t' l' r'); [|assumption|assumption].
                     apply in_or_app. right. right. now left.
           ++ rewrite <- Hlen1.
              apply (Hrange q x i' dl' op' t' l' r'); [|assumption|assumption].
              apply in_or_app. now left.
Qed.

Lemma scan_trees_returned (fuel : nat) :
  forall ts thresh_ thresh_',
    scan_trees fuel ts thresh_ = Ok thresh_' ->
    length thresh_' = length thresh_ /\
    (sorted_sets thresh_ -> sorted_sets thresh_') /\
    (forall f c, In c (nth f thresh_' []) ->
                 In c (nth f thresh_ []) \/ split_among ts f c) /\
    (forall tree, In tree ts ->
       (exists size, TreeAt tree 0 size /\ (size <= fuel)%nat) /\
       forall nid i dl op t l r,
         Under tree 0 nid -> index tree nid = Ok (Split i dl op t l r) ->
         (i < length thresh_)%nat).
Proof.
  induction ts as [|tree rest IH]; intros thresh_ thresh_' H.
  - injection H as <-. split; [reflexivity|]. split; [auto|]. split; [auto|].
    intros tree [].
  - cbn [scan_trees] in H.
    destruct (scan_queue fuel tree [0] thresh_) as [th1|e] eqn:E1; [|discriminate].
    cbn [bind] in H.
    destruct (scan_queue_returned tree _ _ _ _ E1)
      as (Hlen1 & Hsorted1 & Hsound1 & (n & HQ & Hn) & Hrange1).
    destruct (IH _ _ H) as (Hlen & Hsorted & Hsound & Htrees).
    split; [congruence|]. split; [auto|]. split; [|].
    + intros f c Hc. destruct (Hsound f c Hc) as [H1|(tr & Hin & Hsp)].
      * destruct (Hsound1 f c H1) as [H0|Hsp]; [now left|].
        right. exists tree. split; [now left | assumption].
      * right. exists tr. split; [now right | assumption].
    + intros tr [<-|Hin].
      * split.
        -- inversion HQ as [|q Q a n' Ht HQ']; subst. exists a. split; [assumption | lia].
        -- intros nid i dl op t l r Hu Hx.
           apply (Hrange1 0 nid i dl op t l r); [now left | assumption | assumption].
      * destruct (Htrees tr Hin) as [Hsize Hrange]. split; [assumption|].
        intros nid i dl op t l r Hu Hx. rewrite <- Hlen1.
        eapply Hrange; eassumption.
Qed.

(** X7: whatever the ensemble, when extraction returns it has read nothing
    out of range: [num_features] is not negative and is the number of lists,
    every tree is finite from its root (within the fuel) and every split
    under a root reads a feature below [num_features]; every list is sorted
    and made of thresholds of splits on its feature, so a feature no split
    reads has the empty list. *)
Theorem extraction_returns_only_in_range (fuel : nat) (model : Model)
        (cuts : list (list tl_float)) :
  ExtractCutPoints fuel model = Ok cuts ->
  0 <= num_features model /\
  length cuts = Z.to_nat (num_features model) /\
  Forall (fun s => strictly_sorted s = true) cuts /\
  (forall f c, In c (nth f cuts []) -> split_among (trees model) f c) /\
  (forall f, (forall c, ~ split_among (trees model) f c) -> nth f cuts [] = []) /\
  (forall tree, In tree (trees model) ->
     (exists size, TreeAt tree 0 size /\ (size <= fuel)%nat) /\
     forall nid i dl op t l r,
       Under tree 0 nid -> index tree nid = Ok (Split i dl op t l r) ->
       Z.of_nat i < num_features model).
Proof.
  unfold ExtractCutPoints. intros H.
  destruct (num_features model <? 0) eqn:E; [discriminate|].
  apply Z.ltb_ge in E.
  destruct (scan_trees fuel (trees model) (repeat [] (Z.to_nat (num_features model))))
    as [th|e] eqn:Escan; [|discriminate].
  cbn [bind] in H. injection H as <-.
  replace (map set_elements th) with th by (symmetry; apply map_id).
  destruct (scan_trees_returned fuel _ _ _ Escan) as (Hlen & Hsorted & Hsound & Htrees).
  rewrite repeat_length in Hlen.
  assert (Hfrom : forall f c, In c (nth f th []) -> split_among (trees model) f c).
  { intros f c Hc. destruct (Hsound f c Hc) as [H0|H1]; [|assumption].
    now apply nth_repeat_nil in H0. }
  split; [assumption|]. split; [assumption|]. split; [|split; [|split]].
  - apply Hsorted. apply Forall_forall. intros s Hs.
    apply repeat_spec in Hs. now subst s.
  - exact Hfrom.
  - intros f Hnone. destruct (nth f th []) as [|c rest] eqn:Ef; [reflexivity|].
    exfalso. apply (Hnone c). apply Hfrom. rewrite Ef. now left.
  - intros tree Hin. destruct (Htrees tree Hin) as [Hsize Hrange].
    split; [assumption|]. intros nid i dl op t l r Hu Hx.
    pose proof (Hrange nid i dl op t l r Hu Hx) as Hi.
    rewrite repeat_length in Hi. lia.
Qed.

Lemma extraction_returns_only_in_range_witness :
  0 <= num_features scenario_model /\
  length [[Finite (1 # 2)]] = Z.to_nat (num_features scenario_model) /\
  Forall (fun s => strictly_sorted s = true) [[Finite (1 # 2)]] /\
  (forall f c, In c (nth f [[Finite (1 # 2)]] []) ->
               split_among (trees scenario_model) f c) /\
  (forall f, (forall c, ~ split_among (trees scenario_model) f c) ->
             nth f [[Finite (1 # 2)]] [] = []) /\
  (forall tree, In tree (trees scenario_model) ->
     (exists size, TreeAt tree 0 size /\ (size <= 3)%nat) /\
     forall nid i dl op t l r,
       Under tree 0 nid -> index tree nid = Ok (Split i dl op t l r) ->
       Z.of_nat i < num_features scenario_model).
Proof.
  apply (extraction_returns_only_in_range 3 scenario_model). reflexivity.
Defined.

(* ===================================================================== *)
(** * The two policies send a record to the same leaf *)
(* ===================================================================== *)

Lemma scan_trees_more_fuel (fuel : nat) :
  forall ts thresh_ thresh_',
    scan_trees fuel ts thresh_ = Ok thresh_' ->
    forall k, scan_trees (fuel + k) ts thresh_ = Ok thresh_'.
Proof.
  induction ts as [|tree rest IH]; intros thresh_ thresh_' H k; [exact H|].
  cbn [scan_trees] in *.
  destruct (scan_queue fuel tree [0] thresh_) as [th1|e] eqn:E1; [|discriminate].
  rewrite (scan_queue_more_fuel tree _ _ _ _ E1 k). cbn [bind] in *.
  now apply IH.
Qed.

(** On a well-formed ensemble, whatever extraction returns is the lists of
    [ExtractCutPoints_spec]. *)
Lemma ExtractCutPoints_returned (model : Model) (fuel : nat)
      (cuts : list (list tl_float)) :
  valid_model model ->
  ExtractCutPoints fuel model = Ok cuts ->
  length cuts = Z.to_nat (num_features model) /\
  Forall (fun s => strictly_sorted s = true) cuts /\
  (forall f c, In c (nth f cuts []) -> c <> NaN /\ split_among (trees model) f c) /\
  (forall tree nid f dl op t l r,
      In tree (trees model) -> index tree nid = Ok (Split f dl op t l r) ->
      exists c, In c (nth f cuts []) /\ feq c t = true).
Proof.
  intros Hvalid Hrun.
  destruct (ExtractCutPoints_spec model Hvalid)
    as (fuel0 & cuts0 & Hrun0 & Hlen & Hsorted & Hsound & Hcompl).
  assert (Hsame : ExtractCutPoints (fuel + fuel0) model = Ok cuts).
  { unfold ExtractCutPoints in *.
    destruct (num_features model <? 0); [discriminate|].
    destruct (scan_trees fuel (trees model)
                         (repeat [] (Z.to_nat (num_features model))))
      as [th|e] eqn:E; [|discriminate].
    now rewrite (scan_trees_more_fuel fuel _ _ _ E fuel0). }
  rewrite (Hrun0 (fuel + fuel0)%nat ltac:(lia)) in Hsame.
  injection Hsame as <-. auto.
Qed.



Section TwoWalks.

Variable R : Renderer.
Variable C : CTarget.
Variable info info' : Metadata.
Variable tree : Tree.
Variable counts : list N.
Variable data data' : list Entry.

(** At every split the adapter of the quantized policy finds the threshold,
    and its condition on [data'] has the value of the float comparison on
    [data]. *)
Hypothesis splits_agree :
  forall nid f dl op t l r,
    index tree nid = Ok (Split f dl op t l r) ->
    exists p holds,
      Quantize_expr info op f t = Ok (QCompare f op (quantized_literal p)) /\
      eval_condition R C data'
                     (condition_expr dl f (QCompare f op (quantized_literal p)))
      = Ok holds /\
      eval_condition R C data (condition_expr dl f (FCompare f op t)) = Ok holds.


End TwoWalks.



(* ===================================================================== *)
(** * The cut points and the order of the trees *)
(* ===================================================================== *)

(** Two sorted lists with the same values, up to [==], are equal place by
    place, up to [==]. *)
Lemma sorted_same_values :
  forall a b : list tl_float,
    strictly_sorted a = true -> strictly_sorted b = true ->
    (forall x, In x a -> exists y, In y b /\ feq y x = true) ->
    (forall y, In y b -> exists x, In x a /\ feq x y = true) ->
    Forall2 (fun x y => feq x y = true) a b.
Proof.
  induction a as [|x a' IH]; intros b Ha Hb Hab Hba.
  - destruct b as [|y b']; [constructor|].
    destruct (Hba y (or_introl eq_refl)) as (x & [] & _).
  - destruct b as [|y b'].
    + destruct (Hab x (or_introl eq_refl)) as (y & [] & _).
    + assert (Hxy : feq x y = true).
      { destruct (Hab x (or_introl eq_refl)) as (y1 & [<-|Hy1] & E1);
          [now rewrite feq_sym|].
        destruct (Hba y (or_introl eq_refl)) as (x1 & [<-|Hx1] & E2);
          [assumption|].
        exfalso.
        apply In_nth_error in Hy1. destruct Hy1 as [k Hk].
        apply In_nth_error in Hx1. destruct Hx1 as [j Hj].
        pose proof (strictly_sorted_head b' y k y1 Hb Hk) as Hlt1.
        pose proof (strictly_sorted_head a' x j x1 Ha Hj) as Hlt2.
        rewrite (feq_flt_r y1 x y E1) in Hlt1.
        rewrite (feq_flt_r x1 y x E2) in Hlt2.
        rewrite (flt_asym _ _ Hlt1) in Hlt2. discriminate. }
      constructor; [assumption|].
      apply IH.
      * eapply strictly_sorted_tail; eassumption.
      * eapply strictly_sorted_tail; eassumption.
      * intros x1 Hx1.
        destruct (Hab x1 (or_intror Hx1)) as (y1 & [<-|Hy1] & E1); [|eauto].
        exfalso. apply In_nth_error in Hx1. destruct Hx1 as [j Hj].
        pose proof (strictly_sorted_head a' x j x1 Ha Hj) as Hlt.
        rewrite <- (feq_flt_r y x1 x E1) in Hlt.
        destruct (flt_not_feq _ _ Hlt) as [Hne _]. congruence.
      * intros y1 Hy1.
        destruct (Hba y1 (or_intror Hy1)) as (x1 & [<-|Hx1] & E1); [|eauto].
        exfalso. apply In_nth_error in Hy1. destruct Hy1 as [k Hk].
        pose proof (strictly_sorted_head b' y k y1 Hb Hk) as Hlt.
        rewrite <- (feq_flt_r x y1 y E1) in Hlt.
        destruct (flt_not_feq _ _ Hlt) as [_ Hne]. congruence.
Qed.

Lemma Forall2_of_nth {A B : Type} (P : A -> B -> Prop) :
  forall (a : list A) (b : list B),
    length a = length b ->
    (forall k x y, nth_error a k = Some x -> nth_error b k = Some y -> P x y) ->
    Forall2 P a b.
Proof.
  induction a as [|x a' IH]; intros [|y b'] Hlen Hnth; try discriminate.
  - constructor.
  - constructor.
    + apply (Hnth 0%nat); reflexivity.
    + apply IH; [simpl in Hlen; lia|].
      intros k x1 y1 Hx Hy. apply (Hnth (S k)); assumption.
Qed.

(** X9: the order of the trees does not change the cut points, up to [==]:
    two well-formed ensembles with the same trees in another order and the
    same number of features give lists with equal values at every place of
    every feature.  (Of two thresholds that are [==], such as 0.0 and -0.0,
    the set keeps the one inserted first.) *)
Theorem cut_points_ignore_tree_order (model1 model2 : Model) (fuel1 fuel2 : nat)
        (cuts1 cuts2 : list (list tl_float)) :
  valid_model model1 ->
  Permutation (trees model1) (trees model2) ->
  num_features model1 = num_features model2 ->
  ExtractCutPoints fuel1 model1 = Ok cuts1 ->
  ExtractCutPoints fuel2 model2 = Ok cuts2 ->
  Forall2 (Forall2 (fun x y => feq x y = true)) cuts1 cuts2.
Proof.
  intros Hvalid1 Hperm Hnf Hrun1 Hrun2.
  assert (Hvalid2 : valid_model model2).
  { destruct Hvalid1 as [H0 Hall]. split; [lia|].
    rewrite <- Hnf. eapply Permutation_Forall; eassumption. }
  destruct (ExtractCutPoints_returned model1 fuel1 cuts1 Hvalid1 Hrun1)
    as (Hlen1 & Hsorted1 & Hsound1 & Hcompl1).
  destruct (ExtractCutPoints_returned model2 fuel2 cuts2 Hvalid2 Hrun2)
    as (Hlen2 & Hsorted2 & Hsound2 & Hcompl2).
  apply Forall2_of_nth; [congruence|].
  intros f a b Ha Hb.
  rewrite Forall_forall in Hsorted1, Hsorted2.
  apply sorted_same_values.
  - apply Hsorted1. eapply nth_error_In; eassumption.
  - apply Hsorted2. eapply nth_error_In; eassumption.
  - intros x Hx.
    destruct (Hsound1 f x) as [_ (tree & Hin & nid & dl & op & l & r & Hnode)].
    { rewrite nth_as_nth_error, Ha. exact Hx. }
    destruct (Hcompl2 tree nid f dl op x l r) as (y & Hy & Heq);
      [eapply Permutation_in; eassumption | assumption |].
    exists y. split; [|assumption].
    rewrite nth_as_nth_error, Hb in Hy. exact Hy.
  - intros y Hy.
    destruct (Hsound2 f y) as [_ (tree & Hin & nid & dl & op & l & r & Hnode)].
    { rewrite nth_as_nth_error, Hb. exact Hy. }
    destruct (Hcompl1 tree nid f dl op y l r) as (x & Hx & Heq);
      [eapply Permutation_in; [apply Permutation_sym|]; eassumption | assumption |].
    exists x. split; [|assumption].
    rewrite nth_as_nth_error, Ha in Hx. exact Hx.
Qed.

Lemma cut_points_ignore_tree_order_witness :
  Forall2 (Forall2 (fun x y => feq x y = true))
          [[Finite (1 # 2)]] [[Finite (1 # 2)]].
Proof.
  apply (cut_points_ignore_tree_order
           scenario_model {| trees := [tree_B; tree_A]; num_features := 1 |} 3 3).
  - exact scenario_valid.
  - apply perm_swap.
  - reflexivity.
  - reflexivity.
  - reflexivity.
Defined.

(* ===================================================================== *)
(** * [quantize] on a feature without cut points *)
(* ===================================================================== *)

Lemma nth_error_as_skipn {A : Type} (l : list A) :
  forall n, nth_error l n = hd_error (skipn n l).
Proof.
  induction l as [|a l' IH]; intros [|n]; try reflexivity. apply IH.
Qed.

(** X10: a feature no split reads has no cut points, and the preprocessing
    loop still calls [quantize] on its value.  The segment of such a feature
    is empty, so [array[0]] is the first cut point of the next feature that
    has some: [quantize] returns -10 for a value below it and 0 otherwise;
    when no later feature has a cut point it reads past the end of
    [threshold]. *)
Theorem quantize_on_empty_segment (cp : list (list tl_float)) (fid : nat)
        (v : tl_float) :
  nth_error cp fid = Some [] ->
  Z.of_nat (length (threshold_table cp)) <= INT_MAX ->
  quantize_with cp v fid
  = match concat (skipn (S fid) cp) with
    | [] => Err OutOfRange
    | a0 :: _ => Ok (if flt v a0 then -10 else 0)
    end.
Proof.
  intros Hf Hsize. unfold quantize_with, quantize.
  assert (Hbase : index (th_begin_table cp) (Z.of_nat fid)
                  = Ok (Z.of_nat (length (concat (firstn fid cp))))).
  { pose proof (segment_in_table cp fid [] Hf) as Hseg.
    unfold threshold_table in Hsize.
    rewrite index_of_nat. unfold th_begin_table.
    rewrite nth_error_map, (accum_from_nth cp 0 fid [] Hf). simpl.
    f_equal. apply wrap_int_small. unfold INT_MAX in *. lia. }
  assert (Hlen : index (th_len_table cp) (Z.of_nat fid) = Ok 0).
  { rewrite index_of_nat. unfold th_len_table. rewrite nth_error_map, Hf.
    reflexivity. }
  rewrite Hbase, Hlen. cbn [bind].
  replace (Z.of_nat (length (concat (firstn fid cp))) + 0)
    with (Z.of_nat (length (concat (firstn fid cp)))) by lia.
  rewrite index_of_nat. unfold threshold_table.
  rewrite nth_error_as_skipn, (skipn_concat_segment cp fid [] Hf). cbn [app].
  destruct (concat (skipn (S fid) cp)) as [|a0 rest] eqn:Enext; [reflexivity|].
  cbn [hd_error bind]. destruct (flt v a0); [reflexivity|].
  change (Z.to_nat 0) with 0%nat. cbn [quantize_while].
  change (int_add 0 1 <? 0) with false. cbv iota.
  replace (Z.of_nat (length (concat (firstn fid cp))) + 0)
    with (Z.of_nat (length (concat (firstn fid cp)))) by lia.
  rewrite index_of_nat, nth_error_as_skipn, (skipn_concat_segment cp fid [] Hf).
  rewrite Enext. cbn [app hd_error bind]. now destruct (feq a0 v).
Qed.

Lemma quantize_on_empty_segment_witness :
  quantize_with [ [Finite (1 # 2)]; [] ] (Finite 1) 1
  = match concat (skipn 2 [ [Finite (1 # 2)]; [] ]) with
    | [] => Err OutOfRange
    | a0 :: _ => Ok (if flt (Finite 1) a0 then -10 else 0)
    end.
Proof.
  apply (quantize_on_empty_segment [ [Finite (1 # 2)]; [] ] 1 (Finite 1)).
  - reflexivity.
  - vm_compute. discriminate.
Defined.

(* ===================================================================== *)
(** * The conditions of a compiled ensemble *)
(* ===================================================================== *)

Section WalkConditions.

Variable R : Renderer.
Variable policy : QuantizePolicy.
Variable info : Metadata.
Variable P : SplitCondition -> Prop.

Lemma WalkTree__conditions (tree : Tree) (counts : list N) :
  (forall nid f dl op t l r,
      index tree nid = Ok (Split f dl op t l r) ->
      P {| sc_split_index := f; sc_default_left := dl; sc_op := op;
           sc_threshold := t; sc_numeric_adapter := NumericAdapter policy info |}) ->
  forall fuel nid b,
    WalkTree_ R policy fuel info tree counts nid = Ok b ->
    Forall P (conditions b).
Proof.
  intros Hsplit. induction fuel as [|fuel IH]; intros nid b H; [discriminate|].
  rewrite WalkTree__eq in H.
  destruct (index tree nid) as [node|err] eqn:Enode; [|discriminate].
  cbn [bind] in H. destruct node as [v|f dl op t l r].
  - injection H as <-. constructor.
  - destruct (likely_direction_of counts l r) as [d|err]; [|discriminate].
    cbn [bind] in H.
    destruct (WalkTree_ R policy fuel info tree counts l) as [lb|err] eqn:El;
      [|discriminate].
    cbn [bind] in H.
    destruct (WalkTree_ R policy fuel info tree counts r) as [rb|err] eqn:Er;
      [|discriminate].
    cbn [bind] in H. injection H as <-. cbn [conditions].
    constructor; [eapply Hsplit; exact Enode|].
    apply Forall_app. split; eapply IH; eassumption.
Qed.

Lemma walk_trees_conditions (annotation : Annotation) (fuel : nat) :
  forall ts tree_id blocks,
    (forall tree, In tree ts ->
       forall nid f dl op t l r,
         index tree nid = Ok (Split f dl op t l r) ->
         P {| sc_split_index := f; sc_default_left := dl; sc_op := op;
              sc_threshold := t;
              sc_numeric_adapter := NumericAdapter policy info |}) ->
    walk_trees R policy fuel info annotation tree_id ts = Ok blocks ->
    Forall P (flat_map conditions blocks).
Proof.
  induction ts as [|tree rest IH]; intros tree_id blocks Hsplit H.
  - injection H as <-. constructor.
  - cbn [walk_trees] in H.
    destruct (counts_of annotation tree_id) as [counts|err]; [|discriminate].
    cbn [bind] in H. unfold WalkTree in H.
    destruct (WalkTree_ R policy fuel info tree counts 0) as [b|err] eqn:Eb;
      [|discriminate].
    cbn [bind] in H.
    destruct (walk_trees R policy fuel info annotation (S tree_id) rest)
      as [bs|err] eqn:Ebs; [|discriminate].
    cbn [bind] in H. injection H as <-. cbn [flat_map].
    apply Forall_app. split.
    + eapply WalkTree__conditions; [|exact Eb].
      apply Hsplit. now left.
    + eapply IH; [|exact Ebs]. intros tr Hin. apply Hsplit. now right.
Qed.

End WalkConditions.

(** X11: whichever policy [quantize_level] selects, every condition of an
    artifact [Export] returns for a well-formed ensemble compiles: the
    adapter of the identity policy always prints, and the adapter of the
    quantized policy finds every threshold of the artifact among the cut
    points, so no [CHECK] fails when the artifact is printed. *)
Theorem artifact_conditions_compile (R : Renderer) (param : CompilerParam)
        (read_annotation : string -> result Annotation) (fuel : nat)
        (model : Model) (artifact : CodeBlock) :
  valid_model model ->
  Export R (select_policy R param) param read_annotation fuel model = Ok artifact ->
  Forall (fun c => exists n,
              Compile c
              = Ok (render_condition R
                      (condition_expr (sc_default_left c) (sc_split_index c) n)))
         (conditions artifact).
Proof.
  intros Hvalid H. unfold Export in H.
  destruct (Metadata_Init fuel model (QuantizeFlag (select_policy R param)))
    as [info|err] eqn:Einit; [|discriminate].
  cbn [bind] in H.
  destruct (load_annotation param read_annotation) as [[annotation annotate]|err];
    [|discriminate].
  cbn [bind fst snd] in H.
  destruct (walk_trees R (select_policy R param) fuel info annotation 0 (trees model))
    as [blocks|err] eqn:Ewalk; [|discriminate].
  cbn [bind] in H. injection H as <-.
  cbn [conditions flat_map app]. rewrite app_nil_r, flat_map_app.
  cbn [flat_map conditions app]. rewrite app_nil_r.
  eapply walk_trees_conditions; [|exact Ewalk].
  intros tree Hin nid f dl op t l r Hnode.
  cbn [sc_default_left sc_split_index].
  unfold select_policy in *.
  destruct (quantize_level param >? 0).
  - unfold Metadata_Init in Einit. cbn [QuantizeFlag Quantize] in Einit.
    destruct (ExtractCutPoints fuel model) as [cuts|err] eqn:Ecuts; [|discriminate].
    cbn [bind] in Einit. injection Einit as <-.
    destruct (ExtractCutPoints_returned model fuel cuts Hvalid Ecuts)
      as (Hlen & Hsorted & _ & Hcompl).
    destruct (Hcompl tree nid f dl op t l r Hin Hnode) as (c & Hc & Heq).
    rewrite nth_as_nth_error in Hc.
    destruct (nth_error cuts f) as [arr|] eqn:Earr; [|contradiction].
    apply In_nth_error in Hc. destruct Hc as [p Hp].
    assert (Hs : strictly_sorted arr = true).
    { rewrite Forall_forall in Hsorted. apply Hsorted.
      eapply nth_error_In; eassumption. }
    exists (QCompare f op (quantized_literal p)).
    apply Compile_renders. apply Quantize_renders.
    unfold Quantize_expr. cbn [cut_pts]. rewrite index_of_nat, Earr. cbn [bind].
    now rewrite (binary_search_finds arr t p c Hs Hp Heq).
  - exists (FCompare f op t). apply Compile_renders. apply NoQuantize_renders.
Qed.

Lemma artifact_conditions_compile_witness :
  exists artifact,
    Export plain_renderer
           (select_policy plain_renderer
                          {| annotate_in := "NULL"; quantize_level := 1 |})
           {| annotate_in := "NULL"; quantize_level := 1 |}
           (fun _ => Ok []) 3 scenario_model
    = Ok artifact /\
    Forall (fun c => exists n,
                Compile c
                = Ok (render_condition plain_renderer
                        (condition_expr (sc_default_left c) (sc_split_index c) n)))
           (conditions artifact).
Proof.
  eexists. split; [reflexivity|].
  apply (artifact_conditions_compile
           plain_renderer {| annotate_in := "NULL"; quantize_level := 1 |}
           (fun _ => Ok []) 3 scenario_model).
  - exact scenario_valid.
  - reflexivity.
Defined.

(* ===================================================================== *)
(** * A threshold of seven digits *)
(* ===================================================================== *)

(** The identity policy prints its thresholds with [<<] too.  The [float]
    nearest to 0.1 prints as [0.1] and is above the [double] of that text:
    the condition of the split [feature 0 <= 0.1f] does not hold on the
    value 0.1f, which the split sends left. *)
Example one_tenth_is_printed_short :
  stream_float stream_renderer (Finite (13421773 # 134217728)) = "0.1"%string /\
  eval_condition stream_renderer c_target
                 [FloatSlot (Finite (13421773 # 134217728))]
                 (condition_expr false 0
                    (FCompare 0 kLE (Finite (13421773 # 134217728))))
  = Ok false /\
  goes_left false kLE (Finite (13421773 # 134217728))
            (FloatSlot (Finite (13421773 # 134217728)))
  = Ok true.
Proof. repeat split; reflexivity. Qed.

(** C1 fails on the code.  [Quantize::Preamble] writes the cut points into
    [threshold[]] with [oss2 << value], six significant digits, while the
    adapter looks the threshold up among the cut points themselves.  For the
    split [feature 0 < 1234567] the cut point 1234567 is found at position
    0, so the condition is [data[0].qvalue < 0]; the table of the generated
    file holds 1234570; on the value 1234567 [quantize] returns -10, below
    the first entry: the quantized comparison [-10 < 0] holds, and the
    record goes left, where [1234567 < 1234567] does not. *)
Theorem seven_digit_threshold_is_misrouted :
  ExtractCutPoints 3 seven_digit_model = Ok [[Finite 1234567]] /\
  NumericAdapter (Quantize stream_renderer)
                 {| info_num_features := 1; cut_pts := [[Finite 1234567]] |}
                 kLT 0 (Finite 1234567)
  = Ok "data[0].qvalue < 0"%string /\
  stream_float stream_renderer (Finite 1234567) = "1.23457e+06"%string /\
  nth 6 (Preamble (Quantize stream_renderer)
                  {| info_num_features := 1; cut_pts := [[Finite 1234567]] |})
      ""%string
  = "  1.23457e+06, "%string /\
  generated_cut_pts stream_renderer c_target [[Finite 1234567]]
  = Ok [[Finite 1234570]] /\
  placed [Finite 1234567] (Finite 1234567) /\
  quantize_with [[Finite 1234570]] (Finite 1234567) 0 = Ok (-10) /\
  int_cmp kLT (-10) (quantized_literal 0) = true /\
  float_cmp kLT (Finite 1234567) (Finite 1234567) = false /\
  preprocess_from [[Finite 1234570]] 0 1 [FloatSlot (Finite 1234567)]
  = Ok [IntSlot (-10)] /\
  eval_condition stream_renderer c_target [IntSlot (-10)]
                 (condition_expr true 0 (QCompare 0 kLT (quantized_literal 0)))
  = Ok true /\
  goes_left true kLT (Finite 1234567) (FloatSlot (Finite 1234567)) = Ok false.
Proof.
  repeat split; try reflexivity.
  right. left. exists 0%nat. exists (Finite 1234567). split; reflexivity.
Qed.
